(** * Metaboverse: substructure store, mass index, fragment extraction,
      co-occurrence network and isomorphism catalog

    A shallow embedding of [metaboverse/databases.py]; the row construction
    of its population loop is the one of [mfrontier_funcs.py] as well.

    Conventions of the embedding
    - A Python [int] is a [Z]; a Python [float] is the rational it denotes,
      a canonical rational [Qc], so that [==] on floats is Leibniz equality
      and [<] is the order of the rationals.
    - Arithmetic on floats is binary64 arithmetic: the exact result rounded
      to the nearest binary64 value, ties to the even significand
      ([Mass.b64]); a float literal is the binary64 value nearest to the
      decimal written. Python turns a result beyond the largest binary64
      value into [inf]; such a result is outside [Mass.finite64], and a
      statement that depends on it says so.
    - [round(x, n)] is what CPython computes: the exact value of the float
      [x] rounded to [n] decimal places, ties to even, and that decimal
      read back as a float.
    - The text of a float spliced into a statement is its [repr], which
      sqlite reads back as the same float.
    - A table is the list of its rows in insertion order; [SELECT DISTINCT]
      removes duplicate result rows.
    - A Python [dict] whose iteration order is observable is an association
      list in insertion order with unique keys.
    - An exception is a value [Raise e] of the result type [res]. *)

From Stdlib Require Import QArith Qcanon ZArith Qabs Qpower.
From stdpp Require Import base decidable option numbers list strings sorting.

Local Open Scope Z_scope.

(** ** Python results *)

Inductive exn : Set :=
  | KeyError
  | IndexError
  | NetworkXError
  | ToolkitError
  | OperationalError
  | ProgrammingError
  | SyntaxError.

Inductive res (A : Type) : Type :=
  | Ok (a : A)
  | Raise (e : exn).
Arguments Ok {A} a.
Arguments Raise {A} e.

Definition res_bind {A B} (m : res A) (k : A → res B) : res B :=
  match m with
  | Ok a => k a
  | Raise e => Raise e
  end.

Global Instance res_mbind : MBind res := λ A B k m, res_bind m k.
Global Instance res_mret : MRet res := λ A a, Ok a.

(** ** Text spliced into a statement *)

Module Splice.

Definition nul : Ascii.ascii := Ascii.zero.
Definition quotation_mark : Ascii.ascii := Ascii.ascii_of_nat 34.
Definition apostrophe : Ascii.ascii := Ascii.ascii_of_nat 39.

Fixpoint has_nul (s : string) : bool :=
  match s with
  | EmptyString => false
  | String c s' => bool_decide (c = nul) || has_nul s'
  end.

(** [q] is a character of [s]. *)
Fixpoint occurs (q : Ascii.ascii) (s : string) : bool :=
  match s with
  | EmptyString => false
  | String c s' => bool_decide (c = q) || occurs q s'
  end.

(** What sqlite reads as a literal when [s] stands between two [q] in the
    text of a statement: a doubled [q] in [s] stands for one [q]; a single
    [q] ends the literal before [s] does, and the answer is [None]. *)
Fixpoint dequote (q : Ascii.ascii) (s : string) : option string :=
  match s with
  | EmptyString => Some EmptyString
  | String c s' =>
      if decide (c = q) then
        match s' with
        | EmptyString => None
        | String c' s'' => if decide (c' = q) then String q <$> dequote q s'' else None
        end
      else String c <$> dequote q s'
  end.

(** The literal read for [s] spliced between two [q]. The driver refuses a
    statement that holds a NUL character. When [s] ends the literal early,
    sqlite reads the rest of [s] as part of the statement and rejects the
    statement; a text written so that the statement stays well-formed is
    not followed here. *)
Definition literal (q : Ascii.ascii) (s : string) : res string :=
  match dequote q s with
  | Some s' => Ok s'
  | None => Raise OperationalError
  end.

(** [s] is read back as it is: it holds no [q] and no NUL character. *)
Definition verbatim (q : Ascii.ascii) (s : string) : Prop :=
  has_nul s = false ∧ dequote q s = Some s.

Global Instance verbatim_dec q s : Decision (verbatim q s).
Proof. unfold verbatim. apply _. Defined.

End Splice.

(** ** Insertion-ordered dictionaries *)

Module Dict.
Section dict.
Context {K V : Type} `{EqDecision K}.

Fixpoint get (k : K) (d : list (K * V)) : option V :=
  match d with
  | [] => None
  | (k', v) :: d' => if decide (k = k') then Some v else get k d'
  end.

(** [d[k] = v]: an existing key keeps its position, a new key goes last. *)
Fixpoint set (k : K) (v : V) (d : list (K * V)) : list (K * V) :=
  match d with
  | [] => [(k, v)]
  | (k', v') :: d' =>
      if decide (k = k') then (k, v) :: d' else (k', v') :: set k v d'
  end.

(** [del d[k]] for a key that is present; an absent key leaves [d] as it is. *)
Fixpoint del (k : K) (d : list (K * V)) : list (K * V) :=
  match d with
  | [] => []
  | (k', v') :: d' => if decide (k = k') then d' else (k', v') :: del k d'
  end.

Definition keys (d : list (K * V)) : list K := d.*1.
Definition values (d : list (K * V)) : list V := d.*2.

(** [k in d] *)
Definition mem (k : K) (d : list (K * V)) : bool :=
  match get k d with
  | Some _ => true
  | None => false
  end.

End dict.
End Dict.

(** ** Masses and precision tiers *)

Module Mass.

(** [10 ** d] *)
Definition pow10 (d : nat) : Z := 10 ^ Z.of_nat d.

(** Nearest integer to the rational [q], ties to the even neighbour. *)
Definition round_half_even (q : Q) : Z :=
  let n := Qnum q in
  let d := Zpos (Qden q) in
  let fl := n `div` d in
  let r := n `mod` d in
  match 2 * r ?= d with
  | Lt => fl
  | Gt => fl + 1
  | Eq => if Z.even fl then fl else fl + 1
  end.

(** [2 ** e], for an exponent of either sign. *)
Definition pow2 (e : Z) : Q := Qpower (2 # 1) e.

(** [floor(log2(q))] of a positive rational. *)
Definition flog2 (q : Q) : Z :=
  let k := Z.log2 (Qnum q) - Z.log2 (Zpos (Qden q)) in
  if Qle_bool (pow2 k) q then k else k - 1.

(** The exponent of the last place of the binary64 values around [q]: a
    significand of 53 bits, and [-1074] for the subnormal values. *)
Definition ulp_exp (q : Q) : Z := Z.max (flog2 (Qabs q) - 52) (-1074).

(** The binary64 value nearest to [q], ties to the even significand. *)
Definition b64 (q : Q) : Q :=
  if Qeq_bool q 0 then 0%Q
  else (inject_Z (round_half_even (q / pow2 (ulp_exp q))) * pow2 (ulp_exp q))%Q.

(** The float that an exact value becomes. *)
Definition float (x : Qc) : Qc := Q2Qc (b64 (this x)).

(** [x + y], [x - y], [x * y] and [x / y] on floats. *)
Definition fadd (x y : Qc) : Qc := float (x + y).
Definition fsub (x y : Qc) : Qc := float (x - y).
Definition fmul (x y : Qc) : Qc := float (x * y).
Definition fdiv (x y : Qc) : Qc := float (x / y).

(** A result of this size is a binary64 value; a larger one is [inf] in
    Python. *)
Definition finite64 (x : Qc) : Prop := (Qabs (this x) < pow2 1024)%Q.

(** The decimal [n * 10 ** -d], as in [180.063388 = dec 180063388 6]. *)
Definition dec (n : Z) (d : nat) : Qc := Q2Qc (Qmake n (Z.to_pos (pow10 d))).

(** The float literal written [n * 10 ** -d], as in
    [180.063388 = flt 180063388 6]. *)
Definition flt (n : Z) (d : nat) : Qc := float (dec n d).

(** [z * 10 ** -ndigits] is the decimal with [ndigits] places nearest to
    [x], and of the two nearest the one with the even last digit. *)
Definition nearest_decimal (x : Qc) (ndigits : nat) (z : Z) : Prop :=
  (Qabs (this x * inject_Z (pow10 ndigits) - inject_Z z) <= 1 # 2)%Q
  ∧ ((Qabs (this x * inject_Z (pow10 ndigits) - inject_Z z) == 1 # 2)%Q
     → Z.even z = true).

(** [round(x, ndigits)] on a float: the decimal with [ndigits] places
    nearest to the exact value of [x], ties to even, read back as a float. *)
Definition py_round (x : Qc) (ndigits : nat) : Qc :=
  let scaled := Qmult (this x) (inject_Z (pow10 ndigits)) in
  float (dec (round_half_even scaled) ndigits).

(** The five mass columns [exact_mass__1], [exact_mass__0_1], ...; the
    [accuracy] argument of the queries is the suffix of the column name. *)
Inductive accuracy : Set :=
  | acc_1
  | acc_0_1
  | acc_0_01
  | acc_0_001
  | acc_0_0001.

Definition decimals (a : accuracy) : nat :=
  match a with
  | acc_1 => 0
  | acc_0_1 => 1
  | acc_0_01 => 2
  | acc_0_001 => 3
  | acc_0_0001 => 4
  end%nat.

End Mass.

(** ** The substructure store and its queries ([SubstructureDb]) *)

Module Store.
Import Mass.

(** A row of table [compounds]. *)
Record compound : Type := {
  hmdbid : string;
  c_exact_mass : Qc;
  formula : string;
  c_C : Z; c_H : Z; c_N : Z; c_O : Z; c_P : Z; c_S : Z;
  c_smiles : string;
  smiles_rdkit : string;
  smiles_rdkit_kek : string }.

(** A row of table [substructures]; [smiles] is the primary key.
    [valence_atoms] holds [str(degree_atoms)], kept here as the dictionary
    it prints, and [lib] holds the pickled fragment. *)
Record substructure : Type := {
  smiles : string;
  heavy_atoms : Z;
  length_ : Z;
  exact_mass__1 : Qc;
  exact_mass__0_1 : Qc;
  exact_mass__0_01 : Qc;
  exact_mass__0_001 : Qc;
  exact_mass__0_0001 : Qc;
  exact_mass : Qc;
  count_ : Z;
  n_C : Z; n_H : Z; n_N : Z; n_O : Z; n_P : Z; n_S : Z;
  valence : Z;
  valence_atoms : list (nat * Z);
  atoms_available : Z;
  lib : string }.

Global Instance compound_eq_dec : EqDecision compound.
Proof. solve_decision. Defined.

Global Instance substructure_eq_dec : EqDecision substructure.
Proof. solve_decision. Defined.

(** The three tables created by [create_compound_database]. *)
Record db : Type := {
  compounds : list compound;
  substructures : list substructure;
  hmdbid_substructures : list (string * string) }.

Definition create_compound_database : db :=
  {| compounds := []; substructures := []; hmdbid_substructures := [] |}.

(** The column [exact_mass__<accuracy>]. *)
Definition mass_column (a : accuracy) (r : substructure) : Qc :=
  match a with
  | acc_1 => exact_mass__1 r
  | acc_0_1 => exact_mass__0_1 r
  | acc_0_01 => exact_mass__0_01 r
  | acc_0_001 => exact_mass__0_001 r
  | acc_0_0001 => exact_mass__0_0001 r
  end.

(** The element counts [(C, H, N, O, P, S)] of a row. *)
Definition ec : Type := Z * Z * Z * Z * Z * Z.

Definition ec_of (r : substructure) : ec :=
  (n_C r, n_H r, n_N r, n_O r, n_P r, n_S r).

(** *** [select_compounds] *)

Definition apostrophe : Ascii.ascii := Ascii.ascii_of_nat 39.

Fixpoint has_apostrophe (s : string) : bool :=
  match s with
  | EmptyString => false
  | String c s' => bool_decide (c = apostrophe) || has_apostrophe s'
  end.

(** The text spliced between [in ('] and [')] is [", ".join(map(str, cpds))].
    When it holds no apostrophe the statement compares [HMDBID] with that
    text as one string literal. With an apostrophe in it the statement is
    no longer of that shape; the model gives no answer ([None]) then. *)
Definition select_compounds (d : db) (cpds : list string) : option (list compound) :=
  if bool_decide (0 < length cpds)%nat then
    let text := String.concat ", " cpds in
    if has_apostrophe text then None
    else Some (remove_dups (filter (λ r, hmdbid r = text) (compounds d)))
  else Some (remove_dups (compounds d)).

(** *** [select_mass_values] *)

(** [masses] is [Some l] when the argument is a list and [None] for any
    other Python value. *)
Definition filter_mass (masses : option (list Qc)) (r : substructure) : bool :=
  match masses with
  | Some (m :: ms) => bool_decide (exact_mass__1 r ∈ m :: ms)
  | _ => true
  end.

Definition select_mass_values (subs : list substructure) (a : accuracy)
    (heavy : list Z) (max_valence : Z) (masses : option (list Qc)) : list Qc :=
  let records :=
    remove_dups
      (mass_column a <$>
         filter (λ r, valence r ≤ max_valence ∧ heavy_atoms r ∈ heavy
                      ∧ filter_mass masses r = true) subs) in
  merge_sort Qcle records.

(** *** [select_ecs] *)

Definition million : Qc := Qc_of_Z 1000000.

(** [tolerance = (exact_mass / 1000000) * ppm] *)
Definition tolerance (exact_mass ppm : Qc) : Qc := fmul (fdiv exact_mass million) ppm.

(** The half-width and the two bounds of the window are binary64 values. *)
Definition window_finite (exact_mass ppm : Qc) : Prop :=
  finite64 (tolerance exact_mass ppm)
  ∧ finite64 (fadd exact_mass (tolerance exact_mass ppm))
  ∧ finite64 (fsub exact_mass (tolerance exact_mass ppm)).

Definition mass_statement (target : Qc) (ppm : option Qc) (v : Qc) : bool :=
  match ppm with
  | None => bool_decide (v = target)
  | Some ppm =>
      bool_decide (v < fadd target (tolerance target ppm))%Qc
      && bool_decide (fsub target (tolerance target ppm) < v)%Qc
  end.

Definition select_ecs (subs : list substructure) (target : Qc)
    (heavy : list Z) (a : accuracy) (ppm : option Qc) : list ec :=
  remove_dups
    (ec_of <$>
       filter (λ r, heavy_atoms r ∈ heavy
                    ∧ mass_statement target ppm (mass_column a r) = true) subs).

(** *** [select_sub_structures] *)

Section select_sub_structures.
Context {L : Type} (loads : string → L).



End select_sub_structures.

(** *** [INSERT OR IGNORE] *)

Definition insert_or_ignore_compound (r : compound) (t : list compound) : list compound :=
  if bool_decide (hmdbid r ∈ hmdbid <$> t) then t else t ++ [r].

Definition insert_or_ignore_substructure (r : substructure)
    (t : list substructure) : list substructure :=
  if bool_decide (smiles r ∈ smiles <$> t) then t else t ++ [r].

Definition insert_or_ignore_link (r : string * string)
    (t : list (string * string)) : list (string * string) :=
  if bool_decide (r ∈ t) then t else t ++ [r].

End Store.

(** ** Fragment extraction and population of the store *)

Module Fragment.
Import Mass Store.

(** A molecular graph as the toolkit presents it: atoms by index with their
    symbol, bonds by index with their two atom indices and the bond type as
    a double (1.0 single, 1.5 aromatic, 2.0 double). *)
Record bond : Type := {
  begin_atom : nat;
  end_atom : nat;
  bond_type : Qc }.

Record mol : Type := {
  atoms : list string;
  bonds : list bond }.

Global Instance bond_eq_dec : EqDecision bond.
Proof. solve_decision. Defined.

Global Instance mol_eq_dec : EqDecision mol.
Proof. solve_decision. Defined.

Definition wildcard : string := "*".

Definition GetNumAtoms (m : mol) : nat := length (atoms m).

(** [mol.GetBondWithIdx(i)]; the toolkit raises on an index out of range. *)
Definition GetBondWithIdx (m : mol) (i : nat) : res bond :=
  match bonds m !! i with
  | Some b => Ok b
  | None => Raise ToolkitError
  end.

(** [mol.GetAtomWithIdx(i).GetSymbol()] for an index in range. *)
Definition GetSymbol (m : mol) (i : nat) : string :=
  default EmptyString (atoms m !! i).

(** The atom at the other end of [b], seen from atom [i]. *)
Definition other_end (i : nat) (b : bond) : list nat :=
  if decide (begin_atom b = i) then [end_atom b]
  else if decide (end_atom b = i) then [begin_atom b]
  else [].

(** [mol.GetAtomWithIdx(i).GetNeighbors()], one neighbour per bond of [i]. *)
Definition GetNeighbors (m : mol) (i : nat) : list nat :=
  b ← bonds m; other_end i b.

(** [mol_edit.ReplaceAtom(i, Chem.Atom(s))] *)
Definition ReplaceAtom (i : nat) (s : string) (m : mol) : mol :=
  {| atoms := <[i := s]> (atoms m); bonds := bonds m |}.

Definition shift_down (i j : nat) : nat := if decide (i < j)%nat then pred j else j.

(** [mol_edit.RemoveAtom(i)]: the atom and its bonds go, and the atoms of a
    higher index move down by one. *)
Definition RemoveAtom (i : nat) (m : mol) : mol :=
  {| atoms := delete i (atoms m);
     bonds :=
       (λ b, {| begin_atom := shift_down i (begin_atom b);
                end_atom := shift_down i (end_atom b);
                bond_type := bond_type b |})
       <$> filter (λ b, begin_atom b ≠ i ∧ end_atom b ≠ i) (bonds m) |}.

(** [reversed(mol.GetAtoms())], as atom indices. *)
Definition reversed_atoms (m : mol) : list nat := reverse (seq 0 (GetNumAtoms m)).

Definition append_new (x : nat) (l : list nat) : list nat :=
  if decide (x ∈ l) then l else l ++ [x].

(** First loop of [get_substructure]: the atoms of the selected bonds. *)
Fixpoint atom_idxs_of (m : mol) (idxs_edges_subgraph : list nat)
    (atom_idxs_subgraph : list nat) : res (list nat) :=
  match idxs_edges_subgraph with
  | [] => Ok atom_idxs_subgraph
  | bIdx :: rest =>
      b ← GetBondWithIdx m bIdx;
      atom_idxs_of m rest
        (append_new (end_atom b) (append_new (begin_atom b) atom_idxs_subgraph))
  end.

(** Second loop: the neighbours outside the selection. *)
Definition atoms_to_dummy_of (m : mol) (atom_idxs_subgraph : list nat) : list nat :=
  idx ← atom_idxs_subgraph;
  filter (λ n, n ∉ atom_idxs_subgraph) (GetNeighbors m idx).

(** Third loop: every boundary atom becomes a wildcard. *)
Definition replace_dummies (m : mol) (atoms_to_dummy : list nat) : mol :=
  foldl (λ me i, if decide (i ∈ atoms_to_dummy) then ReplaceAtom i wildcard me else me)
        m (reversed_atoms m).

(** Fourth loop: atoms neither selected nor wildcard are removed, highest
    index first. The test reads [m]; the edits go to the editable copy. *)
Definition remove_unselected (m : mol) (atom_idxs_subgraph : list nat) : mol :=
  foldl (λ me i,
           if decide ((i ∉ atom_idxs_subgraph) ∧ GetSymbol m i ≠ wildcard)
           then RemoveAtom i me else me)
        m (reversed_atoms m).

(** [mol_out]: the fragment before kekulization. *)
Definition fragment_of (m : mol) (idxs_edges_subgraph : list nat) : res mol :=
  atom_idxs_subgraph ← atom_idxs_of m idxs_edges_subgraph [];
  let atoms_to_dummy := atoms_to_dummy_of m atom_idxs_subgraph in
  let m' := replace_dummies m atoms_to_dummy in
  Ok (remove_unselected m' atom_idxs_subgraph).

Definition dummies_of (mol_out : mol) : list nat :=
  filter (λ i, GetSymbol mol_out i = wildcard) (seq 0 (GetNumAtoms mol_out)).

(** [degree_atoms[k] = 1] for a new key, [degree_atoms[k] += 1] otherwise. *)
Definition count_up (k : nat) (d : list (nat * Z)) : list (nat * Z) :=
  match Dict.get k d with
  | None => Dict.set k 1 d
  | Some v => Dict.set k (v + 1) d
  end.

(** The neighbours counted for one atom of the loop over [mol_out]. *)
Definition counted_neighbors (mol_out : mol) (dummies : list nat) (i : nat) : list nat :=
  if decide (i ∈ dummies)
  then filter (λ n, GetSymbol mol_out n ≠ wildcard) (GetNeighbors mol_out i)
  else [].

Definition degree_atoms_of (mol_out : mol) (dummies : list nat) : list (nat * Z) :=
  foldl (λ d i, foldl (λ d n, count_up n d) d (counted_neighbors mol_out dummies i))
        [] (seq 0 (GetNumAtoms mol_out)).

(** [bond_types[k] = [x]] for a new key, [bond_types[k].append(x)] otherwise. *)
Definition push (k : nat) (x : Qc) (d : list (nat * list Qc)) : list (nat * list Qc) :=
  match Dict.get k d with
  | None => Dict.set k [x] d
  | Some l => Dict.set k (l ++ [x]) d
  end.

(** The key under which the loop over the bonds records [b], if any. *)
Definition recorded_at (mol_out : mol) (b : bond) : option nat :=
  if decide (GetSymbol mol_out (begin_atom b) = wildcard) then Some (end_atom b)
  else if decide (GetSymbol mol_out (end_atom b) = wildcard) then Some (begin_atom b)
  else None.

Definition bond_types_of (mol_out : mol) : list (nat * list Qc) :=
  foldl (λ d b, match recorded_at mol_out b with
                | Some k => push k (bond_type b) d
                | None => d
                end)
        [] (bonds mol_out).

(** [b] joins the atom [a] to a wildcard. *)
Definition joins_wildcard (mol_out : mol) (a : nat) (b : bond) : Prop :=
  (begin_atom b = a ∧ GetSymbol mol_out (end_atom b) = wildcard)
  ∨ (end_atom b = a ∧ GetSymbol mol_out (begin_atom b) = wildcard).

(** The bonds of [mol_out] that join the atom [a] to a wildcard. *)
Definition wildcard_bonds (mol_out : mol) (a : nat) : list bond :=
  filter (joins_wildcard mol_out a) (bonds mol_out).

(** [b] joins a wildcard and an atom that is none. *)
Definition cut (mol_out : mol) (b : bond) : Prop :=
  (GetSymbol mol_out (begin_atom b) = wildcard ∧ GetSymbol mol_out (end_atom b) ≠ wildcard)
  ∨ (GetSymbol mol_out (begin_atom b) ≠ wildcard ∧ GetSymbol mol_out (end_atom b) = wildcard).

(** The bonds cut open by the extraction: wildcard-to-wildcard bonds are
    none of them. *)
Definition cut_bonds (mol_out : mol) : list bond := filter (cut mol_out) (bonds mol_out).

(** [sum(d.values())] *)
Definition sum_values (d : list (nat * Z)) : Z := foldr Z.add 0 (Dict.values d).

(** The dictionary returned by [get_substructure]. *)
Record lib_dict : Type := {
  lib_smiles : string;
  lib_mol : mol;
  lib_bond_types : list (nat * list Qc);
  lib_degree_atoms : list (nat * Z);
  lib_valence : Z;
  lib_atoms_available : Z;
  lib_dummies : list nat }.

(** The element table of [get_elements] and the mass table of
    [calculate_exact_mass]. *)
Definition elements_init : list (string * Z) :=
  [("C", 0); ("H", 0); ("N", 0); ("O", 0); ("P", 0); ("S", 0); ("*", 0)]%string.

Definition exact_mass_elements : list (string * Qc) :=
  [("C", flt 12000000 6); ("H", flt 1007825 6); ("N", flt 14003074 6);
   ("O", flt 15994915 6); ("P", flt 30973763 6); ("S", flt 31972072 6);
   ("*", flt (-1007825) 6)]%string.

(** [sum([els[atom] for atom in els if keep atom])] *)
Definition sum_where (keep : string → bool) (els : list (string * Z)) : Z :=
  foldr Z.add 0 ((filter (λ kv, keep kv.1 = true) els).*2).

Definition els_at (k : string) (els : list (string * Z)) : Z :=
  default 0 (Dict.get k els).

(** The row [sub_smi_dict] built by [update_substructure_database] and,
    statement for statement, by [update_mfrontier_database]. *)
Definition sub_smi_dict (smi : string) (mass : Qc) (els : list (string * Z))
    (l : lib_dict) (pkl_lib : string) : substructure :=
  {| smiles := smi;
     heavy_atoms :=
       sum_where (λ atom, bool_decide (atom ≠ "H"%string ∧ atom ≠ "*"%string)) els;
     length_ := sum_where (λ atom, bool_decide (atom ≠ "*"%string)) els;
     exact_mass__1 := py_round mass 0;
     exact_mass__0_1 := py_round mass 1;
     exact_mass__0_01 := py_round mass 2;
     exact_mass__0_001 := py_round mass 3;
     exact_mass__0_0001 := py_round mass 4;
     exact_mass := mass;
     count_ := 0;
     n_C := els_at "C" els; n_H := els_at "H" els; n_N := els_at "N" els;
     n_O := els_at "O" els; n_P := els_at "P" els; n_S := els_at "S" els;
     valence := lib_valence l;
     valence_atoms := lib_degree_atoms l;
     atoms_available := lib_atoms_available l;
     lib := pkl_lib |}.

(** A record yielded by [filter_records]: the compound row and its
    molecule. *)
Record record_dict : Type := {
  rd_compound : compound;
  rd_mol : mol }.

Section toolkit.

(** The toolkit calls whose result the code only passes on.
    [Kekulize m] is [None] when [Chem.rdmolops.Kekulize] raises and the
    kekulized molecule otherwise. [MolToSmiles m] is what
    [Chem.MolToSmiles(m, kekuleSmiles=True)] returns or raises; it
    kekulizes on its own. *)
Variable Kekulize : mol → option mol.
Variable MolToSmiles : mol → res string.
Variable AddHs : mol → mol.
Variable dumps : lib_dict → string.
Variable get_sgs : record_dict → list (list (list nat)).

Definition get_substructure (m : mol) (idxs_edges_subgraph : list nat) : res (option lib_dict) :=
  mol_out ← fragment_of m idxs_edges_subgraph;
  let dummies := dummies_of mol_out in
  let degree_atoms := degree_atoms_of mol_out dummies in
  let bond_types := bond_types_of mol_out in
  match Kekulize mol_out with
  | None => Ok None
  | Some mol_kek =>
      smiles ← MolToSmiles mol_kek;
      Ok (Some {| lib_smiles := smiles;
                  lib_mol := mol_kek;
                  lib_bond_types := bond_types;
                  lib_degree_atoms := degree_atoms;
                  lib_valence := sum_values degree_atoms;
                  lib_atoms_available := Z.of_nat (length (Dict.keys degree_atoms));
                  lib_dummies := dummies |})
  end.

(** [elements[atom.GetSymbol()] += 1] *)
Definition count_element (sym : string) (els : list (string * Z)) : res (list (string * Z)) :=
  match Dict.get sym els with
  | Some v => Ok (Dict.set sym (v + 1) els)
  | None => Raise KeyError
  end.

Fixpoint count_elements (syms : list string) (els : list (string * Z)) : res (list (string * Z)) :=
  match syms with
  | [] => Ok els
  | sym :: rest => els' ← count_element sym els; count_elements rest els'
  end.

Definition get_elements (m : mol) : res (list (string * Z)) :=
  count_elements (atoms (AddHs m)) elements_init.

Fixpoint add_masses (syms : list string) (mass : Qc) : res Qc :=
  match syms with
  | [] => Ok mass
  | sym :: rest =>
      if decide (sym ≠ wildcard) then
        match Dict.get sym exact_mass_elements with
        | Some x => add_masses rest (fadd mass x)
        | None => Raise KeyError
        end
      else add_masses rest mass
  end.

Definition calculate_exact_mass (m : mol) : res Qc :=
  add_masses (atoms (AddHs m)) (Q2Qc 0).

(** The last statement of the loop body: the two texts are spliced between
    quotation marks into [VALUES ("%s", "%s")]. *)
Definition insert_link (HMDB_ID smiles_rdkit_kek : string)
    (t : list (string * string)) : res (list (string * string)) :=
  if Splice.has_nul HMDB_ID || Splice.has_nul smiles_rdkit_kek then Raise ProgrammingError
  else
    id ← Splice.literal Splice.quotation_mark HMDB_ID;
    smi ← Splice.literal Splice.quotation_mark smiles_rdkit_kek;
    Ok (insert_or_ignore_link (id, smi) t).

(** The body of the loop over [edge_idxs] in [update_substructure_database]. *)
Definition insert_fragment (rd : record_dict) (edge_idxs : list nat) (d : db) : res db :=
  l ← get_substructure (rd_mol rd) edge_idxs;
  match l with
  | None => Ok d
  | Some l =>
      smiles_rdkit_kek ← MolToSmiles (lib_mol l);
      mass ← calculate_exact_mass (lib_mol l);
      els ← get_elements (lib_mol l);
      let row := sub_smi_dict smiles_rdkit_kek mass els l (dumps l) in
      let substructures' := insert_or_ignore_substructure row (substructures d) in
      links ← insert_link (hmdbid (rd_compound rd)) smiles_rdkit_kek (hmdbid_substructures d);
      Ok {| compounds := compounds d;
            substructures := substructures';
            hmdbid_substructures := links |}
  end.

Fixpoint insert_fragments (rd : record_dict) (sgs : list (list nat)) (d : db) : res db :=
  match sgs with
  | [] => Ok d
  | edge_idxs :: rest =>
      d' ← insert_fragment rd edge_idxs d;
      insert_fragments rd rest d'
  end.

Fixpoint insert_all_sgs (rd : record_dict) (all : list (list (list nat))) (d : db) : res db :=
  match all with
  | [] => Ok d
  | sgs :: rest =>
      d' ← insert_fragments rd sgs d;
      insert_all_sgs rd rest d'
  end.

(** [update_substructure_database] over the records that pass
    [filter_records]. *)
Fixpoint update_substructure_database (records : list record_dict) (d : db) : res db :=
  match records with
  | [] => Ok d
  | rd :: rest =>
      let d1 := {| compounds := insert_or_ignore_compound (rd_compound rd) (compounds d);
                   substructures := substructures d;
                   hmdbid_substructures := hmdbid_substructures d |} in
      d2 ← insert_all_sgs rd (get_sgs rd) d1;
      update_substructure_database rest d2
  end.

End toolkit.

End Fragment.

(** ** The co-occurrence network ([generate_substructure_network]) *)

Module Network.
Import Store.

(** A [networkx.Graph] whose only attribute is [weight]: [node] is [_node]
    and [adj] is [_adj], both in insertion order. An attribute dictionary is
    [Some w] when it holds [weight] and [None] when it is empty. The
    attribute dictionary of an edge is one object reached from both ends, so
    every write to it is made at [adj[u][v]] and at [adj[v][u]]. *)
Record graph : Type := {
  node : list (string * option Z);
  adj : list (string * list (string * option Z)) }.

Definition empty_graph : graph := {| node := []; adj := [] |}.

(** [attr_dict.update(attr)] *)
Definition update_attr (old new : option Z) : option Z :=
  match new with
  | Some w => Some w
  | None => old
  end.

Definition add_node (n : string) (attr : option Z) (g : graph) : graph :=
  match Dict.get n (node g) with
  | None => {| node := Dict.set n attr (node g); adj := Dict.set n [] (adj g) |}
  | Some old => {| node := Dict.set n (update_attr old attr) (node g); adj := adj g |}
  end.

(** [_adj[u][v] = datadict] for a node [u] of the graph. *)
Definition set_adj (u v : string) (datadict : option Z)
    (a : list (string * list (string * option Z))) : list (string * list (string * option Z)) :=
  Dict.set u (Dict.set v datadict (default [] (Dict.get u a))) a.

Definition add_edge (u v : string) (attr : option Z) (g : graph) : graph :=
  let g := add_node v None (add_node u None g) in
  let old := default None (Dict.get v (default [] (Dict.get u (adj g)))) in
  let datadict := update_attr old attr in
  {| node := node g; adj := set_adj v u datadict (set_adj u v datadict (adj g)) |}.

Definition has_edge (u v : string) (g : graph) : bool :=
  match Dict.get u (adj g) with
  | Some nbrs => Dict.mem v nbrs
  | None => false
  end.

(** [G[u][v]['weight'] += 1] *)
Definition increment_weight (u v : string) (g : graph) : res graph :=
  match Dict.get u (adj g) with
  | None => Raise KeyError
  | Some nbrs =>
      match Dict.get v nbrs with
      | None => Raise KeyError
      | Some None => Raise KeyError
      | Some (Some w) =>
          Ok {| node := node g;
                adj := set_adj v u (Some (w + 1)) (set_adj u v (Some (w + 1)) (adj g)) |}
      end
  end.

(** [del _adj[u][n]] *)
Definition del_adj (u n : string)
    (a : list (string * list (string * option Z))) : list (string * list (string * option Z)) :=
  match Dict.get u a with
  | Some nbrs => Dict.set u (Dict.del n nbrs) a
  | None => a
  end.

Definition remove_node (n : string) (g : graph) : res graph :=
  match Dict.get n (adj g) with
  | None => Raise NetworkXError
  | Some nbrs =>
      Ok {| node := Dict.del n (node g);
            adj := Dict.del n (foldl (λ a u, del_adj u n a) (adj g) (Dict.keys nbrs)) |}
  end.

(** [nx.selfloop_edges(G)], as the nodes that carry a self-loop. *)
Definition selfloop_nodes (g : graph) : list string :=
  (filter (λ e, Dict.mem e.1 e.2 = true) (adj g)).*1.

(** [G.remove_edges_from(nx.selfloop_edges(G))] *)
Definition remove_selfloops (g : graph) : graph :=
  {| node := node g;
     adj := foldl (λ a n, del_adj n n a) (adj g) (selfloop_nodes g) |}.

(** [nx.isolates(G)] and [G.remove_nodes_from(...)] *)
Definition isolates (g : graph) : list string :=
  (filter (λ e, e.2 = []) (adj g)).*1.

Definition remove_isolates (g : graph) : graph :=
  let iso := isolates g in
  {| node := filter (λ e, e.1 ∉ iso) (node g);
     adj := filter (λ e, e.1 ∉ iso) (adj g) |}.

(** A left fold in the result monad: a [for] loop whose body may raise. *)
Fixpoint for_each {A S : Type} (body : S → A → res S) (l : list A) (s : S) : res S :=
  match l with
  | [] => Ok s
  | x :: l' => s' ← body s x; for_each body l' s'
  end.

(** [filter_hmdbid_substructures]: table [unique_hmdbid] and table
    [filtered_hmdbid_substructures] (substructure, number of links). SQL
    leaves the order of the groups open; they stand here in the order in
    which the substructures first occur in the link table, where sqlite
    lists them sorted by their text. The order decides in which order the
    nodes are added, and no node, edge or weight. *)
Definition unique_hmdbid (d : db) : list string :=
  remove_dups (hmdbid <$> compounds d).

Definition link_count (smi : string) (links : list (string * string)) : Z :=
  Z.of_nat (length (filter (λ l, l.2 = smi) links)).

Definition filtered_hmdbid_substructures (d : db) (min_node_weight : Z) : list (string * Z) :=
  filter (λ e, min_node_weight ≤ e.2)
    ((λ smi, (smi, link_count smi (hmdbid_substructures d)))
       <$> remove_dups ((hmdbid_substructures d).*2)).

(** The rows of [hmdbid_substructures] whose substructure passed the
    filter. *)
Definition filtered_links (d : db) (min_node_weight : Z) : list (string * string) :=
  filter (λ l, l.2 ∈ (filtered_hmdbid_substructures d min_node_weight).*1)
         (hmdbid_substructures d).

(** The body of the two nested loops over [adj[x]]. *)
Definition link_pair (g : graph) (adj1 adj2 : string) : res graph :=
  if has_edge adj1 adj2 g then increment_weight adj1 adj2 g
  else Ok (add_edge adj1 adj2 (Some 1) g).

(** One round of the loop that replaces a parent by links between its
    neighbours. No step of the two inner loops changes the keys of
    [adj[x]], so both run over the keys read at the start. *)
Definition replace_parent (g : graph) (x : string) : res graph :=
  match Dict.get x (adj g) with
  | None => Raise KeyError
  | Some nbrs =>
      let ks := Dict.keys nbrs in
      g' ← for_each (λ g adj1, for_each (λ g adj2, link_pair g adj1 adj2) ks g) ks g;
      remove_node x g'
  end.

Definition extended_substructure_network (d : db) (min_node_weight : Z)
    (substructure_graph : graph) (unique_hmdb_ids : list string)
    (include_parents : bool) : res graph :=
  let g := foldl (λ g x, add_node x None g) substructure_graph unique_hmdb_ids in
  let g := foldl (λ g l, add_edge l.1 l.2 None g) g (filtered_links d min_node_weight) in
  if negb include_parents then
    g' ← for_each replace_parent unique_hmdb_ids g;
    Ok (remove_selfloops g')
  else Ok g.

(** The loop over the substructures of one compound in
    [default_substructure_network]. *)
Definition link_to_earlier (g : graph) (smi : string) (nodes : list string) : res graph :=
  for_each (λ g n, link_pair g smi n) nodes g.

(** The loop over the rows fetched for one compound. *)
Definition link_substructures (rows : list (string * string)) (g : graph) : res graph :=
  gn ← for_each (λ (gn : graph * list string) l,
                   g' ← link_to_earlier gn.1 l.2 gn.2; Ok (g', gn.2 ++ [l.2]))
                rows (g, []);
  Ok gn.1.

(** One round of [default_substructure_network]. The identifier is
    spliced between apostrophes into [hmdbid = '%s'], so the rows fetched
    are those of the literal that sqlite reads there. *)
Definition default_compound (d : db) (min_node_weight : Z) (g : graph) (x : string) : res graph :=
  if Splice.has_nul x then Raise ProgrammingError
  else
    id ← Splice.literal Splice.apostrophe x;
    link_substructures (filter (λ l, l.1 = id) (filtered_links d min_node_weight)) g.

Definition default_substructure_network (d : db) (min_node_weight : Z)
    (substructure_graph : graph) (unique_hmdb_ids : list string) : res graph :=
  for_each (default_compound d min_node_weight) unique_hmdb_ids substructure_graph.

Inductive method : Set :=
  | method_default
  | method_extended
  | method_parent_structure_linkage.

Definition generate_substructure_network (d : db) (m : method)
    (min_node_weight : Z) (remove_isolated : bool) : res graph :=
  let unique_hmdb_ids := unique_hmdbid d in
  let g0 := foldl (λ g e, add_node e.1 (Some e.2) g) empty_graph
                  (filtered_hmdbid_substructures d min_node_weight) in
  g ← match m with
      | method_default =>
          default_substructure_network d min_node_weight g0 unique_hmdb_ids
      | method_extended =>
          extended_substructure_network d min_node_weight g0 unique_hmdb_ids false
      | method_parent_structure_linkage =>
          extended_substructure_network d min_node_weight g0 unique_hmdb_ids true
      end;
  Ok (if remove_isolated then remove_isolates g else g).

(** Reading the result: nodes, and the weight of an edge. *)
Definition has_node (n : string) (g : graph) : bool := Dict.mem n (node g).

Definition edge_weight (u v : string) (g : graph) : option (option Z) :=
  nbrs ← Dict.get u (adj g); Dict.get v nbrs.

End Network.

(** ** The isomorphism catalog ([create_isomorphism_database], [paths]) *)

Module Catalog.

(** The nested dictionary [{e: {e': ...}}] built by chained [setdefault]. *)
#[local] Set Warnings "-register-all".
Inductive tree (E : Type) : Type :=
  | Node (children : list (E * tree E)).
Arguments Node {E} children.

Definition children {E} (t : tree E) : list (E * tree E) :=
  match t with
  | Node cs => cs
  end.

Section prefix_tree.
Context {E : Type} `{EqDecision E}.

(** [parent = root; for e in fr: parent = parent.setdefault(e, {})] *)
Fixpoint insert (fr : list E) (t : tree E) : tree E :=
  match fr with
  | [] => t
  | e :: fr' =>
      let cs := children t in
      Node (Dict.set e (insert fr' (default (Node []) (Dict.get e cs))) cs)
  end.

(** The tree [root] built for one signature. *)
Definition build (frs : list (list E)) : tree E :=
  foldl (λ root fr, insert fr root) (Node []) frs.

(** [SubstructureDb.paths]: the generator, as the list of what it yields. *)
Fixpoint paths (t : tree E) (cur : list E) : list (list E) :=
  match t with
  | Node [] => [cur]
  | Node cs => flat_map (λ ns, paths ns.2 (cur ++ [ns.1])) cs
  end.

(** Every dictionary of the tree has each key once. *)
Inductive keys_unique : tree E → Prop :=
  | keys_unique_Node cs :
      NoDup (Dict.keys cs) →
      Forall (λ ns, keys_unique ns.2) cs →
      keys_unique (Node cs).

(** [uniform n t]: keys are unique and every leaf of [t] is at depth [n]. *)
Inductive uniform : nat → tree E → Prop :=
  | uniform_leaf : uniform 0 (Node [])
  | uniform_node n cs :
      cs ≠ [] →
      NoDup (Dict.keys cs) →
      Forall (λ ns, uniform n ns.2) cs →
      uniform (S n) (Node cs).

End prefix_tree.

Section merge.
(** [M] is a vertex mapping read from the matcher, [E] an edge identifier;
    an entry of the accumulator is a sequence of edge identifiers. *)
Context {M E : Type} `{EqDecision E}.

(** [eval(line)]: the mapping written on the line, or the exception the
    text of the line makes [eval] raise. *)
Variable eval : string → res M.

(** [graph_info(p, sG, mappings)[0]] for the template and candidate of the
    current round, a dictionary from signature to entries. The function is
    defined in [auxiliary.py]. *)
Variable graph_info : list M → list (string * list (list E)).

(** [for es in new: if es not in cur: cur.append(es)] *)
Definition append_missing (cur new : list (list E)) : list (list E) :=
  foldl (λ cur es, if decide (es ∈ cur) then cur else cur ++ [es]) cur new.

(** The body of [for vn in gi[0]]. *)
Definition fold_signature (gi0 : list (string * list (list E)))
    (subgraphs : list (string * list (list E))) (vn : string) : list (string * list (list E)) :=
  let new := default [] (Dict.get vn gi0) in
  match Dict.get vn subgraphs with
  | None => Dict.set vn new subgraphs
  | Some cur => Dict.set vn (append_missing cur new) subgraphs
  end.

(** Folding one batch of mappings into the accumulator. *)
Definition fold_batch (mappings : list M)
    (subgraphs : list (string * list (list E))) : list (string * list (list E)) :=
  let gi0 := graph_info mappings in
  foldl (fold_signature gi0) subgraphs (Dict.keys gi0).

Definition brace : Ascii.ascii := Ascii.ascii_of_nat 123.

(** The loop over the lines of the matcher output, with the batch size as a
    parameter. *)
Fixpoint read_lines (size : nat) (lines : list string) (mappings : list M)
    (subgraphs : list (string * list (list E)))
    : res (list M * list (string * list (list E))) :=
  match lines with
  | [] => Ok (mappings, subgraphs)
  | line :: rest =>
      match line with
      | EmptyString => Raise IndexError
      | String c _ =>
          mappings ← (if decide (c = brace)
                      then m ← eval line; Ok (mappings ++ [m])
                      else Ok mappings);
          if decide (length mappings = size)
          then read_lines size rest [] (fold_batch mappings subgraphs)
          else read_lines size rest mappings subgraphs
      end
  end.

Definition accumulate (size : nat) (lines : list string) : res (list (string * list (list E))) :=
  ms ← read_lines size lines [] [];
  Ok (if decide (0 < length ms.1)%nat then fold_batch ms.1 ms.2 else ms.2).




End merge.

End Catalog.

(** ** Example data *)

Module Examples.
Import Mass Store Fragment Network Catalog.
Local Open Scope string_scope.

(** A fragment record and element table for a hexose, and the row the
    population loop builds from them. *)
Definition hexose_lib : lib_dict :=
  {| lib_smiles := "OCC1OC(O)C(O)C(O)C1O";
     lib_mol := {| atoms := []; bonds := [] |};
     lib_bond_types := [];
     lib_degree_atoms := [];
     lib_valence := 0;
     lib_atoms_available := 0;
     lib_dummies := [] |}.

Definition hexose_els : list (string * Z) :=
  [("C", 6); ("H", 12); ("N", 0); ("O", 6); ("P", 0); ("S", 0); ("*", 0)].

Definition hexose_mass : Qc := flt 180063388 6.

Definition hexose : substructure :=
  sub_smi_dict "OCC1OC(O)C(O)C(O)C1O" hexose_mass hexose_els hexose_lib "pkl-hexose".

Definition hexose_ec : ec := (6, 12, 0, 6, 0, 0).


Definition ethanol_els : list (string * Z) :=
  [("C", 2); ("H", 6); ("N", 0); ("O", 1); ("P", 0); ("S", 0); ("*", 0)].

Definition ethanol : substructure :=
  sub_smi_dict "CCO" (flt 46041865 6) ethanol_els hexose_lib "pkl-ethanol".

(** A row whose mass, 107.2134, is the decimal upper end of the window of
    125 ppm around 107.2. *)
Definition edge_row : substructure :=
  sub_smi_dict "edge" (flt 1072134 4) hexose_els hexose_lib "pkl-edge".

Definition compound_row (id : string) : compound :=
  {| hmdbid := id; c_exact_mass := hexose_mass; formula := "C6H12O6";
     c_C := 6; c_H := 12; c_N := 0; c_O := 6; c_P := 0; c_S := 0;
     c_smiles := "OCC1OC(O)C(O)C(O)C1O";
     smiles_rdkit := "OCC1OC(O)C(O)C(O)C1O";
     smiles_rdkit_kek := "OCC1OC(O)C(O)C(O)C1O" |}.

Definition two_compounds : db :=
  {| compounds := [compound_row "HMDB0000001"; compound_row "HMDB0000002"];
     substructures := [];
     hmdbid_substructures := [] |}.

(** A small stand-in for the toolkit. An atom is aromatic when it lies on
    an aromatic bond, and it is taken to lie in an aromatic ring when two
    of its aromatic bonds lead to atoms that are no wildcards.
    [Kekulize], which leaves the aromatic flags as they are, fails on the
    rings only: here, when the aromatic bonds between atoms form rings
    with an odd number of bonds. [MolToSmiles] with [kekuleSmiles=True]
    raises on an aromatic atom outside a ring and prints a molecule as its
    atom symbols otherwise, when these hold no quotation mark. No hydrogens
    are added, a fragment record
    pickles to its SMILES text, and each compound is cut at its first and
    at its second bond. *)
Definition is_aromatic (b : bond) : Prop := bond_type b = dec 15 1.

Definition ring_bonds (m : mol) : list bond :=
  filter (λ b, is_aromatic b ∧ GetSymbol m (begin_atom b) ≠ wildcard
               ∧ GetSymbol m (end_atom b) ≠ wildcard) (bonds m).

Definition ring_degree (m : mol) (i : nat) : nat :=
  length (filter (λ b, begin_atom b = i ∨ end_atom b = i) (ring_bonds m)).

Definition aromatic_atoms (m : mol) : list nat :=
  filter (λ i, GetSymbol m i ≠ wildcard
               ∧ Exists (λ b, is_aromatic b ∧ (begin_atom b = i ∨ end_atom b = i)) (bonds m))
         (seq 0 (GetNumAtoms m)).

Definition toy_Kekulize (m : mol) : option mol :=
  if decide (Nat.odd (length (ring_bonds m)) = true
             ∧ Forall (λ i, ring_degree m i = 2%nat) (aromatic_atoms m))
  then None else Some m.

Definition toy_MolToSmiles (m : mol) : res string :=
  if decide (Exists (λ i, (ring_degree m i < 2)%nat) (aromatic_atoms m))
  then Raise ToolkitError
  else if decide (Splice.verbatim Splice.quotation_mark (String.concat EmptyString (atoms m)))
  then Ok (String.concat EmptyString (atoms m))
  else Raise ToolkitError.

Definition toy_AddHs (m : mol) : mol := m.

Definition toy_dumps (l : lib_dict) : string := lib_smiles l.

Definition toy_get_sgs (rd : record_dict) : list (list (list nat)) := [[[0%nat]; [1%nat]]].

Definition single (x y : nat) : bond :=
  {| begin_atom := x; end_atom := y; bond_type := dec 10 1 |}.


(** A chain C-C-C-O. *)
Definition chain : mol :=
  {| atoms := ["C"; "C"; "C"; "O"]; bonds := [single 0 1; single 1 2; single 2 3] |}.




(** A four-ring: cutting out one bond leaves two wildcards bonded to each
    other. *)
Definition ring : mol :=
  {| atoms := ["C"; "C"; "C"; "C"];
     bonds := [single 0 1; single 1 2; single 2 3; single 3 0] |}.

Definition chain_record : record_dict :=
  {| rd_compound := compound_row "HMDB0000001"; rd_mol := chain |}.



Definition ring_record : record_dict :=
  {| rd_compound := compound_row "HMDB0000003"; rd_mol := ring |}.

(** A compound whose identifier holds two quotation marks in a row. *)
Definition quoted_id : string :=
  String.append "a" (String Splice.quotation_mark (String Splice.quotation_mark "b")).

Definition quoted_record : record_dict :=
  {| rd_compound := compound_row quoted_id; rd_mol := chain |}.

(** A store whose compound has an apostrophe in its identifier. *)
Definition apostrophe_store : db :=
  {| compounds := [compound_row "O'X"];
     substructures := [];
     hmdbid_substructures := [("O'X", "CC"); ("O'X", "CO")] |}.

(** One compound linked to three substructures. *)
Definition one_parent : db :=
  {| compounds := [compound_row "HMDB0000001"];
     substructures := [];
     hmdbid_substructures :=
       [("HMDB0000001", "CC"); ("HMDB0000001", "CO"); ("HMDB0000001", "CN")] |}.

(** A stand-in for the matcher output and for [graph_info]: a line that
    ends with a closing brace is read as the one-element sequence of its
    length, any other line is refused, and a batch is grouped under one
    signature, each entry once. *)
Definition closing_brace : Ascii.ascii := Ascii.ascii_of_nat 125.

Definition toy_eval (line : string) : res (list nat) :=
  if decide (String.get (String.length line - 1) line = Some closing_brace)
  then Ok [String.length line]
  else Raise SyntaxError.

Definition toy_graph_info (mappings : list (list nat)) : list (string * list (list nat)) :=
  match mappings with
  | [] => []
  | _ => [("[(1, 1)]", remove_dups mappings)]
  end.


End Examples.

(** ** Bond subsets ([subset_sgs_sizes], [get_substructure_bond_idx]) *)

Module Subgraphs.
Import Fragment.

(** [n_min <= len(bonds) <= n_max] *)
Definition size_ok (n_min n_max : Z) (bonds : list nat) : Prop :=
  n_min ≤ Z.of_nat (length bonds) ≤ n_max.

Global Instance size_ok_dec n_min n_max bonds : Decision (size_ok n_min n_max bonds).
Proof. unfold size_ok. apply _. Defined.

(** The inner loop of [subset_sgs_sizes]. *)
Definition edge_idxs_new_of (n_min n_max : Z) (edge_idxs : list (list nat)) : list (list nat) :=
  foldl (λ new bonds, if decide (size_ok n_min n_max bonds) then new ++ [bonds] else new)
        [] edge_idxs.

Definition subset_sgs_sizes (sgs : list (list (list nat))) (n_min n_max : Z)
    : list (list (list nat)) :=
  foldl (λ sgs_new edge_idxs,
           let edge_idxs_new := edge_idxs_new_of n_min n_max edge_idxs in
           if decide (0 < length edge_idxs_new)%nat
           then sgs_new ++ [edge_idxs_new] else sgs_new)
        [] sgs.

(** [atom.GetBonds()], as pairs of a bond index and the bond. *)
Definition GetBonds (m : mol) (i : nat) : list (nat * bond) :=
  filter (λ jb, begin_atom jb.2 = i ∨ end_atom jb.2 = i)
         (imap (λ j b, (j, b)) (bonds m)).

(** The body of the loop over the bonds of one atom. *)
Definition add_bond (atom_idx : list nat) (bond_idx : list nat) (jb : nat * bond) : list nat :=
  if decide (begin_atom jb.2 ∈ atom_idx ∧ end_atom jb.2 ∈ atom_idx)
  then (if decide (jb.1 ∉ bond_idx) then bond_idx ++ [jb.1] else bond_idx)
  else bond_idx.

(** The loop over the atoms of [ref_mol] for a match [atom_idx]. *)
Definition matched_bonds (ref_mol : mol) (atom_idx : list nat) : list nat :=
  foldl (λ bond_idx i,
           if decide (i ∈ atom_idx)
           then foldl (add_bond atom_idx) bond_idx (GetBonds ref_mol i)
           else bond_idx)
        [] (seq 0 (GetNumAtoms ref_mol)).

Section matching.
(** [GetSubstructMatch ref prb] is [None] when [ref.HasSubstructMatch(prb)]
    is false and the tuple of matched atoms of [ref] otherwise. *)
Variable GetSubstructMatch : mol → mol → option (list nat).

Definition get_substructure_bond_idx (prb_mol ref_mol : mol) : option (list nat) :=
  match GetSubstructMatch ref_mol prb_mol with
  | Some atom_idx => Some (matched_bonds ref_mol atom_idx)
  | None => None
  end.

End matching.

End Subgraphs.

(** ** The catalog table ([k_configs]) and statements about trees *)

Module Configs.
Import Catalog.

(** The two columns of table [subgraphs] that [k_configs] reads. *)
Record subgraph_row : Type := {
  id_pkl : Z;
  nodes_valences : string }.

(** [configs[str(record[1])] = record[0]] for every row. *)
Definition k_configs (records : list subgraph_row) : list (string * Z) :=
  foldl (λ configs record, Dict.set (nodes_valences record) (id_pkl record) configs)
        [] records.

(** [line[0] == "{"] on a line that is not empty. *)
Definition is_record (line : string) : Prop :=
  match line with
  | String c _ => c = brace
  | EmptyString => False
  end.

Global Instance is_record_dec line : Decision (is_record line).
Proof. destruct line; simpl; apply _. Defined.

Section outcome.
Context {M : Type}.
Variable eval : string → res M.

(** The loop gets past [line]: [line[0]] exists, and if the line is a
    record, [eval] returns its mapping. *)
Definition passes (line : string) : Prop :=
  line ≠ EmptyString ∧ (is_record line → ∃ m, eval line = Ok m).

(** The loop leaves at [line] with the exception [e]: [line[0]] raises
    [IndexError] on the empty line, and [eval] raises [e] on a record. *)
Definition stops (line : string) (e : exn) : Prop :=
  (line = EmptyString ∧ e = IndexError) ∨ (is_record line ∧ eval line = Raise e).

End outcome.

Section walks.
Context {E : Type} `{EqDecision E}.

(** [fr] can be followed from the root of [t]. *)
Fixpoint walks (fr : list E) (t : tree E) : Prop :=
  match fr with
  | [] => True
  | e :: fr' =>
      match Dict.get e (children t) with
      | Some s => walks fr' s
      | None => False
      end
  end.

End walks.

Section merged.
Context {E : Type} `{EqDecision E}.

(** The entry of [vn] once the body of [for vn in gi[0]] has run for it. *)
Definition merged (gi sg : list (string * list (list E))) (vn : string) : list (list E) :=
  match Dict.get vn sg with
  | None => default [] (Dict.get vn gi)
  | Some cur => append_missing cur (default [] (Dict.get vn gi))
  end.

End merged.

Section received.
Context {M E : Type} `{EqDecision E}.
Variable graph_info : list M → list (string * list (list E)).

(** [l] is a list [first] that [graph_info] returned for the signature
    [vn], as it was received, followed by entries that are not in [first],
    each once and each from a list that [graph_info] returned for [vn]. *)
Definition first_then_new (vn : string) (l : list (list E)) : Prop :=
  ∃ (ms : list M) (first extra : list (list E)),
    Dict.get vn (graph_info ms) = Some first
    ∧ l = first ++ extra
    ∧ NoDup extra
    ∧ ∀ es, es ∈ extra →
        (es ∉ first) ∧ (∃ ms', es ∈ default [] (Dict.get vn (graph_info ms'))).

End received.

End Configs.

(** ** Statements about stores *)

Module Population.
Import Store.


(** Every link names a compound and a substructure of the store. *)
Definition links_resolve (d : db) : Prop :=
  ∀ id smi, (id, smi) ∈ hmdbid_substructures d →
    id ∈ hmdbid <$> compounds d ∧ smi ∈ smiles <$> substructures d.

(** [d2] holds every key of [d1]. *)
Definition keys_within (d1 d2 : db) : Prop :=
  (∀ id, id ∈ hmdbid <$> compounds d1 → id ∈ hmdbid <$> compounds d2)
  ∧ (∀ smi, smi ∈ smiles <$> substructures d1 → smi ∈ smiles <$> substructures d2)
  ∧ (∀ l, l ∈ hmdbid_substructures d1 → l ∈ hmdbid_substructures d2).

(** [d2] is [d1] with rows added at the end of its tables. *)
Definition extends (d1 d2 : db) : Prop :=
  compounds d1 `prefix_of` compounds d2
  ∧ substructures d1 `prefix_of` substructures d2
  ∧ hmdbid_substructures d1 `prefix_of` hmdbid_substructures d2.

End Population.

(** ** More example data *)

Module MoreExamples.
Import Mass Store Fragment Network Catalog Examples Configs.
Local Open Scope string_scope.

(** A stand-in for the matcher of the toolkit: a probe matches the first
    atoms of the reference when it has no more atoms than the reference. *)
Definition toy_GetSubstructMatch (ref_mol prb_mol : mol) : option (list nat) :=
  if decide (length (atoms prb_mol) ≤ length (atoms ref_mol))%nat
  then Some (seq 0 (length (atoms prb_mol))) else None.

Definition ethyl : mol := {| atoms := ["C"; "C"]; bonds := [single 0 1] |}.

(** Two compounds: the first linked to CC and CO, the second to CC, CO
    and CN. *)
Definition two_parents : db :=
  {| compounds := [compound_row "HMDB0000001"; compound_row "HMDB0000002"];
     substructures := [];
     hmdbid_substructures :=
       [("HMDB0000001", "CC"); ("HMDB0000001", "CO");
        ("HMDB0000002", "CC"); ("HMDB0000002", "CO"); ("HMDB0000002", "CN")] |}.

End MoreExamples.

(** ** Statements about networks *)

Module Cooccurrence.
Import Store Network.

(** The weight of the edge between [a] and [b], 0 when there is none. *)
Definition wt (g : graph) (a b : string) : Z :=
  match edge_weight a b g with
  | Some (Some w) => w
  | _ => 0
  end.

(** The number of compounds of [unique_hmdbid] linked to both [a] and [b]
    by rows that passed the filter. *)
Definition shared (d : db) (min_node_weight : Z) (a b : string) : Z :=
  Z.of_nat (length (filter (λ x, (x, a) ∈ filtered_links d min_node_weight
                                 ∧ (x, b) ∈ filtered_links d min_node_weight)
                           (unique_hmdbid d))).

(** A graph whose adjacency has each node once and only nodes of the
    graph, is the same from both ends of an edge, and gives every edge a
    positive weight. *)
Record weighted (g : graph) : Prop := {
  weighted_keys : NoDup (Dict.keys (adj g));
  weighted_nodes : ∀ n, Dict.get n (node g) = None → Dict.get n (adj g) = None;
  weighted_sym : ∀ a b, edge_weight a b g = edge_weight b a g;
  weighted_pos : ∀ a b w, edge_weight a b g = Some w → ∃ z, w = Some z ∧ 0 < z }.

End Cooccurrence.

(** ** Statements about networks with parent nodes *)

Module Linkage.
Import Store Network Cooccurrence.

(** An adjacency in which every node, and every neighbour of a node, is
    listed once. *)
Definition adj_ok (A : list (string * list (string * option Z))) : Prop :=
  NoDup (Dict.keys A)
  ∧ ∀ a nbrs, Dict.get a A = Some nbrs → NoDup (Dict.keys nbrs).

(** A graph as [networkx] keeps it: the same nodes in [node] and in
    [adj], each once, and every edge reached from both ends. *)
Record consistent (g : graph) : Prop := {
  consistent_node : NoDup (Dict.keys (node g));
  consistent_adj : adj_ok (adj g);
  consistent_nodes : ∀ n, Dict.get n (node g) = None ↔ Dict.get n (adj g) = None;
  consistent_sym : ∀ a b, edge_weight a b g = edge_weight b a g }.

(** No edge of the graph carries a weight. *)
Definition plain (g : graph) : Prop :=
  ∀ a b w, edge_weight a b g = Some w → w = None.

(** Every edge between two nodes of [l] carries a positive weight. *)
Definition positive (l : list string) (g : graph) : Prop :=
  ∀ a b w, a ∈ l → b ∈ l → edge_weight a b g = Some w → ∃ z, w = Some z ∧ 0 < z.

(** The number of identifiers of [ids] linked by [fl] to both [a] and
    [b]. *)
Definition common (fl : list (string * string)) (ids : list string) (a b : string) : Z :=
  Z.of_nat (length (filter (λ x, (x, a) ∈ fl ∧ (x, b) ∈ fl) ids)).

(** The edges while the parents are being replaced, [done] being the
    parents replaced so far: two substructures are joined with the number
    of parents replaced that link both, counted once on a self-loop and
    twice otherwise; a link whose parent is not yet replaced is an edge
    without weight. *)
Definition staged (fl : list (string * string)) (done : list string) (a b : string)
    : option (option Z) :=
  if decide (a ∈ fl.*2 ∧ b ∈ fl.*2) then
    if decide (0 < common fl done a b)
    then Some (Some ((if decide (a = b) then 1 else 2) * common fl done a b))
    else None
  else if decide (((a, b) ∈ fl ∧ a ∉ done) ∨ ((b, a) ∈ fl ∧ b ∉ done))
       then Some None else None.

End Linkage.

(** ** The rows and files of the catalog ([create_isomorphism_database],
    [isomorphism_graphs]) *)

Module Emission.
Import Catalog.

Inductive sqlite_error : Set :=
  | IntegrityError.

(** A row of table [subgraphs]. *)
Record catalog_row : Type := {
  row_id_pkl : Z;
  row_n_graphs : Z;
  row_graph6 : string;
  row_k : Z;
  row_k_partite : string;
  row_k_valences : string;
  row_nodes_valences : string;
  row_n_nodes : Z;
  row_n_edges : Z }.

(** [PRIMARY KEY (graph6, k_partite, nodes_valences)] *)
Definition row_key (r : catalog_row) : string * string * string :=
  (row_graph6 r, row_k_partite r, row_nodes_valences r).

(** [INSERT INTO subgraphs ... values (...)] *)
Definition insert_row (r : catalog_row) (table : list catalog_row)
    : sqlite_error + list catalog_row :=
  if decide (row_key r ∈ row_key <$> table) then inl IntegrityError
  else inr (table ++ [r]).

Section emission.
Context {E : Type} `{EqDecision E}.

(** The counter [id_pkl], table [subgraphs], and the files
    [<id_pkl>.pkl] of [pkls_out], each holding a pickled tree. *)
Record catalog : Type := {
  cat_id_pkl : Z;
  cat_table : list catalog_row;
  cat_pkls : list (Z * tree E) }.

(** What is fixed during one round: [line_geng], [len(p)], [str(p)],
    the numbers of nodes and edges of [sG], and the text [str(vt)]
    computed from a signature, [eval(vn)] raising nothing. *)
Variable graph6 : string.
Variable k : Z.
Variable k_partite : string.
Variable n_nodes n_edges : Z.
Variable k_valences : string → string.

(** The body of [for vn in subgraphs]. *)
Definition emit_signature (c : catalog) (e : string * list (list E))
    : sqlite_error + catalog :=
  let root := build e.2 in
  let id := cat_id_pkl c + 1 in
  match insert_row {| row_id_pkl := id;
                      row_n_graphs := Z.of_nat (length e.2);
                      row_graph6 := graph6;
                      row_k := k;
                      row_k_partite := k_partite;
                      row_k_valences := k_valences e.1;
                      row_nodes_valences := e.1;
                      row_n_nodes := n_nodes;
                      row_n_edges := n_edges |} (cat_table c) with
  | inl err => inl err
  | inr table =>
      inr {| cat_id_pkl := id; cat_table := table;
             cat_pkls := Dict.set id root (cat_pkls c) |}
  end.

Fixpoint emit (subgraphs : list (string * list (list E))) (c : catalog)
    : sqlite_error + catalog :=
  match subgraphs with
  | [] => inr c
  | e :: rest =>
      match emit_signature c e with
      | inl err => inl err
      | inr c' => emit rest c'
      end
  end.

(** [isomorphism_graphs], as the list of what it yields; [None] when
    there is no file for the identifier. *)
Definition isomorphism_graphs (c : catalog) (id_pkl : Z) : option (list (list E)) :=
  match Dict.get id_pkl (cat_pkls c) with
  | Some nGcomplete => Some (paths nGcomplete [])
  | None => None
  end.

(** Every row has its own identifier, not above the counter, and the
    file of a row yields as many graphs as the row says, none twice. *)
Definition catalog_ok (c : catalog) : Prop :=
  NoDup (row_id_pkl <$> cat_table c)
  ∧ ∀ r, r ∈ cat_table c →
      row_id_pkl r ≤ cat_id_pkl c
      ∧ ∃ graphs, isomorphism_graphs c (row_id_pkl r) = Some graphs
                  ∧ NoDup graphs
                  ∧ Z.of_nat (length graphs) = row_n_graphs r.

(** The entries under a signature are not empty, are listed once and have
    one length. *)
Definition entries_ok (e : string * list (list E)) : Prop :=
  e.2 ≠ [] ∧ NoDup e.2 ∧ ∃ n, Forall (λ fr, length fr = n) e.2.

End emission.

End Emission.

(** ** Example data for the catalog *)

Module CatalogExamples.
Import Catalog Emission.
Local Open Scope string_scope.

Definition empty_catalog : catalog (E := nat) :=
  {| cat_id_pkl := 0; cat_table := []; cat_pkls := [] |}.

(** A stand-in for the text [str(vt)] of a signature. *)
Definition toy_k_valences (vn : string) : string := vn.

(** The accumulator of a round with two signatures. *)
Definition two_signatures : list (string * list (list nat)) :=
  [("[(1, 1)]", [[1; 2]; [1; 3]]%nat); ("[(2,)]", [[4; 5]]%nat)].

End CatalogExamples.

(** ** Ranking the true structure among the candidates ([test_build] of
    [msn_build.py]) *)

Module Ranking.

(** [d[k] += 1], and [d[k] = 1] on [KeyError]. *)
Definition bump {K : Type} `{EqDecision K} (k : K) (d : list (K * Z)) : list (K * Z) :=
  match Dict.get k d with
  | Some v => Dict.set k (v + 1) d
  | None => Dict.set k 1 d
  end.

(** [d] counts the members of [ks]. *)
Definition counts {K : Type} `{EqDecision K} (d : list (K * Z)) (ks : list K) : Prop :=
  NoDup (Dict.keys d)
  ∧ ∀ k, Dict.get k d
         = match length (filter (λ x, x = k) ks) with
           | O => None
           | S n => Some (Z.of_nat (S n))
           end.

(** [max(values)] for a list that is not empty. *)
Definition py_max (v : Z) (vs : list Z) : Z := foldl Z.max v vs.

(** The entries of the list [test_build] returns that it computes; the
    other entries are its arguments as text. *)
Record ranks : Type := {
  n_fragments : Z;
  recurrence : Z;
  better_candidates : Z;
  max_recurrence : Z;
  num_struct : Z }.

Section ranking.
(** [str.strip] *)
Variable strip : string → string.

(** The loop over the lines of one candidate file. *)
Definition read_smis (pre_reccurence : list (string * Z)) (smis : list string)
    : list (string * Z) :=
  foldl (λ pre line,
           if decide (0 < String.length line)%nat then bump (strip line) pre else pre)
        pre_reccurence smis.

(** [pre_reccurence] after the loop over the fragment masses; [files]
    holds, for each fragment mass, the lines of its candidate file. *)
Definition pre_reccurence_of (files : list (list string)) : list (string * Z) :=
  foldl read_smis [] files.

(** [num_recurrence]: how many structures have each count. *)
Definition num_recurrence_of (pre_reccurence : list (string * Z)) : list (Z * Z) :=
  foldl (λ num_recurrence e, bump e.2 num_recurrence) [] pre_reccurence.

Definition better_candidates_of (pre_reccurence : list (string * Z))
    (num_recurrence : list (Z * Z)) (mol_smi : string) : Z :=
  match Dict.get mol_smi pre_reccurence with
  | None => foldl (λ bc e, bc + e.2) 0 num_recurrence
  | Some c => foldl (λ bc e, if decide (c ≤ e.1) then bc + e.2 else bc) 0 num_recurrence
  end.

Definition max_recurrence_of (pre_reccurence : list (string * Z)) : Z :=
  match Dict.values pre_reccurence with
  | v :: vs => py_max v vs
  | [] => 0
  end.

Definition test_build (files : list (list string)) (mol_smi : string) : ranks :=
  let pre_reccurence := pre_reccurence_of files in
  let num_recurrence := num_recurrence_of pre_reccurence in
  {| n_fragments := Z.of_nat (length files);
     recurrence := default 0 (Dict.get mol_smi pre_reccurence);
     better_candidates := better_candidates_of pre_reccurence num_recurrence mol_smi;
     max_recurrence := max_recurrence_of pre_reccurence;
     num_struct := Z.of_nat (length (Dict.keys pre_reccurence)) |}.

(** The structures read from the files, one for each line that is not
    empty, and the number of times a structure was read. *)
Definition structures (files : list (list string)) : list string :=
  strip <$> filter (λ line, 0 < String.length line)%nat (concat files).

Definition occurrences (files : list (list string)) (smi : string) : Z :=
  Z.of_nat (length (filter (λ s, s = smi) (structures files))).

End ranking.

End Ranking.

Module RankingExamples.
Local Open Scope string_scope.

(** A stand-in for [str.strip] on lines without white space around
    them. *)
Definition toy_strip (line : string) : string := line.

(** The candidate files of three fragment masses. *)
Definition toy_files : list (list string) := [["CCO"; "CCN"; "CCC"]; ["CCO"; "CCN"]; ["CCO"]].

End RankingExamples.

(** ** Counting the structures of an exhaustive build ([run_ind_exh_exp]
    of [msn_build.py]) *)

Module Exhaustive.

(** The entries of a row of [results] that [run_ind_exh_exp] computes
    from the candidate file. *)
Record structure_counts : Type := {
  reconstructed : bool;
  total_structures : Z;
  uniq_structures : Z }.

Section exhaustive.
(** [str.strip] *)
Variable strip : string → string.

(** [enumerate(smi)] *)
Definition enumerate (smi : list string) : list (Z * string) :=
  imap (λ k l, (Z.of_nat k, l)) smi.

(** [for i, l in enumerate(smi): pass], from the value [i] has before
    the loop. *)
Definition enumerate_last (i : Z) (smi : list string) : Z :=
  foldl (λ _ il, il.1) i (enumerate smi).

(** The second loop: [i] keeps the value the first loop left when the
    file has no line. *)
Definition scan (i : Z) (mol_smi : string) (smi : list string) : Z * bool :=
  foldl (λ (ir : Z * bool) il,
           (il.1, if decide (strip il.2 = mol_smi) then true else ir.2))
        (i, false) (enumerate smi).

(** [temp_structures] holds the lines of the candidate file as [build]
    leaves it and [uniq] its lines after [get_uniq_subs]. *)
Definition count_structures (temp_structures uniq : list string) (mol_smi : string)
    : structure_counts :=
  let i := enumerate_last 0 temp_structures in
  let total_structures := i + 1 in
  let ir := scan i mol_smi uniq in
  {| reconstructed := ir.2;
     total_structures := total_structures;
     uniq_structures := ir.1 + 1 |}.

End exhaustive.

End Exhaustive.

(** ** The peaks kept for a spectrum ([MspDatabase.get_fragments] of
    [msn_aux.py]) *)

Module Peaks.

Section sorted.
Context {A : Type}.
Variable key : A → Qc.

(** [x] goes after every element whose key is not above its own. *)
Fixpoint insert_sorted (x : A) (l : list A) : list A :=
  match l with
  | [] => [x]
  | y :: l' =>
      if decide (key x < key y)%Qc then x :: y :: l' else y :: insert_sorted x l'
  end.

(** [sorted(l, key=key)]: ascending, and stable. *)
Definition sorted (l : list A) : list A :=
  foldl (λ acc x, insert_sorted x acc) [] l.

End sorted.

(** [l[-n:]] for a positive [n]. *)
Definition last_n {A} (n : nat) (l : list A) : list A :=
  drop (length l - n) l.

(** [intensity[i]] for an index of [range(len(intensity))]. *)
Definition at_index (intensity : list Qc) (i : nat) : Qc :=
  default (Q2Qc 0) (intensity !! i).

Definition top_indices (intensity : list Qc) : list nat :=
  last_n 15 (sorted (at_index intensity) (seq 0 (length intensity))).

(** [[x for i, x in enumerate(l) if i in indices]] *)
Definition keep {A} (indices : list nat) (l : list A) : list A :=
  (filter (λ ix, ix.1 ∈ indices) (imap (λ i x, (i, x)) l)).*2.

(** The lists [mz] and [intensity] a spectrum is yielded with; [None]
    when the spectrum has no peak and is skipped. *)
Definition top_peaks (mz intensity : list Qc) : option (list Qc * list Qc) :=
  let indices := top_indices intensity in
  let mz' := keep indices mz in
  let intensity' := keep indices intensity in
  if decide (length intensity' = 0%nat) then None else Some (mz', intensity').

(** The rows [(mz, i)] fetched for a spectrum are split into the two
    lists before the peaks are chosen. *)
Definition get_fragments_peaks (spectra : list (Qc * Qc)) : option (list Qc * list Qc) :=
  top_peaks (spectra.*1) (spectra.*2).

End Peaks.

(** * Properties *)

Lemma res_bind_Ok {A B} (m : res A) (k : A → res B) b :
  res_bind m k = Ok b ↔ ∃ a, m = Ok a ∧ k a = Ok b.
Proof.
  destruct m as [a|e]; simpl; split.
  - intros H. by exists a.
  - by intros (a' & [= ->] & H).
  - done.
  - by intros (a' & ? & _).
Qed.

Lemma res_mbind_Ok {A B} (m : res A) (k : A → res B) b :
  (m ≫= k) = Ok b ↔ ∃ a, m = Ok a ∧ k a = Ok b.
Proof. apply res_bind_Ok. Qed.

(** ** Text spliced into a statement *)

Module SpliceFacts.
Import Splice.

Lemma dequote_length q n s s' :
  (String.length s ≤ n)%nat → dequote q s = Some s' →
  (String.length s' ≤ String.length s)%nat.
Proof.
  revert s s'. induction n as [|n IH]; intros s s' Hn.
  - destruct s; [|simpl in Hn; lia]. by intros [= <-].
  - destruct s as [|c s]; [by intros [= <-]|]. simpl in Hn. cbn [dequote].
    destruct (decide (c = q)) as [->|Hc].
    + destruct s as [|c' s]; [done|]. destruct (decide (c' = q)) as [->|]; [|done].
      destruct (dequote q s) as [s0|] eqn:Hs; [|done]. intros [= <-].
      simpl in Hn. apply IH in Hs; [|lia]. simpl. lia.
    + destruct (dequote q s) as [s0|] eqn:Hs; [|done]. intros [= <-].
      apply IH in Hs; [|lia]. simpl. lia.
Qed.

(** A text is read back as it is exactly when it holds no [q]. *)
Lemma dequote_same q s : dequote q s = Some s ↔ occurs q s = false.
Proof.
  induction s as [|c s IH]; [done|]. cbn [dequote occurs].
  destruct (decide (c = q)) as [->|Hc].
  - rewrite bool_decide_true by done. simpl. split; [|done].
    destruct s as [|c' s]; [done|]. destruct (decide (c' = q)) as [->|]; [|done].
    destruct (dequote q s) as [s0|] eqn:Hs; [|done]. intros [= Heq].
    apply (dequote_length q (String.length s)) in Hs; [|done].
    rewrite Heq in Hs. simpl in Hs. lia.
  - rewrite bool_decide_false by done. simpl. rewrite <- IH.
    destruct (dequote q s) as [s0|]; simpl; [|done].
    split; [by intros [= ->]|by intros [= ->]].
Qed.

Lemma verbatim_spec q s :
  verbatim q s ↔ occurs nul s = false ∧ occurs q s = false.
Proof.
  unfold verbatim. rewrite dequote_same.
  assert (has_nul s = occurs nul s) as -> by (induction s; simpl; congruence).
  done.
Qed.

(** An identifier with an apostrophe and one with a doubled quotation
    mark. *)
Lemma literal_examples :
  literal apostrophe "O'X"%string = Raise OperationalError
  ∧ literal quotation_mark
      (String.append "a" (String quotation_mark (String quotation_mark "b")))
    = Ok (String.append "a" (String quotation_mark "b"))
  ∧ literal apostrophe "HMDB0000001"%string = Ok "HMDB0000001"%string.
Proof. by vm_compute. Qed.

End SpliceFacts.

(** ** Rounding and binary64 arithmetic *)

Module MassFacts.
Import Mass.

(** *** Rounding to the nearest integer *)

Lemma round_half_even_spec (q : Q) :
  let z := round_half_even q in
  2 * Z.abs (Qnum q - z * Zpos (Qden q)) ≤ Zpos (Qden q)
  ∧ (2 * Z.abs (Qnum q - z * Zpos (Qden q)) = Zpos (Qden q) → Z.even z = true).
Proof.
  cbv zeta. unfold round_half_even.
  set (n := Qnum q). set (d := Zpos (Qden q)).
  assert (Hd : 0 < d) by done.
  pose proof (Z.div_mod n d ltac:(lia)) as Hdm.
  pose proof (Z.mod_pos_bound n d Hd) as Hr.
  set (fl := n `div` d) in *. set (r := n `mod` d) in *.
  destruct (Z.compare_spec (2 * r) d) as [Heq|Hlt|Hgt].
  - destruct (Z.even fl) eqn:Hev.
    + split; [lia|done].
    + split; [lia|]. intros _. by rewrite Z.add_1_r, Z.even_succ, <- Z.negb_even, Hev.
  - split; lia.
  - split; lia.
Qed.





(** [round_half_even q] is the integer nearest to [q], and the even one
    of the two when [q] lies halfway. *)
Lemma round_half_even_nearest (q : Q) :
  let z := round_half_even q in
  (Qabs (q - inject_Z z) <= 1 # 2)%Q
  ∧ ((Qabs (q - inject_Z z) == 1 # 2)%Q → Z.even z = true).
Proof.
  cbv zeta. destruct (round_half_even_spec q) as [Hz Hzt].
  set (z := round_half_even q) in *. destruct q as [n d]. cbn [Qnum Qden] in Hz, Hzt.
  assert (Hab : Qabs ((n # d) - inject_Z z) = (Z.abs (n - z * Zpos d) # d)).
  { unfold Qminus, Qplus, Qopp, inject_Z, Qabs. cbn [Qnum Qden].
    rewrite Pos.mul_1_r. f_equal. f_equal. lia. }
  rewrite Hab. split.
  - unfold Qle. cbn [Qnum Qden]. lia.
  - unfold Qeq. cbn [Qnum Qden]. intros Ht. apply Hzt. lia.
Qed.

(** *** Powers of two and the binary logarithm *)











(** *** Rounding to binary64 keeps the order *)







(** *** Floats *)




(** [round(x, ndigits)] is the float of the decimal nearest to [x]. *)
Lemma py_round_nearest (x : Qc) (ndigits : nat) :
  ∃ z : Z, nearest_decimal x ndigits z ∧ py_round x ndigits = float (dec z ndigits).
Proof.
  exists (round_half_even (this x * inject_Z (pow10 ndigits))). split; [|done].
  apply round_half_even_nearest.
Qed.

End MassFacts.

(** ** Dictionaries *)

Module DictFacts.
Section dict_facts.
Context {K V : Type} `{EqDecision K}.
Implicit Types (k : K) (v : V) (d : list (K * V)).

Lemma get_set_eq k v d : Dict.get k (Dict.set k v d) = Some v.
Proof.
  induction d as [|[k' v'] d IH]; simpl.
  - by rewrite decide_True.
  - destruct (decide (k = k')); simpl.
    + by rewrite decide_True.
    + by rewrite decide_False.
Qed.

Lemma get_set_ne k k' v d : k ≠ k' → Dict.get k' (Dict.set k v d) = Dict.get k' d.
Proof.
  intros Hne. induction d as [|[k0 v0] d IH]; simpl.
  - by rewrite decide_False.
  - destruct (decide (k = k0)) as [->|]; simpl.
    + by rewrite !decide_False.
    + by rewrite IH.
Qed.

Lemma get_None k d : Dict.get k d = None ↔ k ∉ Dict.keys d.
Proof.
  unfold Dict.keys. induction d as [|[k' v'] d IH]; simpl.
  - split; [intros _; apply not_elem_of_nil | done].
  - rewrite not_elem_of_cons, <- IH. clear IH.
    destruct (decide (k = k')); [|tauto].
    split; [done|]. intros []. congruence.
Qed.

Lemma elem_of_keys k d : k ∈ Dict.keys d ↔ is_Some (Dict.get k d).
Proof.
  rewrite <- not_eq_None_Some. split.
  - intros Hin Hnone. by apply get_None in Hnone.
  - intros Hsome. apply dec_stable. intros Hnin. by apply Hsome, get_None.
Qed.

Lemma get_Some_elem_of k v d : Dict.get k d = Some v → (k, v) ∈ d.
Proof.
  induction d as [|[k' v'] d IH]; simpl; [done|].
  destruct (decide (k = k')) as [->|].
  - intros [= ->]. left.
  - intros. right. auto.
Qed.

Lemma elem_of_get k v d : NoDup (Dict.keys d) → (k, v) ∈ d → Dict.get k d = Some v.
Proof.
  unfold Dict.keys. induction d as [|[k' v'] d IH]; simpl.
  - intros _ Hin. by apply elem_of_nil in Hin.
  - intros [Hk Hnd]%NoDup_cons [[= -> ->]|Hin]%elem_of_cons.
    + by rewrite decide_True.
    + rewrite decide_False; [by apply IH|].
      intros ->. apply Hk. by apply (list_elem_of_fmap_2 fst _ (k', v)).
Qed.

Lemma keys_set k v d :
  Dict.keys (Dict.set k v d)
  = match Dict.get k d with
    | Some _ => Dict.keys d
    | None => Dict.keys d ++ [k]
    end.
Proof.
  unfold Dict.keys. induction d as [|[k' v'] d IH]; simpl; [done|].
  destruct (decide (k = k')) as [->|]; csimpl; [done|].
  rewrite IH. by destruct (Dict.get k d).
Qed.

Lemma NoDup_keys_set k v d :
  NoDup (Dict.keys d) → NoDup (Dict.keys (Dict.set k v d)).
Proof.
  intros Hnd. rewrite keys_set. destruct (Dict.get k d) eqn:Hget; [done|].
  apply NoDup_app. split; [done|]. split; [|apply NoDup_singleton].
  intros x Hx ->%list_elem_of_singleton. by apply get_None in Hget.
Qed.

Lemma elem_of_set k v k' v' d :
  NoDup (Dict.keys d) →
  (k', v') ∈ Dict.set k v d ↔ (k' = k ∧ v' = v) ∨ (k' ≠ k ∧ (k', v') ∈ d).
Proof.
  intros Hnd. split.
  - intros Hin. apply elem_of_get in Hin; [|by apply NoDup_keys_set].
    destruct (decide (k' = k)) as [->|Hne].
    + rewrite get_set_eq in Hin. left. by injection Hin as ->.
    + rewrite get_set_ne in Hin by done. right. split; [done|].
      by apply get_Some_elem_of.
  - intros [[-> ->]|[Hne Hin]].
    + apply get_Some_elem_of, get_set_eq.
    + apply get_Some_elem_of. rewrite get_set_ne by done. by apply elem_of_get.
Qed.

End dict_facts.
End DictFacts.

(** ** The queries of the store *)

Module StoreFacts.
Import Mass Store Examples.

Lemma mass_statement_None target v :
  mass_statement target None v = true ↔ v = target.
Proof. simpl. apply bool_decide_eq_true. Qed.

Lemma mass_statement_Some target ppm v :
  mass_statement target (Some ppm) v = true ↔
  (fsub target (tolerance target ppm) < v ∧ v < fadd target (tolerance target ppm))%Qc.
Proof. simpl. rewrite andb_true_iff, !bool_decide_eq_true. tauto. Qed.

(** C1, as amended: with [ppm=None], [select_ecs] returns exactly the
    distinct element-count tuples of the substructures with a heavy-atom
    count in the given set whose tier value equals the target mass as it is
    passed (the target is not rounded); with a tolerance [T] it returns
    exactly those whose tier value lies strictly between the two bounds
    computed in binary64 arithmetic, [target - tolerance] and
    [target + tolerance] with [tolerance = (target / 1000000) * T], as long
    as the three results are binary64 values. *)
Theorem select_ecs_spec (subs : list substructure) (target : Qc)
    (heavy : list Z) (a : accuracy) (ppm : option Qc) :
  (∀ T, ppm = Some T → window_finite target T) →
  NoDup (select_ecs subs target heavy a ppm) ∧
  ∀ t : ec, t ∈ select_ecs subs target heavy a ppm ↔
    ∃ r, r ∈ subs ∧ heavy_atoms r ∈ heavy ∧ ec_of r = t ∧
      match ppm with
      | None => mass_column a r = target
      | Some T =>
          (fsub target (fmul (fdiv target million) T) < mass_column a r
           ∧ mass_column a r < fadd target (fmul (fdiv target million) T))%Qc
      end.
Proof.
  intros _. unfold select_ecs. split; [apply NoDup_remove_dups|].
  intros t. rewrite elem_of_remove_dups, list_elem_of_fmap.
  setoid_rewrite list_elem_of_filter.
  split.
  - intros (r & -> & [Hh Hm] & Hr). exists r. repeat split; try done.
    destruct ppm as [T|].
    + by apply mass_statement_Some.
    + by apply mass_statement_None.
  - intros (r & Hr & Hh & <- & Hm). exists r. repeat split; try done.
    destruct ppm as [T|].
    + by apply mass_statement_Some.
    + by apply mass_statement_None.
Qed.

(** C1, as stated, fails twice. A target of 180.063388 at the whole-number
    tier rounds to 180, the tier value of the hexose row, and yet the row's
    element counts are not returned. And with the target 180 and a
    tolerance of 1e-12 ppm the tier value 180 of the hexose row lies
    strictly inside [180 - 180 * 1e-12 / 1e6, 180 + 180 * 1e-12 / 1e6], and
    yet nothing is returned: both bounds are the float 180. *)
Lemma select_ecs_cex :
  ¬ (∀ t : ec, t ∈ select_ecs [hexose] hexose_mass [12] acc_1 None ↔
       ∃ r, r ∈ [hexose] ∧ heavy_atoms r ∈ [12] ∧ ec_of r = t
            ∧ mass_column acc_1 r = py_round hexose_mass (decimals acc_1))
  ∧ ¬ (∀ t : ec, t ∈ select_ecs [hexose] (dec 180 0) [12] acc_1 (Some (flt 1 12)) ↔
         ∃ r, r ∈ [hexose] ∧ heavy_atoms r ∈ [12] ∧ ec_of r = t
              ∧ (dec 180 0 - dec 180 0 * flt 1 12 / million < mass_column acc_1 r
                 ∧ mass_column acc_1 r < dec 180 0 + dec 180 0 * flt 1 12 / million)%Qc).
Proof.
  split.
  - intros H. destruct (H hexose_ec) as [_ Hback].
    assert (Hin : hexose_ec ∈ select_ecs [hexose] hexose_mass [12] acc_1 None).
    { apply Hback. exists hexose. repeat split.
      - apply list_elem_of_singleton. reflexivity.
      - apply list_elem_of_singleton. reflexivity. }
    vm_compute in Hin. by apply elem_of_nil in Hin.
  - intros H. destruct (H hexose_ec) as [_ Hback].
    assert (Hin : hexose_ec ∈ select_ecs [hexose] (dec 180 0) [12] acc_1 (Some (flt 1 12))).
    { apply Hback. exists hexose. repeat split.
      - apply list_elem_of_singleton. reflexivity.
      - apply list_elem_of_singleton. reflexivity. }
    vm_compute in Hin. by apply elem_of_nil in Hin.
Qed.

(** Witness: a window of 50 ppm around 180.06 at the fourth tier, which
    holds the tier value 180.0634 of the hexose row and not the one of the
    ethanol row. *)
Lemma select_ecs_spec_witness :
  window_finite (flt 18006 2) (flt 50 0)
  ∧ select_ecs [hexose; ethanol] (flt 18006 2) [3; 12] acc_0_0001 (Some (flt 50 0))
    = [hexose_ec]
  ∧ NoDup (select_ecs [hexose; ethanol] (flt 18006 2) [3; 12] acc_0_0001
             (Some (flt 50 0)))
  ∧ ∀ t : ec,
      t ∈ select_ecs [hexose; ethanol] (flt 18006 2) [3; 12] acc_0_0001
            (Some (flt 50 0)) ↔
      ∃ r, r ∈ [hexose; ethanol] ∧ heavy_atoms r ∈ [3; 12] ∧ ec_of r = t ∧
        (fsub (flt 18006 2) (fmul (fdiv (flt 18006 2) million) (flt 50 0))
           < mass_column acc_0_0001 r
         ∧ mass_column acc_0_0001 r
           < fadd (flt 18006 2) (fmul (fdiv (flt 18006 2) million) (flt 50 0)))%Qc.
Proof.
  assert (Hfin : window_finite (flt 18006 2) (flt 50 0)).
  { repeat split; vm_compute; reflexivity. }
  split; [exact Hfin|]. split; [vm_compute; reflexivity|].
  apply (select_ecs_spec [hexose; ethanol] (flt 18006 2) [3; 12] acc_0_0001
           (Some (flt 50 0))).
  intros T [= <-]. exact Hfin.
Defined.

(** The bounds are binary64 values. The window of 125 ppm around 107.2
    ends at the decimal 107.2134; the float sum of 107.2 and the tolerance
    lies above the float 107.2134, so the row with that mass is returned,
    although it is not strictly below the decimal bound. *)
Lemma select_ecs_window_edge :
  select_ecs [edge_row] (flt 1072 1) [12] acc_0_0001 (Some (flt 125 0)) = [hexose_ec]
  ∧ (dec 1072 1 + dec 1072 1 * dec 125 0 / dec 1000000 0 = dec 1072134 4)%Qc
  ∧ (mass_column acc_0_0001 edge_row
     < fadd (flt 1072 1) (fmul (fdiv (flt 1072 1) million) (flt 125 0)))%Qc.
Proof.
  split; [vm_compute; reflexivity|]. split.
  - apply (bool_decide_unpack _). vm_compute. exact I.
  - vm_compute. reflexivity.
Qed.

(** C5, as amended: for a non-empty candidate list, [select_mass_values]
    returns the sorted, duplicate-free list of the mass values at the
    requested tier over the substructures with valence at most the bound,
    heavy-atom count in the set, and whose whole-number tier value
    ([exact_mass__1], whatever tier is requested) is in the candidate
    list. *)
Theorem select_mass_values_spec (subs : list substructure) (a : accuracy)
    (heavy : list Z) (max_valence : Z) (m : Qc) (ms : list Qc) :
  let out := select_mass_values subs a heavy max_valence (Some (m :: ms)) in
  Sorted Qcle out ∧ NoDup out ∧
  ∀ v : Qc, v ∈ out ↔
    ∃ r, r ∈ subs ∧ valence r ≤ max_valence ∧ heavy_atoms r ∈ heavy
         ∧ exact_mass__1 r ∈ m :: ms ∧ mass_column a r = v.
Proof.
  unfold select_mass_values. cbv zeta. split; [|split].
  - apply Sorted_merge_sort. apply _.
  - rewrite merge_sort_Permutation. apply NoDup_remove_dups.
  - intros v. rewrite merge_sort_Permutation, elem_of_remove_dups, list_elem_of_fmap.
    setoid_rewrite list_elem_of_filter. unfold filter_mass.
    setoid_rewrite bool_decide_eq_true.
    split.
    + intros (r & -> & (Hv & Hh & Hm) & Hr). by exists r.
    + intros (r & Hr & Hv & Hh & Hm & <-). by exists r.
Qed.

(** C5, as stated, fails: at the two-decimal tier with the candidate list
    [[180.06]], the hexose row has the tier value 180.06 and meets the
    valence and heavy-atom conditions, and yet 180.06 is not returned. *)
Lemma select_mass_values_requested_tier_cex :
  ¬ (∀ v : Qc, v ∈ select_mass_values [hexose] acc_0_01 [12] 0 (Some [flt 18006 2]) ↔
       ∃ r, r ∈ [hexose] ∧ valence r ≤ 0 ∧ heavy_atoms r ∈ [12]
            ∧ mass_column acc_0_01 r ∈ [flt 18006 2] ∧ mass_column acc_0_01 r = v).
Proof.
  intros H. destruct (H (flt 18006 2)) as [_ Hback].
  assert (Hin : flt 18006 2 ∈ select_mass_values [hexose] acc_0_01 [12] 0 (Some [flt 18006 2])).
  { apply Hback. exists hexose. repeat split.
    - apply list_elem_of_singleton. reflexivity.
    - vm_compute. discriminate.
    - apply list_elem_of_singleton. reflexivity.
    - apply list_elem_of_singleton. vm_compute. reflexivity. }
  vm_compute in Hin. by apply elem_of_nil in Hin.
Qed.



Section select_sub_structures_facts.
Context {L : Type} (loads : string → L).




End select_sub_structures_facts.


(** [select_compounds] with one identifier (free of apostrophes) returns
    the rows with that identifier, and with no identifier every row. *)
Lemma select_compounds_one (d : db) (id : string) (rows : list compound) :
  select_compounds d [id] = Some rows →
  NoDup rows ∧ ∀ r, r ∈ rows ↔ r ∈ compounds d ∧ hmdbid r = id.
Proof.
  unfold select_compounds. rewrite bool_decide_true by (simpl; lia).
  cbn [String.concat]. destruct (has_apostrophe id); [done|]. intros [= <-].
  split; [apply NoDup_remove_dups|].
  intros r. rewrite elem_of_remove_dups, list_elem_of_filter. tauto.
Qed.

Lemma select_compounds_all (d : db) :
  ∃ rows, select_compounds d [] = Some rows
          ∧ NoDup rows ∧ ∀ r, r ∈ rows ↔ r ∈ compounds d.
Proof.
  exists (remove_dups (compounds d)). split; [done|].
  split; [apply NoDup_remove_dups|]. intros r. apply elem_of_remove_dups.
Qed.

(** What the code does with two identifiers or more: the identifiers are
    joined into one string literal, so the rows returned are those whose
    identifier is the joined text. *)
Lemma select_compounds_joined (d : db) (cpds : list string) (rows : list compound) :
  cpds ≠ [] →
  select_compounds d cpds = Some rows →
  ∀ r, r ∈ rows ↔ r ∈ compounds d ∧ hmdbid r = String.concat ", " cpds.
Proof.
  intros Hne. unfold select_compounds.
  rewrite bool_decide_true by (destruct cpds; [done|simpl; lia]).
  destruct (has_apostrophe _); [done|]. intros [= <-] r.
  rewrite elem_of_remove_dups, list_elem_of_filter. tauto.
Qed.

(** C4 at the failing input: both compounds of the store are asked for
    by identifier, each is a row of the store, and no row is returned. *)
Theorem select_compounds_two_ids :
  compound_row "HMDB0000001" ∈ compounds two_compounds
  ∧ compound_row "HMDB0000002" ∈ compounds two_compounds
  ∧ select_compounds two_compounds ["HMDB0000001"; "HMDB0000002"]%string = Some [].
Proof.
  split; [left|]. split; [right; left|]. vm_compute. reflexivity.
Qed.

End StoreFacts.

(** ** Fragment extraction and the population loop *)

Module FragmentFacts.
Import Mass Store Fragment Examples.

(** *** Counting open attachments *)

Lemma get_count_up_eq a d :
  Dict.get a (count_up a d) = Some (default 0 (Dict.get a d) + 1).
Proof.
  unfold count_up. destruct (Dict.get a d) as [v|] eqn:Hget; simpl;
    by rewrite DictFacts.get_set_eq.
Qed.

Lemma get_count_up_ne k a d : k ≠ a → Dict.get a (count_up k d) = Dict.get a d.
Proof.
  intros Hne. unfold count_up.
  destruct (Dict.get k d); by rewrite DictFacts.get_set_ne.
Qed.

Lemma NoDup_keys_count_up k d :
  NoDup (Dict.keys d) → NoDup (Dict.keys (count_up k d)).
Proof.
  intros Hnd. unfold count_up.
  destruct (Dict.get k d); by apply DictFacts.NoDup_keys_set.
Qed.

(** After a run of [count_up] the entry of [a] has grown by the number of
    times [a] was counted. *)
Lemma get_foldl_count_up ks d a :
  Dict.get a (foldl (λ d n, count_up n d) d ks)
  = match length (filter (λ x, x = a) ks) with
    | O => Dict.get a d
    | S n => Some (default 0 (Dict.get a d) + Z.of_nat (S n))
    end.
Proof.
  revert d. induction ks as [|k ks IH]; intros d; [done|].
  simpl foldl. rewrite IH. destruct (decide (k = a)) as [->|Hne].
  - rewrite filter_cons_True by done. simpl length.
    rewrite get_count_up_eq. simpl.
    destruct (length (filter (λ x, x = a) ks)); f_equal; lia.
  - rewrite filter_cons_False by done. by rewrite get_count_up_ne.
Qed.

Lemma NoDup_keys_foldl_count_up ks d :
  NoDup (Dict.keys d) → NoDup (Dict.keys (foldl (λ d n, count_up n d) d ks)).
Proof.
  revert d. induction ks as [|k ks IH]; intros d Hnd; [done|].
  simpl. by apply IH, NoDup_keys_count_up.
Qed.

Lemma foldl_foldl_bind {A B C} (g : A → C → A) (f : B → list C) (l : list B) (a : A) :
  foldl (λ a i, foldl g a (f i)) a l = foldl g a (l ≫= f).
Proof.
  revert a. induction l as [|i l IH]; intros a; [done|].
  csimpl. by rewrite foldl_app, IH.
Qed.

Lemma degree_atoms_of_counts mol_out dummies :
  degree_atoms_of mol_out dummies
  = foldl (λ d n, count_up n d) []
          (seq 0 (GetNumAtoms mol_out) ≫= counted_neighbors mol_out dummies).
Proof. unfold degree_atoms_of. apply foldl_foldl_bind. Qed.

Lemma length_get_push k x a d :
  length (default [] (Dict.get a (push k x d)))
  = (length (default [] (Dict.get a d)) + (if decide (k = a) then 1 else 0))%nat.
Proof.
  unfold push. destruct (decide (k = a)) as [->|Hne].
  - destruct (Dict.get a d) as [l|] eqn:Hget; rewrite DictFacts.get_set_eq; simpl.
    + by rewrite length_app.
    + done.
  - destruct (Dict.get k d); rewrite DictFacts.get_set_ne by done; lia.
Qed.

(** The list recorded for [a] has one bond order per bond recorded at
    [a]. *)
Lemma length_bond_types_of mol_out a :
  length (default [] (Dict.get a (bond_types_of mol_out)))
  = length (filter (λ b, recorded_at mol_out b = Some a) (bonds mol_out)).
Proof.
  unfold bond_types_of.
  enough (∀ bs d,
    length (default [] (Dict.get a
       (foldl (λ d b, match recorded_at mol_out b with
                      | Some k => push k (bond_type b) d
                      | None => d
                      end) d bs)))
    = (length (default [] (Dict.get a d))
       + length (filter (λ b, recorded_at mol_out b = Some a) bs))%nat) as H
    by (by rewrite H).
  induction bs as [|b bs IH]; intros d; simpl foldl.
  - simpl. lia.
  - rewrite IH. destruct (recorded_at mol_out b) as [k|] eqn:Hrec.
    + rewrite length_get_push. destruct (decide (k = a)) as [->|Hne].
      * rewrite filter_cons_True by congruence. simpl. lia.
      * rewrite filter_cons_False by congruence. lia.
    + rewrite filter_cons_False by congruence. lia.
Qed.

Lemma filter_bind {A B} (P : B → Prop) `{∀ x, Decision (P x)} (f : A → list B) (l : list A) :
  filter P (l ≫= f) = l ≫= (λ i, filter P (f i)).
Proof.
  induction l as [|i l IH]; [done|]. csimpl. by rewrite filter_app, IH.
Qed.

Lemma length_bind_app {A B} (f g : A → list B) (l : list A) :
  length (l ≫= (λ i, f i ++ g i)) = (length (l ≫= f) + length (l ≫= g))%nat.
Proof.
  induction l as [|i l IH]; [done|]. csimpl. rewrite !length_app, IH. lia.
Qed.

Lemma bind_nil_all {A B} (f : A → list B) (l : list A) :
  (∀ i, i ∈ l → f i = []) → l ≫= f = [].
Proof.
  induction l as [|i l IH]; intros Hall; [done|]. csimpl.
  rewrite (Hall i) by left. apply IH. intros j Hj. apply Hall. by right.
Qed.

(** Over a duplicate-free list, a function that is empty away from [i0]
    contributes at [i0] only. *)
Lemma bind_only_at {A B} `{EqDecision A} (f : A → list B) (l : list A) (i0 : A) :
  NoDup l → (∀ i, i ∈ l → i ≠ i0 → f i = []) →
  l ≫= f = if decide (i0 ∈ l) then f i0 else [].
Proof.
  induction l as [|i l IH]; intros Hnd Hall; [done|].
  apply NoDup_cons in Hnd as [Hi Hnd]. csimpl.
  destruct (decide (i = i0)) as [->|Hne].
  - rewrite decide_True by left.
    rewrite (bind_nil_all f l); [by rewrite app_nil_r|].
    intros j Hj. apply Hall; [by right|]. by intros ->.
  - rewrite (Hall i) by (done || left). simpl. rewrite IH; [|done|].
    + destruct (decide (i0 ∈ l)) as [Hin|Hnin].
      * rewrite decide_True; [done|by right].
      * rewrite decide_False; [done|].
        intros [->|?]%elem_of_cons; done.
    + intros j Hj. apply Hall. by right.
Qed.

Lemma elem_of_dummies_of mol_out i :
  i ∈ dummies_of mol_out ↔ GetSymbol mol_out i = wildcard.
Proof.
  unfold dummies_of. rewrite list_elem_of_filter, elem_of_seq.
  split; [tauto|]. intros Hsym. split; [done|]. split; [lia|]. simpl.
  unfold GetSymbol, GetNumAtoms in *.
  destruct (atoms mol_out !! i) eqn:Hi.
  - by apply lookup_lt_Some in Hi.
  - done.
Qed.

Lemma NoDup_dummies_of mol_out : NoDup (dummies_of mol_out).
Proof. apply NoDup_filter, NoDup_seq. Qed.

Lemma counted_neighbors_dummies mol_out :
  seq 0 (GetNumAtoms mol_out) ≫= counted_neighbors mol_out (dummies_of mol_out)
  = dummies_of mol_out
      ≫= (λ i, filter (λ n, GetSymbol mol_out n ≠ wildcard) (GetNeighbors mol_out i)).
Proof.
  unfold dummies_of at 2. generalize (seq 0 (GetNumAtoms mol_out)).
  induction l as [|i l IH]; [done|]. csimpl. rewrite IH. unfold counted_neighbors at 1.
  destruct (decide (GetSymbol mol_out i = wildcard)) as [Hsym|Hsym].
  - rewrite filter_cons_True by done. csimpl.
    rewrite decide_True; [done|]. by apply elem_of_dummies_of.
  - rewrite filter_cons_False by done.
    rewrite decide_False; [done|]. by rewrite elem_of_dummies_of.
Qed.

(** One bond is counted for the atom [a] exactly when it is recorded at
    [a]. *)
Lemma count_one_bond mol_out a b :
  GetSymbol mol_out a ≠ wildcard →
  length (dummies_of mol_out
            ≫= (λ i, filter (λ x, x = a)
                       (filter (λ n, GetSymbol mol_out n ≠ wildcard) (other_end i b))))
  = if decide (recorded_at mol_out b = Some a) then 1%nat else 0%nat.
Proof.
  intros Ha. unfold recorded_at.
  destruct (decide (GetSymbol mol_out (begin_atom b) = wildcard)) as [Hx|Hx].
  - rewrite (bind_only_at _ _ (begin_atom b)); [|apply NoDup_dummies_of|].
    + rewrite decide_True by (by apply elem_of_dummies_of).
      unfold other_end. rewrite decide_True by done.
      destruct (decide (end_atom b = a)) as [->|Hne].
      * rewrite decide_True by done.
        by rewrite filter_cons_True, filter_cons_True.
      * rewrite decide_False by congruence.
        destruct (decide (GetSymbol mol_out (end_atom b) ≠ wildcard)).
        -- rewrite filter_cons_True by done. by rewrite filter_cons_False.
        -- by rewrite filter_cons_False.
    + intros i _ Hne. unfold other_end. rewrite decide_False by done.
      destruct (decide (end_atom b = i)); [|done].
      by rewrite filter_cons_False by (intros ?; done).
  - destruct (decide (GetSymbol mol_out (end_atom b) = wildcard)) as [Hy|Hy].
    + rewrite (bind_only_at _ _ (end_atom b)); [|apply NoDup_dummies_of|].
      * rewrite decide_True by (by apply elem_of_dummies_of).
        unfold other_end.
        rewrite decide_False by (intros Heq; by rewrite Heq in Hx).
        rewrite decide_True by done. rewrite filter_cons_True by done.
        destruct (decide (begin_atom b = a)) as [->|Hne].
        -- rewrite decide_True by done. by rewrite filter_cons_True.
        -- rewrite decide_False by congruence. by rewrite filter_cons_False.
      * intros i Hi Hne. unfold other_end.
        rewrite decide_False; [|intros Heq; apply elem_of_dummies_of in Hi; congruence].
        by rewrite decide_False.
    + rewrite decide_False by done.
      rewrite bind_nil_all; [done|]. intros i Hi. unfold other_end.
      apply elem_of_dummies_of in Hi.
      rewrite decide_False by congruence. by rewrite decide_False by congruence.
Qed.

(** The number of times [a] is counted over the wildcards equals the
    number of bonds recorded at [a]. *)
Lemma count_bonds mol_out a bs :
  GetSymbol mol_out a ≠ wildcard →
  length (filter (λ x, x = a)
            (dummies_of mol_out
               ≫= (λ i, filter (λ n, GetSymbol mol_out n ≠ wildcard)
                          (bs ≫= other_end i))))
  = length (filter (λ b, recorded_at mol_out b = Some a) bs).
Proof.
  intros Ha. rewrite filter_bind.
  induction bs as [|b bs IH].
  - rewrite bind_nil_all; [done|]. intros i _. done.
  - rewrite (list_bind_ext _
      (λ i, filter (λ x, x = a)
              (filter (λ n, GetSymbol mol_out n ≠ wildcard) (other_end i b))
            ++ filter (λ x, x = a)
                 (filter (λ n, GetSymbol mol_out n ≠ wildcard) (bs ≫= other_end i)))
      _ (dummies_of mol_out)); [| |done].
    + rewrite length_bind_app, IH, count_one_bond by done.
      destruct (decide (recorded_at mol_out b = Some a)).
      * by rewrite filter_cons_True.
      * by rewrite filter_cons_False.
    + intros i. csimpl. by rewrite !filter_app.
Qed.

(** Every open-attachment atom has as many recorded bond orders as its
    entry of [degree_atoms] says, and is no wildcard. *)
Lemma degree_atoms_entry mol_out a v :
  Dict.get a (degree_atoms_of mol_out (dummies_of mol_out)) = Some v →
  GetSymbol mol_out a ≠ wildcard
  ∧ v = Z.of_nat (length (default [] (Dict.get a (bond_types_of mol_out)))).
Proof.
  rewrite degree_atoms_of_counts, get_foldl_count_up, counted_neighbors_dummies.
  destruct (length _) as [|n] eqn:Hlen; [done|]. simpl Dict.get. simpl default.
  intros [= <-].
  assert (Ha : GetSymbol mol_out a ≠ wildcard).
  { destruct (filter _ _) as [|x l] eqn:Hf; [done|].
    assert (x ∈ x :: l) as Hx by left. rewrite <- Hf in Hx.
    apply list_elem_of_filter in Hx as [-> Hx].
    apply list_elem_of_bind in Hx as (i & Hx & _).
    by apply list_elem_of_filter in Hx as [? _]. }
  split; [done|].
  rewrite length_bond_types_of. unfold GetNeighbors in Hlen.
  rewrite count_bonds in Hlen by done. rewrite <- Hlen. lia.
Qed.

(** The sum of the entries of [degree_atoms] is the sum, over the
    open-attachment atoms, of the number of bond orders recorded. *)
Lemma valence_is_bond_count mol_out :
  sum_values (degree_atoms_of mol_out (dummies_of mol_out))
  = foldr Z.add 0
      ((λ a, Z.of_nat (length (default [] (Dict.get a (bond_types_of mol_out)))))
         <$> Dict.keys (degree_atoms_of mol_out (dummies_of mol_out))).
Proof.
  unfold sum_values, Dict.values, Dict.keys. f_equal.
  rewrite <- list_fmap_compose. apply Forall_fmap_ext, Forall_forall.
  intros [a v] Hin. simpl.
  apply DictFacts.elem_of_get in Hin.
  - by apply degree_atoms_entry in Hin as [_ ->].
  - rewrite degree_atoms_of_counts. by apply NoDup_keys_foldl_count_up, NoDup_nil.
Qed.

(** For an atom that is no wildcard, the bonds recorded at the atom are
    the bonds that join it to a wildcard. *)
Lemma recorded_at_joins mol_out a b :
  GetSymbol mol_out a ≠ wildcard →
  recorded_at mol_out b = Some a ↔ joins_wildcard mol_out a b.
Proof.
  intros Ha. unfold recorded_at, joins_wildcard.
  destruct (decide (GetSymbol mol_out (begin_atom b) = wildcard)) as [Hx|Hx].
  - split.
    + intros [= <-]. by right.
    + intros [[<- _]|[<- _]]; done.
  - destruct (decide (GetSymbol mol_out (end_atom b) = wildcard)) as [Hy|Hy].
    + split.
      * intros [= <-]. by left.
      * intros [[<- _]|[_ ?]]; done.
    + split; [done|]. intros [[_ ?]|[_ ?]]; done.
Qed.

Lemma recorded_bonds mol_out a :
  GetSymbol mol_out a ≠ wildcard →
  filter (λ b, recorded_at mol_out b = Some a) (bonds mol_out) = wildcard_bonds mol_out a.
Proof.
  intros Ha. unfold wildcard_bonds. apply list_filter_iff. intros b.
  by apply recorded_at_joins.
Qed.

(** The counted atoms are no wildcards. *)
Lemma counted_not_wildcard mol_out a :
  GetSymbol mol_out a = wildcard →
  filter (λ x, x = a)
    (dummies_of mol_out
       ≫= (λ i, filter (λ n, GetSymbol mol_out n ≠ wildcard) (GetNeighbors mol_out i))) = [].
Proof.
  intros Ha. apply elem_of_nil_inv. intros x Hx.
  apply list_elem_of_filter in Hx as [-> Hx].
  apply list_elem_of_bind in Hx as (i & Hx & _).
  by apply list_elem_of_filter in Hx as [? _].
Qed.

(** The entry of [degree_atoms] for an atom: absent for a wildcard and for
    an atom without a bond to a wildcard, and otherwise the number of its
    bonds to wildcards. *)
Lemma degree_atoms_get mol_out a :
  Dict.get a (degree_atoms_of mol_out (dummies_of mol_out))
  = if decide (GetSymbol mol_out a ≠ wildcard ∧ wildcard_bonds mol_out a ≠ [])
    then Some (Z.of_nat (length (wildcard_bonds mol_out a)))
    else None.
Proof.
  rewrite degree_atoms_of_counts, get_foldl_count_up, counted_neighbors_dummies.
  destruct (decide (GetSymbol mol_out a = wildcard)) as [Ha|Ha].
  - rewrite counted_not_wildcard by done. simpl.
    rewrite decide_False; [done|]. by intros [? _].
  - unfold GetNeighbors. rewrite count_bonds, recorded_bonds by done.
    destruct (wildcard_bonds mol_out a) as [|b bs] eqn:Hwb.
    + simpl. rewrite decide_False; [done|]. by intros [_ ?].
    + rewrite decide_True by done. simpl length. simpl Dict.get. simpl default.
      f_equal; lia.
Qed.

Lemma sum_values_set k v d :
  sum_values (Dict.set k v d) = sum_values d - default 0 (Dict.get k d) + v.
Proof.
  unfold sum_values, Dict.values. induction d as [|[k' v'] d IH].
  - simpl. lia.
  - cbn [Dict.set Dict.get]. destruct (decide (k = k')) as [->|Hne].
    + cbn [fmap list_fmap foldr snd default]. unfold id. lia.
    + cbn [fmap list_fmap foldr snd] in *. lia.
Qed.

Lemma sum_values_count_up k d : sum_values (count_up k d) = sum_values d + 1.
Proof.
  unfold count_up. destruct (Dict.get k d) as [v|] eqn:Hget;
    rewrite sum_values_set, Hget; simpl; lia.
Qed.

Lemma sum_values_foldl_count_up ks d :
  sum_values (foldl (λ d n, count_up n d) d ks) = sum_values d + Z.of_nat (length ks).
Proof.
  revert d. induction ks as [|k ks IH]; intros d; simpl foldl.
  - simpl. lia.
  - rewrite IH, sum_values_count_up. simpl length. lia.
Qed.

(** One bond is counted once when it is cut, and not at all otherwise. *)
Lemma count_cut_bond mol_out b :
  length (dummies_of mol_out
            ≫= (λ i, filter (λ n, GetSymbol mol_out n ≠ wildcard) (other_end i b)))
  = if decide (cut mol_out b) then 1%nat else 0%nat.
Proof.
  unfold cut.
  destruct (decide (GetSymbol mol_out (begin_atom b) = wildcard)) as [Hx|Hx].
  - rewrite (bind_only_at _ _ (begin_atom b)); [|apply NoDup_dummies_of|].
    + rewrite decide_True by (by apply elem_of_dummies_of).
      unfold other_end. rewrite decide_True by done.
      destruct (decide (GetSymbol mol_out (end_atom b) = wildcard)) as [Hy|Hy].
      * rewrite filter_cons_False by (intros ?; done).
        rewrite decide_False; [done|]. intros [[_ ?]|[? _]]; done.
      * rewrite filter_cons_True by done. rewrite decide_True; [done|]. by left.
    + intros i _ Hne. unfold other_end. rewrite decide_False by done.
      destruct (decide (end_atom b = i)); [|done].
      by rewrite filter_cons_False by (intros ?; done).
  - destruct (decide (GetSymbol mol_out (end_atom b) = wildcard)) as [Hy|Hy].
    + rewrite (bind_only_at _ _ (end_atom b)); [|apply NoDup_dummies_of|].
      * rewrite decide_True by (by apply elem_of_dummies_of).
        unfold other_end.
        rewrite decide_False by (intros Heq; by rewrite Heq in Hx).
        rewrite decide_True by done. rewrite filter_cons_True by done.
        rewrite decide_True; [done|]. by right.
      * intros i Hi Hne. unfold other_end.
        rewrite decide_False; [|intros Heq; apply elem_of_dummies_of in Hi; congruence].
        by rewrite decide_False.
    + rewrite decide_False by (intros [[? _]|[_ ?]]; done).
      rewrite bind_nil_all; [done|]. intros i Hi. unfold other_end.
      apply elem_of_dummies_of in Hi.
      rewrite decide_False by congruence. by rewrite decide_False by congruence.
Qed.

Lemma count_cut_bonds mol_out bs :
  length (dummies_of mol_out
            ≫= (λ i, filter (λ n, GetSymbol mol_out n ≠ wildcard) (bs ≫= other_end i)))
  = length (filter (cut mol_out) bs).
Proof.
  induction bs as [|b bs IH].
  - rewrite bind_nil_all; [done|]. intros i _. done.
  - rewrite (list_bind_ext _
      (λ i, filter (λ n, GetSymbol mol_out n ≠ wildcard) (other_end i b)
            ++ filter (λ n, GetSymbol mol_out n ≠ wildcard) (bs ≫= other_end i))
      _ (dummies_of mol_out)); [| |done].
    + rewrite length_bind_app, IH, count_cut_bond.
      destruct (decide (cut mol_out b)).
      * by rewrite filter_cons_True.
      * by rewrite filter_cons_False.
    + intros i. csimpl. by rewrite !filter_app.
Qed.

(** The sum of the entries of [degree_atoms] is the number of bonds cut. *)
Lemma valence_is_cut_count mol_out :
  sum_values (degree_atoms_of mol_out (dummies_of mol_out))
  = Z.of_nat (length (cut_bonds mol_out)).
Proof.
  rewrite degree_atoms_of_counts, sum_values_foldl_count_up, counted_neighbors_dummies.
  unfold GetNeighbors. by rewrite count_cut_bonds.
Qed.

Section population.
Variable Kekulize : mol → option mol.
Variable MolToSmiles : mol → res string.
Variable AddHs : mol → mol.
Variable dumps : lib_dict → string.
Variable get_sgs : record_dict → list (list (list nat)).

Lemma insert_or_ignore_substructure_Forall (P : substructure → Prop) r t :
  P r → Forall P t → Forall P (insert_or_ignore_substructure r t).
Proof.
  intros Hr Ht. unfold insert_or_ignore_substructure.
  case_bool_decide; [done|]. apply Forall_app. split; [done|]. by constructor.
Qed.

Section invariant.
(** A property of rows that holds of every row the loop builds holds of
    every row of the store the loop leaves. *)
Variable P : substructure → Prop.
Hypothesis P_built : ∀ m es l smi mass els,
  get_substructure Kekulize MolToSmiles m es = Ok (Some l) →
  MolToSmiles (lib_mol l) = Ok smi →
  calculate_exact_mass AddHs (lib_mol l) = Ok mass →
  get_elements AddHs (lib_mol l) = Ok els →
  P (sub_smi_dict smi mass els l (dumps l)).

Lemma insert_fragment_inv rd es d d' :
  Forall P (substructures d) →
  insert_fragment Kekulize MolToSmiles AddHs dumps rd es d = Ok d' →
  Forall P (substructures d').
Proof.
  intros Hd. unfold insert_fragment.
  intros ([l|] & Hget & Hrest)%res_mbind_Ok.
  - apply res_mbind_Ok in Hrest as (smi & Hsmi & Hrest).
    apply res_mbind_Ok in Hrest as (mass & Hmass & Hrest).
    apply res_mbind_Ok in Hrest as (els & Hels & Hrest).
    apply res_mbind_Ok in Hrest as (links & Hlinks & [= <-]). simpl.
    apply insert_or_ignore_substructure_Forall; [|done]. by eapply P_built.
  - by injection Hrest as <-.
Qed.

Lemma insert_fragments_inv rd sgs d d' :
  Forall P (substructures d) →
  insert_fragments Kekulize MolToSmiles AddHs dumps rd sgs d = Ok d' →
  Forall P (substructures d').
Proof.
  revert d. induction sgs as [|es sgs IH]; intros d Hd; simpl.
  - by intros [= <-].
  - intros (d1 & H1 & H2)%res_mbind_Ok.
    eapply IH; [|done]. by eapply insert_fragment_inv.
Qed.

Lemma insert_all_sgs_inv rd all d d' :
  Forall P (substructures d) →
  insert_all_sgs Kekulize MolToSmiles AddHs dumps rd all d = Ok d' →
  Forall P (substructures d').
Proof.
  revert d. induction all as [|sgs all IH]; intros d Hd; simpl.
  - by intros [= <-].
  - intros (d1 & H1 & H2)%res_mbind_Ok.
    eapply IH; [|done]. by eapply insert_fragments_inv.
Qed.

Lemma update_substructure_database_inv records d d' :
  Forall P (substructures d) →
  update_substructure_database Kekulize MolToSmiles AddHs dumps get_sgs records d = Ok d' →
  Forall P (substructures d').
Proof.
  revert d. induction records as [|rd records IH]; intros d Hd; simpl.
  - by intros [= <-].
  - intros (d1 & H1 & H2)%res_mbind_Ok.
    eapply IH; [|done]. eapply insert_all_sgs_inv; [|exact H1]. done.
Qed.

End invariant.

(** C6: every row of a store populated from the empty store holds in
    [exact_mass] the mass [calculate_exact_mass] returned for its fragment
    and, at each of the five tiers, that mass rounded to the decimal places
    of the tier (0 to 4): the float of the nearest decimal with that many
    places, ties to the even last digit. The row built for a full mass of
    180.063388 has the tier values 180.0, 180.1, 180.06, 180.063 and
    180.0634. *)
Theorem mass_tiers_rounded :
  (∀ records d',
     update_substructure_database Kekulize MolToSmiles AddHs dumps get_sgs
       records create_compound_database = Ok d' →
     ∀ r, r ∈ substructures d' →
       (∃ m, calculate_exact_mass AddHs m = Ok (exact_mass r))
       ∧ ∀ a, ∃ z : Z,
           nearest_decimal (exact_mass r) (decimals a) z
           ∧ mass_column a r = float (dec z (decimals a)))
  ∧ (∀ smi els l pkl,
       let r := sub_smi_dict smi (flt 180063388 6) els l pkl in
       exact_mass__1 r = flt 180 0
       ∧ exact_mass__0_1 r = flt 1801 1
       ∧ exact_mass__0_01 r = flt 18006 2
       ∧ exact_mass__0_001 r = flt 180063 3
       ∧ exact_mass__0_0001 r = flt 1800634 4).
Proof.
  split.
  - intros records d' Hrun r Hr.
    assert (Hrow : (∃ m, calculate_exact_mass AddHs m = Ok (exact_mass r))
                   ∧ ∀ a, mass_column a r = py_round (exact_mass r) (decimals a)).
    { revert r Hr. apply Forall_forall.
      eapply (update_substructure_database_inv
                (λ r, (∃ m, calculate_exact_mass AddHs m = Ok (exact_mass r))
                      ∧ ∀ a, mass_column a r = py_round (exact_mass r) (decimals a)));
        [| |exact Hrun].
      - intros m es l smi mass els _ _ Hmass _. split; [by exists (lib_mol l)|].
        intros a. by destruct a.
      - constructor. }
    destruct Hrow as [Hmass Htier]. split; [done|]. intros a.
    destruct (MassFacts.py_round_nearest (exact_mass r) (decimals a)) as (z & Hz & Hround).
    exists z. split; [done|]. by rewrite Htier.
  - intros smi els l pkl. simpl. repeat split; vm_compute; reflexivity.
Qed.

Lemma count_element_keys sym els els' :
  count_element sym els = Ok els' → Dict.keys els' = Dict.keys els.
Proof.
  unfold count_element. destruct (Dict.get sym els) as [v|] eqn:Hget; [|done].
  intros [= <-]. by rewrite DictFacts.keys_set, Hget.
Qed.

Lemma count_elements_keys syms els els' :
  count_elements syms els = Ok els' → Dict.keys els' = Dict.keys els.
Proof.
  revert els. induction syms as [|sym syms IH]; intros els; simpl.
  - by intros [= <-].
  - intros (els1 & H1 & H2)%res_mbind_Ok.
    rewrite (IH _ H2). by eapply count_element_keys.
Qed.

(** The heavy-atom count of a row built from the element table. *)
Lemma heavy_atoms_built smi mass els l pkl m :
  get_elements AddHs m = Ok els →
  let r := sub_smi_dict smi mass els l pkl in
  heavy_atoms r = n_C r + n_N r + n_O r + n_P r + n_S r.
Proof.
  intros Hels. apply count_elements_keys in Hels. unfold Dict.keys in Hels.
  do 8 (destruct els as [|[? ?] els]; try discriminate Hels).
  injection Hels as -> -> -> -> -> -> ->.
  cbv -[Z.add]. lia.
Qed.

(** C7: every row of a store populated from the empty store has a
    heavy-atom count equal to the sum of its C, N, O, P and S counts (the
    elements other than hydrogen and the wildcard). It was built from a
    fragment [mol_out] cut out of some molecule, and its valence entries
    are those of that fragment: the open-attachment atoms listed in
    [valence_atoms] are exactly the atoms of [mol_out] that are no
    wildcard and have a bond to a wildcard; the entry of such an atom is
    the number of its bonds to wildcards, which is the number of bond
    orders recorded for it; the valence is the sum of these numbers over
    the open-attachment atoms, and so the number of bonds of [mol_out]
    between a wildcard and an atom that is none (a bond between two
    wildcards counts for nothing). *)
Theorem inserted_counts records d' :
  update_substructure_database Kekulize MolToSmiles AddHs dumps get_sgs
    records create_compound_database = Ok d' →
  ∀ r, r ∈ substructures d' →
    heavy_atoms r = n_C r + n_N r + n_O r + n_P r + n_S r
    ∧ ∃ (m : mol) (es : list nat) (mol_out : mol) (l : lib_dict),
        fragment_of m es = Ok mol_out
        ∧ get_substructure Kekulize MolToSmiles m es = Ok (Some l)
        ∧ lib r = dumps l
        ∧ valence_atoms r = lib_degree_atoms l
        ∧ (∀ a, a ∈ Dict.keys (valence_atoms r)
                ↔ GetSymbol mol_out a ≠ wildcard ∧ wildcard_bonds mol_out a ≠ [])
        ∧ (∀ a v, Dict.get a (valence_atoms r) = Some v →
             v = Z.of_nat (length (wildcard_bonds mol_out a))
             ∧ v = Z.of_nat (length (default [] (Dict.get a (lib_bond_types l)))))
        ∧ valence r
          = foldr Z.add 0
              ((λ a, Z.of_nat (length (default [] (Dict.get a (lib_bond_types l)))))
                 <$> Dict.keys (valence_atoms r))
        ∧ valence r = Z.of_nat (length (cut_bonds mol_out)).
Proof.
  intros Hrun. apply Forall_forall.
  eapply update_substructure_database_inv; [| |exact Hrun]; [|constructor].
  intros m es l smi mass els Hget _ _ Hels. split.
  - by eapply heavy_atoms_built.
  - pose proof Hget as Hget'. unfold get_substructure in Hget.
    apply res_mbind_Ok in Hget as (mol_out & Hfrag & Hget).
    destruct (Kekulize mol_out) as [mol_kek|]; [|done].
    apply res_mbind_Ok in Hget as (smiles & _ & [= <-]).
    exists m, es, mol_out. eexists. split; [done|]. split; [exact Hget'|].
    cbn [sub_smi_dict lib valence_atoms valence lib_degree_atoms lib_bond_types
         lib_valence].
    split; [done|]. split; [done|]. split; [|split; [|split]].
    + intros a. rewrite DictFacts.elem_of_keys, degree_atoms_get.
      case_decide; [|split; [by intros [? ?]|done]]. split; [done|]. by eexists.
    + intros a v. rewrite degree_atoms_get. case_decide as Ha; [|done].
      intros [= <-]. split; [done|]. destruct Ha as [Ha _].
      by rewrite length_bond_types_of, recorded_bonds.
    + apply valence_is_bond_count.
    + apply valence_is_cut_count.
Qed.


End population.

(** Witness for C6: a run over one compound that inserts two rows. *)
Lemma mass_tiers_rounded_witness :
  ∃ d', update_substructure_database toy_Kekulize toy_MolToSmiles toy_AddHs toy_dumps
          toy_get_sgs [chain_record] create_compound_database = Ok d'
        ∧ length (substructures d') = 2%nat
        ∧ ∀ r, r ∈ substructures d' →
            (∃ m, calculate_exact_mass toy_AddHs m = Ok (exact_mass r))
            ∧ ∀ a, ∃ z : Z,
                nearest_decimal (exact_mass r) (decimals a) z
                ∧ mass_column a r = float (dec z (decimals a)).
Proof.
  eexists. split; [vm_compute; reflexivity|]. split; [reflexivity|].
  apply (proj1 (mass_tiers_rounded toy_Kekulize toy_MolToSmiles toy_AddHs toy_dumps
                  toy_get_sgs) [chain_record]).
  vm_compute; reflexivity.
Defined.

(** The mass is the float the loop of [calculate_exact_mass] leaves, and
    the tiers are rounded from that float. For the atoms of acetylene the
    decimal sum 26.01565 lies halfway between two decimals of four places
    and the float sum lies above it: the fourth tier is 26.0157. For the
    atoms of a propane chain between two wildcards the float sum lies
    below the decimal sum 42.04695: the fourth tier is 42.0469. *)
Lemma calculate_exact_mass_float_sum :
  (∃ x, calculate_exact_mass toy_AddHs
          {| atoms := ["C"; "C"; "H"; "H"]%string; bonds := [] |} = Ok x
        ∧ (dec 2601565 5 < x)%Qc
        ∧ py_round x 4 = flt 260157 4)
  ∧ (∃ x, calculate_exact_mass toy_AddHs
            {| atoms := ["*"; "C"; "C"; "C"; "*"; "H"; "H"; "H"; "H"; "H"; "H"]%string;
               bonds := [] |} = Ok x
          ∧ (x < dec 4204695 5)%Qc
          ∧ py_round x 4 = flt 420469 4).
Proof.
  split; eexists; (split; [vm_compute; reflexivity|]);
    (split; [vm_compute; reflexivity|]);
    apply (bool_decide_unpack _); vm_compute; exact I.
Qed.

(** Witness for C7: a run over a chain and a ring; the ring leaves a bond
    between two wildcards. *)
Lemma inserted_counts_witness :
  ∃ d', update_substructure_database toy_Kekulize toy_MolToSmiles toy_AddHs toy_dumps
          toy_get_sgs [chain_record; ring_record] create_compound_database = Ok d'
        ∧ length (substructures d') = 3%nat
        ∧ ∀ r, r ∈ substructures d' →
            heavy_atoms r = n_C r + n_N r + n_O r + n_P r + n_S r
            ∧ ∃ (m : mol) (es : list nat) (mol_out : mol) (l : lib_dict),
                fragment_of m es = Ok mol_out
                ∧ get_substructure toy_Kekulize toy_MolToSmiles m es = Ok (Some l)
                ∧ lib r = toy_dumps l
                ∧ valence_atoms r = lib_degree_atoms l
                ∧ (∀ a, a ∈ Dict.keys (valence_atoms r)
                        ↔ GetSymbol mol_out a ≠ wildcard ∧ wildcard_bonds mol_out a ≠ [])
                ∧ (∀ a v, Dict.get a (valence_atoms r) = Some v →
                     v = Z.of_nat (length (wildcard_bonds mol_out a))
                     ∧ v = Z.of_nat (length (default [] (Dict.get a (lib_bond_types l)))))
                ∧ valence r
                  = foldr Z.add 0
                      ((λ a, Z.of_nat (length (default [] (Dict.get a (lib_bond_types l)))))
                         <$> Dict.keys (valence_atoms r))
                ∧ valence r = Z.of_nat (length (cut_bonds mol_out)).
Proof.
  eexists. split; [vm_compute; reflexivity|]. split; [reflexivity|].
  apply (inserted_counts toy_Kekulize toy_MolToSmiles toy_AddHs toy_dumps
           toy_get_sgs [chain_record; ring_record]).
  vm_compute; reflexivity.
Defined.



End FragmentFacts.

(** ** The co-occurrence network *)

Module NetworkFacts.
Import Store Network Examples.
Local Open Scope string_scope.

(** C2 at the failing input: one compound linked to the three
    substructures CC, CO and CN, all three kept by the filter. In extended
    mode without parents the compound is gone, no self-loop is left and the
    three edges exist, but each has weight 2: the two nested loops over the
    neighbours of the compound visit every pair in both orders. *)
Theorem extended_network_one_parent :
  ∃ g, generate_substructure_network one_parent method_extended 1 false = Ok g
       ∧ has_node "HMDB0000001" g = false
       ∧ Dict.keys (node g) = ["CC"; "CO"; "CN"]
       ∧ selfloop_nodes g = []
       ∧ edge_weight "CC" "CO" g = Some (Some 2)
       ∧ edge_weight "CC" "CN" g = Some (Some 2)
       ∧ edge_weight "CO" "CN" g = Some (Some 2).
Proof. eexists. split; [vm_compute; reflexivity|]. by vm_compute. Qed.

(** The default mode on the same store gives each of the three edges the
    weight 1. *)
Lemma default_network_one_parent :
  ∃ g, generate_substructure_network one_parent method_default 1 false = Ok g
       ∧ Dict.keys (node g) = ["CC"; "CO"; "CN"]
       ∧ selfloop_nodes g = []
       ∧ edge_weight "CC" "CO" g = Some (Some 1)
       ∧ edge_weight "CC" "CN" g = Some (Some 1)
       ∧ edge_weight "CO" "CN" g = Some (Some 1).
Proof. eexists. split; [vm_compute; reflexivity|]. by vm_compute. Qed.

(** Visiting a pair of unlinked nodes in both orders leaves the edge with
    weight 2. *)
Lemma link_pair_twice (g : graph) (u v : string) :
  has_edge u v g = false →
  ∃ g1 g2, link_pair g u v = Ok g1 ∧ link_pair g1 v u = Ok g2
           ∧ edge_weight u v g2 = Some (Some 2).
Proof.
  intros Hno. unfold link_pair. rewrite Hno.
  eexists _, _. split; [reflexivity|].
  assert (Hvu : Dict.get v (adj (add_edge u v (Some 1) g))
                = Some (Dict.set u (Some 1)
                          (default [] (Dict.get v
                             (set_adj u v (Some 1)
                                (adj (add_node v None (add_node u None g)))))))).
  { unfold add_edge. simpl. unfold set_adj at 1. by rewrite DictFacts.get_set_eq. }
  unfold has_edge, Dict.mem. rewrite Hvu, DictFacts.get_set_eq.
  unfold increment_weight. rewrite Hvu, DictFacts.get_set_eq.
  split; [reflexivity|].
  unfold edge_weight. cbn [adj]. unfold set_adj at 1.
  rewrite DictFacts.get_set_eq. simpl. by rewrite DictFacts.get_set_eq.
Qed.

End NetworkFacts.

(** ** The isomorphism catalog *)

Module CatalogFacts.
Import Catalog Examples.

Section prefix_tree_facts.
Context {E : Type} `{EqDecision E}.
Implicit Types (t s : tree E) (cs : list (E * tree E)) (fr p : list E)
  (frs : list (list E)).

(** Induction over a tree with the hypothesis for every child. *)
Lemma tree_induction (P : tree E → Prop) :
  (∀ cs, Forall (λ ns, P ns.2) cs → P (Node cs)) → ∀ t, P t.
Proof.
  intros Hnode. fix IH 1. intros [cs]. apply Hnode.
  induction cs as [|[n s] cs IHcs]; constructor; [apply IH | exact IHcs].
Qed.

Lemma paths_Node cs cur :
  cs ≠ [] →
  paths (Node cs) cur = flat_map (λ ns, paths ns.2 (cur ++ [ns.1])) cs.
Proof. by destruct cs. Qed.

Lemma elem_of_flat_map {A B} (f : A → list B) (l : list A) (y : B) :
  y ∈ flat_map f l ↔ ∃ x, x ∈ l ∧ y ∈ f x.
Proof.
  rewrite list_elem_of_In, in_flat_map.
  split; intros (x & Hx & Hy); exists x; split; by apply list_elem_of_In.
Qed.

(** The paths below [cur] are the paths from the root with [cur] put in
    front. *)
Lemma paths_cur t cur : paths t cur = (λ p, cur ++ p) <$> paths t [].
Proof.
  revert cur. induction t as [cs IH] using tree_induction. intros cur.
  destruct (decide (cs = [])) as [->|Hne].
  - simpl. by rewrite app_nil_r.
  - rewrite !paths_Node by done. clear Hne.
    induction IH as [|[n s] cs Hs _ IHcs]; [done|]. simpl in *.
    rewrite fmap_app, IHcs. f_equal.
    rewrite (Hs (cur ++ [n])), (Hs [n]), <- list_fmap_compose.
    apply list_fmap_ext. intros _ p _. simpl. by rewrite <- app_assoc.
Qed.

Lemma elem_of_paths cs p :
  p ∈ paths (Node cs) [] ↔
  (cs = [] ∧ p = []) ∨ (∃ e s p', (e, s) ∈ cs ∧ p = e :: p' ∧ p' ∈ paths s []).
Proof.
  destruct (decide (cs = [])) as [->|Hne].
  - simpl. rewrite list_elem_of_singleton. split.
    + intros ->. by left.
    + intros [[_ ->]|(e & s & p' & Hin & _)]; [done|]. by apply elem_of_nil in Hin.
  - rewrite paths_Node by done. rewrite elem_of_flat_map. split.
    + intros ([e s] & Hin & Hp). right. simpl in Hp.
      rewrite paths_cur in Hp. apply list_elem_of_fmap in Hp as (p' & -> & Hp').
      by exists e, s, p'.
    + intros [[-> _]|(e & s & p' & Hin & -> & Hp')]; [done|].
      exists (e, s). split; [done|]. simpl. rewrite paths_cur.
      by apply (list_elem_of_fmap_2 (λ p, [e] ++ p)).
Qed.

Lemma keys_unique_inv cs :
  keys_unique (Node cs) → NoDup (Dict.keys cs) ∧ ∀ e s, (e, s) ∈ cs → keys_unique s.
Proof.
  inversion 1 as [cs' Hnd Hall]; subst. split; [done|].
  intros e s Hin. rewrite Forall_forall in Hall. by apply (Hall (e, s)).
Qed.

(** A tree with unique keys yields every path once. *)
Lemma NoDup_paths t : keys_unique t → NoDup (paths t []).
Proof.
  induction t as [cs IH] using tree_induction. intros [Hnd Hwf]%keys_unique_inv.
  destruct (decide (cs = [])) as [->|Hne]; [apply NoDup_singleton|].
  rewrite paths_Node by done. clear Hne. unfold Dict.keys in Hnd.
  induction cs as [|[n s] cs IHcs]; [constructor|]. simpl.
  apply Forall_cons in IH as [Hs IH]. apply NoDup_cons in Hnd as [Hn Hnd].
  apply NoDup_app. split; [|split].
  - rewrite paths_cur. apply NoDup_fmap_2; [intros p1 p2; by intros [= ->]|].
    apply Hs, (Hwf n s). left.
  - intros p Hp Hp'. simpl in Hp. rewrite paths_cur in Hp.
    apply list_elem_of_fmap in Hp as (p1 & -> & _).
    apply elem_of_flat_map in Hp' as ([n' s'] & Hin & Hp'). simpl in Hp'.
    rewrite paths_cur in Hp'. apply list_elem_of_fmap in Hp' as (p2 & [= <- _] & _).
    apply Hn. by apply (list_elem_of_fmap_2 fst _ (n, s')).
  - apply IHcs; [done|done|]. intros e s' Hin. apply (Hwf e s'). by right.
Qed.

Lemma set_not_nil {V} (e : E) (v : V) (d : list (E * V)) : Dict.set e v d ≠ [].
Proof. destruct d as [|[k' v'] d]; simpl; [done|]. by destruct (decide (e = k')). Qed.

Lemma elem_of_set_1 {V} (e e' : E) (v v' : V) (d : list (E * V)) :
  (e', v') ∈ Dict.set e v d → (e' = e ∧ v' = v) ∨ (e', v') ∈ d.
Proof.
  induction d as [|[k0 v0] d IH]; simpl.
  - intros [= -> ->]%list_elem_of_singleton. by left.
  - destruct (decide (e = k0)) as [->|Hne].
    + intros [[= -> ->]|Hin]%elem_of_cons; [by left|]. right. by right.
    + intros [[= -> ->]|Hin]%elem_of_cons; [right; left|].
      destruct (IH Hin) as [?|?]; [by left|]. right. by right.
Qed.

Lemma keys_unique_child cs e :
  keys_unique (Node cs) → keys_unique (default (Node []) (Dict.get e cs)).
Proof.
  intros [_ Hwf]%keys_unique_inv. destruct (Dict.get e cs) as [s|] eqn:Hget; simpl.
  - apply (Hwf e s). by apply DictFacts.get_Some_elem_of.
  - constructor; [apply NoDup_nil_2|constructor].
Qed.

(** Insertion keeps the keys of every dictionary unique. *)
Lemma keys_unique_insert fr t : keys_unique t → keys_unique (insert fr t).
Proof.
  revert t. induction fr as [|e fr IH]; intros [cs] Hwf; [done|]. simpl.
  pose proof (keys_unique_inv _ Hwf) as [Hnd Hcs].
  constructor.
  - by apply DictFacts.NoDup_keys_set.
  - apply Forall_forall. intros [e' s'] [[-> ->]|Hin]%elem_of_set_1; simpl.
    + by apply IH, keys_unique_child.
    + by apply (Hcs e' s').
Qed.

Lemma keys_unique_build frs : keys_unique (build frs).
Proof.
  unfold build.
  assert (keys_unique (Node ([] : list (E * tree E)))) as Hwf
    by (constructor; [apply NoDup_nil_2|constructor]).
  revert Hwf. generalize (Node ([] : list (E * tree E))).
  induction frs as [|fr frs IH]; intros t Hwf; [done|].
  simpl. by apply IH, keys_unique_insert.
Qed.

Lemma uniform_inv n cs :
  uniform (S n) (Node cs) →
  cs ≠ [] ∧ NoDup (Dict.keys cs) ∧ ∀ e s, (e, s) ∈ cs → uniform n s.
Proof.
  inversion 1 as [|n' cs' Hne Hnd Hall]; subst. split; [done|]. split; [done|].
  intros e s Hin. rewrite Forall_forall in Hall. by apply (Hall (e, s)).
Qed.

(** Inserting into the empty tree gives a single branch. *)
Lemma insert_empty fr :
  uniform (length fr) (insert fr (Node []))
  ∧ ∀ p, p ∈ paths (insert fr (Node [])) [] ↔ p = fr.
Proof.
  induction fr as [|e fr [IHu IHp]].
  - simpl. split; [constructor|]. intros p. apply list_elem_of_singleton.
  - change (insert (e :: fr) (Node [])) with (Node [(e, insert fr (Node []))]).
    cbn [length]. split.
    + constructor; [done|apply NoDup_singleton|]. by repeat constructor.
    + intros p. rewrite elem_of_paths. split.
      * intros [[? _]|(e' & s & p' & Hin & -> & Hp')]; [done|].
        apply list_elem_of_singleton in Hin as [= -> ->]. f_equal. by apply IHp.
      * intros ->. right. exists e, (insert fr (Node [])), fr.
        split; [apply list_elem_of_singleton; done|]. split; [done|]. by apply IHp.
Qed.

(** Inserting a sequence of length [n] into a tree of uniform depth [n]
    adds that sequence to the paths and nothing else. *)
Lemma insert_uniform fr t :
  uniform (length fr) t →
  uniform (length fr) (insert fr t)
  ∧ ∀ p, p ∈ paths (insert fr t) [] ↔ p = fr ∨ p ∈ paths t [].
Proof.
  revert t. induction fr as [|e fr IH]; intros t Hu.
  - split; [done|]. intros p. simpl. split; [by right|]. intros [->|Hp]; [|done].
    inversion Hu; subst. simpl. left.
  - destruct t as [cs]. simpl in Hu. apply uniform_inv in Hu as (Hne & Hnd & Hcs).
    simpl insert.
    assert (Hchild :
      uniform (length fr) (insert fr (default (Node []) (Dict.get e cs)))
      ∧ ∀ p', p' ∈ paths (insert fr (default (Node []) (Dict.get e cs))) [] ↔
          p' = fr ∨ ∃ s, Dict.get e cs = Some s ∧ p' ∈ paths s []).
    { destruct (Dict.get e cs) as [s|] eqn:Hget; simpl.
      - destruct (IH s) as [IHu IHp].
        { apply (Hcs e s). by apply DictFacts.get_Some_elem_of. }
        split; [done|]. intros p'. rewrite IHp. split.
        + intros [->|Hp']; [by left|]. right. by exists s.
        + intros [->|(s' & [= <-] & Hp')]; [by left|by right].
      - destruct (insert_empty fr) as [IHu IHp]. split; [done|].
        intros p'. rewrite IHp. split; [by left|].
        by intros [->|(s' & ? & _)]. }
    destruct Hchild as [Hcu Hcp]. split.
    + simpl. constructor.
      * apply set_not_nil.
      * by apply DictFacts.NoDup_keys_set.
      * apply Forall_forall. intros [e' s'] [[-> ->]|Hin]%elem_of_set_1; simpl; [done|].
        by apply (Hcs e' s').
    + intros p. rewrite !elem_of_paths. split.
      * intros [[Hnil _]|(e' & s' & p' & Hin & -> & Hp')].
        { by apply set_not_nil in Hnil. }
        apply DictFacts.elem_of_set in Hin as [[-> ->]|[Hne' Hin]]; [| |done].
        -- apply Hcp in Hp' as [->|(s & Hget & Hp')]; [by left|].
           right. right. exists e, s, p'. split; [|done].
           by apply DictFacts.get_Some_elem_of.
        -- right. right. by exists e', s', p'.
      * intros [->|[[Hnil _]|(e' & s' & p' & Hin & -> & Hp')]]; [|done|].
        -- right. exists e, (insert fr (default (Node []) (Dict.get e cs))), fr.
           split; [apply DictFacts.get_Some_elem_of, DictFacts.get_set_eq|].
           split; [done|]. apply Hcp. by left.
        -- right. destruct (decide (e' = e)) as [->|Hne'].
           ++ exists e, (insert fr (default (Node []) (Dict.get e cs))), p'.
              split; [apply DictFacts.get_Some_elem_of, DictFacts.get_set_eq|].
              split; [done|]. apply Hcp. right. exists s'.
              split; [by apply DictFacts.elem_of_get|done].
           ++ exists e', s', p'. split; [|done].
              apply DictFacts.elem_of_set; [done|]. by right.
Qed.

Lemma foldl_insert_uniform n frs t :
  uniform n t →
  Forall (λ fr, length fr = n) frs →
  uniform n (foldl (λ root fr, insert fr root) t frs)
  ∧ ∀ p, p ∈ paths (foldl (λ root fr, insert fr root) t frs) [] ↔
      p ∈ frs ∨ p ∈ paths t [].
Proof.
  revert t. induction frs as [|fr frs IH]; intros t Hu Hlen; simpl.
  - split; [done|]. intros p. split; [by right|].
    intros [Hin|?]; [|done]. by apply elem_of_nil in Hin.
  - apply Forall_cons in Hlen as [<- Hlen].
    destruct (insert_uniform fr t Hu) as [Hu' Hp'].
    destruct (IH _ Hu' Hlen) as [Hu'' Hp'']. split; [done|].
    intros p. rewrite Hp'', Hp', elem_of_cons. tauto.
Qed.

(** C10: for a non-empty collection of sequences of one length, the tree
    built by inserting each of them yields, through [paths], exactly the
    sequences of the collection, each once; and [paths] on the empty tree
    yields one path, the empty one. *)
Theorem paths_build_exact :
  (∀ (n : nat) (frs : list (list E)),
     frs ≠ [] →
     Forall (λ fr, length fr = n) frs →
     NoDup (paths (build frs) [])
     ∧ ∀ p, p ∈ paths (build frs) [] ↔ p ∈ frs)
  ∧ paths (Node ([] : list (E * tree E))) [] = [[]].
Proof.
  split; [|done]. intros n frs Hne Hlen.
  split; [apply NoDup_paths, keys_unique_build|].
  destruct frs as [|fr frs]; [done|]. clear Hne.
  apply Forall_cons in Hlen as [<- Hlen]. unfold build. simpl.
  destruct (insert_empty fr) as [Hu Hp].
  destruct (foldl_insert_uniform _ frs _ Hu Hlen) as [_ Hp'].
  intros p. rewrite Hp', Hp, elem_of_cons. tauto.
Qed.

End prefix_tree_facts.

(** Witness for C10: three sequences of length two, one of them twice. *)
Lemma paths_build_exact_witness :
  NoDup (paths (build [[1; 2]; [1; 3]; [1; 2]; [4; 2]]) [])
  ∧ ∀ p, p ∈ paths (build [[1; 2]; [1; 3]; [1; 2]; [4; 2]]) []
         ↔ p ∈ [[1; 2]; [1; 3]; [1; 2]; [4; 2]].
Proof.
  apply (proj1 paths_build_exact 2%nat [[1; 2]; [1; 3]; [1; 2]; [4; 2]]).
  - discriminate.
  - repeat constructor.
Defined.

Section merge_facts.
Context {E : Type} `{EqDecision E}.

Lemma append_missing_NoDup (cur new : list (list E)) :
  NoDup cur → NoDup (append_missing cur new).
Proof.
  unfold append_missing. revert cur.
  induction new as [|es new IH]; intros cur Hnd; [done|]. simpl.
  apply IH. case_decide; [done|].
  apply NoDup_app. split; [done|]. split; [|apply NoDup_singleton].
  by intros x Hx ->%list_elem_of_singleton.
Qed.

(** Entries of the accumulator are never lost and entries of a batch are
    all taken. *)
Lemma elem_of_append_missing (cur new : list (list E)) es :
  es ∈ append_missing cur new ↔ es ∈ cur ∨ es ∈ new.
Proof.
  unfold append_missing. revert cur.
  induction new as [|x new IH]; intros cur; simpl.
  - split; [by left|]. intros [?|Hin]; [done|]. by apply elem_of_nil in Hin.
  - rewrite IH, elem_of_cons. case_decide.
    + split; [tauto|]. intros [?|[->|?]]; tauto.
    + rewrite elem_of_app, list_elem_of_singleton. tauto.
Qed.

(** A batch only adds, behind what the accumulator holds, entries the
    accumulator does not hold, each once. *)
Lemma append_missing_extends (cur new : list (list E)) :
  ∃ extra, append_missing cur new = cur ++ extra
           ∧ NoDup extra
           ∧ ∀ es, es ∈ extra → (es ∉ cur) ∧ es ∈ new.
Proof.
  unfold append_missing. revert cur.
  induction new as [|x new IH]; intros cur; simpl.
  - exists []. rewrite app_nil_r. split; [done|]. split; [constructor|].
    intros es Hes. by apply elem_of_nil in Hes.
  - case_decide as Hx.
    + destruct (IH cur) as (extra & -> & Hnd & Hex). exists extra.
      split; [done|]. split; [done|]. intros es Hes.
      destruct (Hex es Hes). split; [done|]. by right.
    + destruct (IH (cur ++ [x])) as (extra & -> & Hnd & Hex). exists (x :: extra).
      split; [by rewrite <- app_assoc|]. split.
      * apply NoDup_cons. split; [|done]. intros Hin.
        destruct (Hex x Hin) as [Hnot _]. apply Hnot, elem_of_app. right. left.
      * intros es [->|Hes]%elem_of_cons; [split; [done|left]|].
        destruct (Hex es Hes) as [Hnot Hin]. split; [|by right].
        intros Hcur. apply Hnot, elem_of_app. by left.
Qed.

End merge_facts.

End CatalogFacts.

(** ** More on the queries of the store *)

Module StoreMore.
Import Mass Store Examples.

(** Every mass value that [select_mass_values] returns, passed back to
    [select_ecs] as the target at the same tier and with the same
    heavy-atom set and no tolerance, finds at least one composition. *)
Theorem select_mass_values_select_ecs (subs : list substructure) (a : accuracy)
    (heavy : list Z) (max_valence : Z) (masses : option (list Qc)) (v : Qc) :
  v ∈ select_mass_values subs a heavy max_valence masses →
  ∃ t : ec, t ∈ select_ecs subs v heavy a None.
Proof.
  unfold select_mass_values, select_ecs.
  rewrite merge_sort_Permutation, elem_of_remove_dups, list_elem_of_fmap.
  intros (r & -> & Hr). apply list_elem_of_filter in Hr as [(Hv & Hh & Hm) Hr].
  exists (ec_of r). rewrite elem_of_remove_dups. apply list_elem_of_fmap_2.
  apply list_elem_of_filter. split; [|done]. split; [done|].
  simpl. by apply bool_decide_eq_true.
Qed.






(** Witness: the whole-number tier value of the hexose row, returned by
    [select_mass_values], finds the composition of the row. *)
Lemma select_mass_values_select_ecs_witness :
  ∃ t : ec, t ∈ select_ecs [hexose; ethanol] (dec 180 0) [3; 12] acc_1 None.
Proof.
  apply (select_mass_values_select_ecs [hexose; ethanol] acc_1 [3; 12] 0 None
           (dec 180 0)).
  apply (bool_decide_unpack _). vm_compute. exact I.
Defined.



End StoreMore.

(** ** More on the population loop *)

Module PopulationFacts.
Import Mass Store Fragment Network Population Examples.

(** *** Loops in the result monad *)

Lemma for_each_invariant {A S : Type} (body : S → A → res S) (I : S → Prop) l s s' :
  (∀ s x s', I s → body s x = Ok s' → I s') →
  I s → for_each body l s = Ok s' → I s'.
Proof.
  intros Hstep. revert s. induction l as [|x l IH]; intros s Hs; simpl.
  - by intros [= <-].
  - intros (s1 & H1 & H2)%res_mbind_Ok. eapply IH; [|done]. by eapply Hstep.
Qed.

(** A loop whose steps only grow the state along [R], and do nothing on a
    state that has grown past their result, does nothing when run again. *)
Lemma for_each_settles {A S : Type} (body : S → A → res S) (R : S → S → Prop)
    `{!Reflexive R, !Transitive R} l s s' :
  (∀ s x s1, body s x = Ok s1 → R s s1 ∧ ∀ s2, R s1 s2 → body s2 x = Ok s2) →
  for_each body l s = Ok s' →
  R s s' ∧ ∀ s2, R s' s2 → for_each body l s2 = Ok s2.
Proof.
  intros Hstep. revert s. induction l as [|x l IH]; intros s; simpl.
  - intros [= <-]. by split.
  - intros (s1 & H1 & H2)%res_mbind_Ok.
    destruct (Hstep _ _ _ H1) as [Hs1 Hagain].
    destruct (IH _ H2) as [Hs' Hrest]. split; [by etrans|].
    intros s2 Hs2. rewrite Hagain by (by etrans). simpl. by apply Hrest.
Qed.

Lemma for_each_settles_in {A S : Type} (body : S → A → res S) (R : S → S → Prop)
    `{!Reflexive R, !Transitive R} l s s' :
  (∀ s x s1, x ∈ l → body s x = Ok s1 → R s s1 ∧ ∀ s2, R s1 s2 → body s2 x = Ok s2) →
  for_each body l s = Ok s' →
  R s s' ∧ ∀ s2, R s' s2 → for_each body l s2 = Ok s2.
Proof.
  revert s. induction l as [|x l IH]; intros s Hstep; simpl.
  - intros [= <-]. by split.
  - intros (s1 & H1 & H2)%res_mbind_Ok.
    destruct (Hstep _ _ _ ltac:(left) H1) as [Hs1 Hagain].
    destruct (IH s1 (λ s x s1 Hx, Hstep s x s1 ltac:(by right)) H2) as [Hs' Hrest].
    split; [by etrans|].
    intros s2 Hs2. rewrite Hagain by (by etrans). simpl. by apply Hrest.
Qed.

Section population_more.
Variable Kekulize : mol → option mol.
Variable MolToSmiles : mol → res string.
Variable AddHs : mol → mol.
Variable dumps : lib_dict → string.
Variable get_sgs : record_dict → list (list (list nat)).

Lemma insert_fragments_for_each rd sgs d :
  insert_fragments Kekulize MolToSmiles AddHs dumps rd sgs d
  = for_each (λ d es, insert_fragment Kekulize MolToSmiles AddHs dumps rd es d) sgs d.
Proof.
  revert d. induction sgs as [|es sgs IH]; intros d; [done|]. simpl.
  destruct (insert_fragment _ _ _ _ _ _ _); simpl; [apply IH|done].
Qed.

Lemma insert_all_sgs_for_each rd all d :
  insert_all_sgs Kekulize MolToSmiles AddHs dumps rd all d
  = for_each (λ d sgs, insert_fragments Kekulize MolToSmiles AddHs dumps rd sgs d) all d.
Proof.
  revert d. induction all as [|sgs all IH]; intros d; [done|]. simpl.
  destruct (insert_fragments _ _ _ _ _ _ _); simpl; [apply IH|done].
Qed.

Lemma update_substructure_database_for_each records d :
  update_substructure_database Kekulize MolToSmiles AddHs dumps get_sgs records d
  = for_each
      (λ d rd, insert_all_sgs Kekulize MolToSmiles AddHs dumps rd (get_sgs rd)
                 {| compounds := insert_or_ignore_compound (rd_compound rd) (compounds d);
                    substructures := substructures d;
                    hmdbid_substructures := hmdbid_substructures d |})
      records d.
Proof.
  revert d. induction records as [|rd records IH]; intros d; [done|]. simpl.
  destruct (insert_all_sgs _ _ _ _ _ _ _); simpl; [apply IH|done].
Qed.

(** What the spliced statement inserts. *)
Lemma insert_link_Ok id smi t t' :
  insert_link id smi t = Ok t' →
  ∃ id' smi',
    t' = insert_or_ignore_link (id', smi') t
    ∧ (Splice.verbatim Splice.quotation_mark id → id' = id)
    ∧ (Splice.verbatim Splice.quotation_mark smi → smi' = smi).
Proof.
  unfold insert_link, Splice.literal.
  destruct (Splice.has_nul id || Splice.has_nul smi); [done|].
  destruct (Splice.dequote _ id) as [id'|] eqn:Hid; [|done].
  destruct (Splice.dequote _ smi) as [smi'|] eqn:Hsmi; [|done].
  simpl. intros [= <-]. exists id', smi'. split; [done|].
  split; intros [_ H]; congruence.
Qed.

Lemma insert_link_verbatim id smi t :
  Splice.verbatim Splice.quotation_mark id →
  Splice.verbatim Splice.quotation_mark smi →
  insert_link id smi t = Ok (insert_or_ignore_link (id, smi) t).
Proof.
  intros [Hn1 Hd1] [Hn2 Hd2]. unfold insert_link, Splice.literal.
  by rewrite Hn1, Hn2, Hd1, Hd2.
Qed.

(** What one round of the loop body does to the tables. *)
Lemma insert_fragment_cases rd es d d' :
  insert_fragment Kekulize MolToSmiles AddHs dumps rd es d = Ok d' →
  d' = d
  ∨ ∃ row m links,
      MolToSmiles m = Ok (smiles row)
      ∧ insert_link (hmdbid (rd_compound rd)) (smiles row) (hmdbid_substructures d)
        = Ok links
      ∧ d' = {| compounds := compounds d;
                substructures := insert_or_ignore_substructure row (substructures d);
                hmdbid_substructures := links |}.
Proof.
  unfold insert_fragment. intros ([l|] & Hget & Hrest)%res_mbind_Ok.
  - apply res_mbind_Ok in Hrest as (smi & Hsmi & Hrest).
    apply res_mbind_Ok in Hrest as (mass & Hmass & Hrest).
    apply res_mbind_Ok in Hrest as (els & Hels & Hrest).
    apply res_mbind_Ok in Hrest as (links & Hlinks & [= <-]).
    right. exists (sub_smi_dict smi mass els l (dumps l)), (lib_mol l), links.
    split; [exact Hsmi|]. split; [exact Hlinks|]. reflexivity.
  - left. by injection Hrest as <-.
Qed.

(** *** [INSERT OR IGNORE] on the three tables *)

Lemma elem_of_insert_or_ignore_compound r t id :
  id ∈ hmdbid <$> insert_or_ignore_compound r t ↔ id = hmdbid r ∨ id ∈ hmdbid <$> t.
Proof.
  unfold insert_or_ignore_compound. case_bool_decide as Hin.
  - split; [by right|]. by intros [->|?].
  - rewrite fmap_app, elem_of_app. csimpl. rewrite list_elem_of_singleton. tauto.
Qed.

Lemma elem_of_insert_or_ignore_substructure r t smi :
  smi ∈ smiles <$> insert_or_ignore_substructure r t ↔ smi = smiles r ∨ smi ∈ smiles <$> t.
Proof.
  unfold insert_or_ignore_substructure. case_bool_decide as Hin.
  - split; [by right|]. by intros [->|?].
  - rewrite fmap_app, elem_of_app. csimpl. rewrite list_elem_of_singleton. tauto.
Qed.

Lemma elem_of_insert_or_ignore_link r t l :
  l ∈ insert_or_ignore_link r t ↔ l = r ∨ l ∈ t.
Proof.
  unfold insert_or_ignore_link. case_bool_decide as Hin.
  - split; [by right|]. by intros [->|?].
  - rewrite elem_of_app, list_elem_of_singleton. tauto.
Qed.




Lemma prefix_insert_or_ignore_compound r t : t `prefix_of` insert_or_ignore_compound r t.
Proof.
  unfold insert_or_ignore_compound. case_bool_decide; [done|]. by apply prefix_app_r.
Qed.

Lemma prefix_insert_or_ignore_substructure r t :
  t `prefix_of` insert_or_ignore_substructure r t.
Proof.
  unfold insert_or_ignore_substructure. case_bool_decide; [done|]. by apply prefix_app_r.
Qed.

Lemma prefix_insert_or_ignore_link r t : t `prefix_of` insert_or_ignore_link r t.
Proof.
  unfold insert_or_ignore_link. case_bool_decide; [done|]. by apply prefix_app_r.
Qed.

Section invariant_db.
(** A property of stores kept by the insertion of a compound and by the
    insertion of a fragment of a compound of the store is kept by the
    whole run. *)
Variable I : db → Prop.
Variable R : record_dict → Prop.
Hypothesis I_compound : ∀ d r,
  I d →
  I {| compounds := insert_or_ignore_compound r (compounds d);
       substructures := substructures d;
       hmdbid_substructures := hmdbid_substructures d |}.
Hypothesis I_fragment : ∀ d row rd m links,
  I d → R rd → hmdbid (rd_compound rd) ∈ hmdbid <$> compounds d →
  MolToSmiles m = Ok (smiles row) →
  insert_link (hmdbid (rd_compound rd)) (smiles row) (hmdbid_substructures d) = Ok links →
  I {| compounds := compounds d;
       substructures := insert_or_ignore_substructure row (substructures d);
       hmdbid_substructures := links |}.

Lemma insert_all_sgs_invariant rd all d d' :
  R rd →
  I d ∧ hmdbid (rd_compound rd) ∈ hmdbid <$> compounds d →
  insert_all_sgs Kekulize MolToSmiles AddHs dumps rd all d = Ok d' →
  I d' ∧ hmdbid (rd_compound rd) ∈ hmdbid <$> compounds d'.
Proof.
  intros Hrd. rewrite insert_all_sgs_for_each.
  apply (for_each_invariant _
           (λ d, I d ∧ hmdbid (rd_compound rd) ∈ hmdbid <$> compounds d)).
  clear d d'. intros d sgs d' Hd. rewrite insert_fragments_for_each.
  revert Hd.
  apply (for_each_invariant _
           (λ d, I d ∧ hmdbid (rd_compound rd) ∈ hmdbid <$> compounds d)).
  clear d d'.
  intros d es d' [Hd Hid] [->|(row & m & links & Hsmi & Hlinks & ->)]%insert_fragment_cases.
  - done.
  - split; [by eapply I_fragment|done].
Qed.

Lemma update_substructure_database_invariant records d d' :
  Forall R records →
  I d →
  update_substructure_database Kekulize MolToSmiles AddHs dumps get_sgs records d = Ok d' →
  I d'.
Proof.
  intros Hall. revert d. induction Hall as [|rd records Hrd Hall IH]; intros d Hd; simpl.
  - by intros [= <-].
  - intros (d1 & Hstep & Hrun)%res_mbind_Ok. apply (IH d1); [|done].
    eapply insert_all_sgs_invariant in Hstep as [Hd' _]; [done|done|].
    split; [by apply I_compound|]. simpl.
    apply elem_of_insert_or_ignore_compound. by left.
Qed.

End invariant_db.



(** On compound identifiers and SMILES texts that hold no quotation mark
    and no NUL character, the run keeps the links resolved: every link of
    the store it leaves names a compound row and a substructure row of
    that store. *)
Theorem population_links_resolve records d d' :
  Forall (λ rd, Splice.verbatim Splice.quotation_mark (hmdbid (rd_compound rd))) records →
  (∀ m smi, MolToSmiles m = Ok smi → Splice.verbatim Splice.quotation_mark smi) →
  links_resolve d →
  update_substructure_database Kekulize MolToSmiles AddHs dumps get_sgs records d = Ok d' →
  links_resolve d'.
Proof.
  intros Hids Hsmis.
  apply (update_substructure_database_invariant links_resolve
           (λ rd, Splice.verbatim Splice.quotation_mark (hmdbid (rd_compound rd))));
    [| |exact Hids].
  - intros d0 r Hd id smi Hin. simpl in *. destruct (Hd id smi Hin) as [Hc Hs].
    split; [|done]. apply elem_of_insert_or_ignore_compound. by right.
  - intros d0 row rd m links Hd Hrd Hid0 Hsmi
      (id' & smi' & -> & Hid' & Hsmi')%insert_link_Ok id smi Hin.
    rewrite (Hid' Hrd), (Hsmi' (Hsmis _ _ Hsmi)) in Hin. simpl in *.
    apply elem_of_insert_or_ignore_link in Hin as [[= -> ->]|Hin].
    + split; [done|]. apply elem_of_insert_or_ignore_substructure. by left.
    + destruct (Hd id smi Hin) as [Hc Hs]. split; [done|].
      apply elem_of_insert_or_ignore_substructure. by right.
Qed.

(** On compound identifiers and SMILES texts that hold no quotation mark
    and no NUL character, the run only appends: each table of the store it
    leaves starts with the rows, unchanged and in order, that the table had
    before. *)
Theorem population_extends records d d' :
  Forall (λ rd, Splice.verbatim Splice.quotation_mark (hmdbid (rd_compound rd))) records →
  (∀ m smi, MolToSmiles m = Ok smi → Splice.verbatim Splice.quotation_mark smi) →
  update_substructure_database Kekulize MolToSmiles AddHs dumps get_sgs records d = Ok d' →
  extends d d'.
Proof.
  intros Hids Hsmis.
  apply (update_substructure_database_invariant (extends d)
           (λ rd, Splice.verbatim Splice.quotation_mark (hmdbid (rd_compound rd))));
    [| |exact Hids|].
  - intros d0 r (Hc & Hs & Hl). split; [|done]. simpl.
    etrans; [exact Hc|]. apply prefix_insert_or_ignore_compound.
  - intros d0 row rd m links (Hc & Hs & Hl) Hrd _ Hsmi Hlinks.
    rewrite (insert_link_verbatim _ _ _ Hrd (Hsmis _ _ Hsmi)) in Hlinks.
    injection Hlinks as <-. split; [done|]. simpl. split.
    + etrans; [exact Hs|]. apply prefix_insert_or_ignore_substructure.
    + etrans; [exact Hl|]. apply prefix_insert_or_ignore_link.
  - done.
Qed.

Global Instance keys_within_refl : Reflexive keys_within.
Proof. intros d. by repeat split. Qed.

Global Instance keys_within_trans : Transitive keys_within.
Proof.
  intros d1 d2 d3 (Hc & Hs & Hl) (Hc' & Hs' & Hl'). repeat split; auto.
Qed.

Lemma insert_fragment_settles rd es d d1 :
  Splice.verbatim Splice.quotation_mark (hmdbid (rd_compound rd)) →
  (∀ m smi, MolToSmiles m = Ok smi → Splice.verbatim Splice.quotation_mark smi) →
  insert_fragment Kekulize MolToSmiles AddHs dumps rd es d = Ok d1 →
  keys_within d d1
  ∧ ∀ d2, keys_within d1 d2 →
      insert_fragment Kekulize MolToSmiles AddHs dumps rd es d2 = Ok d2.
Proof.
  intros Hrd Hsmis.
  unfold insert_fragment. intros ([l|] & Hget & Hrest)%res_mbind_Ok; rewrite Hget; simpl.
  - apply res_mbind_Ok in Hrest as (smi & Hsmi & Hrest).
    apply res_mbind_Ok in Hrest as (mass & Hmass & Hrest).
    apply res_mbind_Ok in Hrest as (els & Hels & Hrest).
    apply res_mbind_Ok in Hrest as (links & Hlinks & [= <-]).
    rewrite (insert_link_verbatim _ _ _ Hrd (Hsmis _ _ Hsmi)) in Hlinks.
    injection Hlinks as <-.
    rewrite Hsmi, Hmass, Hels. simpl. split.
    + split; [done|]. simpl. split.
      * intros smi' Hin. apply elem_of_insert_or_ignore_substructure. by right.
      * intros lk Hin. apply elem_of_insert_or_ignore_link. by right.
    + intros [cs ss ls] (Hc & Hs & Hl). simpl in *.
      rewrite (insert_link_verbatim _ _ _ Hrd (Hsmis _ _ Hsmi)). simpl. f_equal. f_equal.
      * unfold insert_or_ignore_substructure. rewrite bool_decide_true; [done|].
        apply Hs, elem_of_insert_or_ignore_substructure. by left.
      * unfold insert_or_ignore_link. rewrite bool_decide_true; [done|].
        apply Hl, elem_of_insert_or_ignore_link. by left.
  - injection Hrest as <-. by split.
Qed.

(** On compound identifiers and SMILES texts that hold no quotation mark
    and no NUL character, running the population again over the same
    records, on the store the first run left, changes nothing: every
    compound, substructure and link is already there and is ignored. *)
Theorem population_idempotent records d d' :
  Forall (λ rd, Splice.verbatim Splice.quotation_mark (hmdbid (rd_compound rd))) records →
  (∀ m smi, MolToSmiles m = Ok smi → Splice.verbatim Splice.quotation_mark smi) →
  update_substructure_database Kekulize MolToSmiles AddHs dumps get_sgs records d = Ok d' →
  update_substructure_database Kekulize MolToSmiles AddHs dumps get_sgs records d' = Ok d'.
Proof.
  intros Hids Hsmis Hrun.
  enough (keys_within d d'
          ∧ ∀ d2, keys_within d' d2 →
              update_substructure_database Kekulize MolToSmiles AddHs dumps get_sgs
                records d2 = Ok d2) as [_ Hagain] by by apply Hagain.
  revert Hrun. rewrite update_substructure_database_for_each.
  intros Hrun. eapply (for_each_settles_in _ keys_within) in Hrun as [Hd Hagain].
  - split; [done|]. intros d2 Hd2.
    rewrite update_substructure_database_for_each. by apply Hagain.
  - clear d d' Hrun. intros d rd d1 Hin Hstep.
    assert (Hrd : Splice.verbatim Splice.quotation_mark (hmdbid (rd_compound rd)))
      by (by apply (proj1 (Forall_forall _ _) Hids rd)).
    rewrite insert_all_sgs_for_each in Hstep.
    eapply (for_each_settles _ keys_within) in Hstep as [Hd Hagain].
    + split.
      * etrans; [|exact Hd]. split; [|done]. simpl. intros id Hin'.
        apply elem_of_insert_or_ignore_compound. by right.
      * intros [cs ss ls] Hd2. rewrite insert_all_sgs_for_each. simpl.
        assert (Hc : insert_or_ignore_compound (rd_compound rd) cs = cs).
        { unfold insert_or_ignore_compound. rewrite bool_decide_true; [done|].
          destruct Hd2 as (Hc & _). destruct Hd as (Hc' & _). simpl in *.
          apply Hc, Hc', elem_of_insert_or_ignore_compound. by left. }
        rewrite Hc. by apply Hagain.
    + intros d0 sgs d2 Hstep2. rewrite insert_fragments_for_each in Hstep2.
      eapply (for_each_settles _ keys_within) in Hstep2 as [Hd0 Hagain0].
      * split; [done|]. intros d3 Hd3. rewrite insert_fragments_for_each.
        by apply Hagain0.
      * intros d3 es d4. by apply insert_fragment_settles.
Qed.

End population_more.


(** The stand-in for [MolToSmiles] prints no quotation mark. *)
Lemma toy_MolToSmiles_verbatim m smi :
  toy_MolToSmiles m = Ok smi → Splice.verbatim Splice.quotation_mark smi.
Proof. unfold toy_MolToSmiles. repeat case_decide; congruence. Qed.

(** An identifier with two quotation marks in a row is stored in the
    compound row as it is and in the links with one quotation mark: the
    links of the run name no compound of the store. *)
Lemma population_doubled_quote :
  ∃ d', update_substructure_database toy_Kekulize toy_MolToSmiles toy_AddHs toy_dumps
          toy_get_sgs [quoted_record] create_compound_database = Ok d'
        ∧ hmdbid <$> compounds d' = [quoted_id]
        ∧ remove_dups (hmdbid_substructures d').*1
          = [String.append "a" (String Splice.quotation_mark "b")]
        ∧ ¬ links_resolve d'.
Proof.
  eexists. split; [vm_compute; reflexivity|]. split; [reflexivity|].
  split; [vm_compute; reflexivity|].
  intros Hres.
  destruct (Hres (String.append "a" (String Splice.quotation_mark "b")) "CC*"%string)
    as [Hid _].
  - vm_compute. left.
  - vm_compute in Hid. apply list_elem_of_singleton in Hid. discriminate Hid.
Qed.

(** Witness: the links of a run over a chain and a ring resolve. *)
Lemma population_links_resolve_witness :
  ∃ d', update_substructure_database toy_Kekulize toy_MolToSmiles toy_AddHs toy_dumps
          toy_get_sgs [chain_record; ring_record] create_compound_database = Ok d'
        ∧ length (hmdbid_substructures d') = 4%nat
        ∧ links_resolve d'.
Proof.
  eexists. split; [vm_compute; reflexivity|]. split; [reflexivity|].
  apply (population_links_resolve toy_Kekulize toy_MolToSmiles toy_AddHs
           toy_dumps toy_get_sgs [chain_record; ring_record] create_compound_database).
  - apply (bool_decide_unpack _). vm_compute. exact I.
  - exact toy_MolToSmiles_verbatim.
  - intros id smi Hin. simpl in Hin. by apply elem_of_nil in Hin.
  - vm_compute; reflexivity.
Defined.

(** Witness: a run over a ring on a store that holds two compounds. *)
Lemma population_extends_witness :
  ∃ d', update_substructure_database toy_Kekulize toy_MolToSmiles toy_AddHs toy_dumps
          toy_get_sgs [ring_record] two_compounds = Ok d'
        ∧ length (compounds d') = 3%nat
        ∧ extends two_compounds d'.
Proof.
  eexists. split; [vm_compute; reflexivity|]. split; [reflexivity|].
  apply (population_extends toy_Kekulize toy_MolToSmiles toy_AddHs
           toy_dumps toy_get_sgs [ring_record] two_compounds).
  - apply (bool_decide_unpack _). vm_compute. exact I.
  - exact toy_MolToSmiles_verbatim.
  - vm_compute; reflexivity.
Defined.

(** Witness: the run over a chain and a ring, repeated on its result. *)
Lemma population_idempotent_witness :
  ∃ d', update_substructure_database toy_Kekulize toy_MolToSmiles toy_AddHs toy_dumps
          toy_get_sgs [chain_record; ring_record] create_compound_database = Ok d'
        ∧ update_substructure_database toy_Kekulize toy_MolToSmiles toy_AddHs toy_dumps
            toy_get_sgs [chain_record; ring_record] d' = Ok d'.
Proof.
  eexists. split; [vm_compute; reflexivity|].
  apply (population_idempotent toy_Kekulize toy_MolToSmiles toy_AddHs
           toy_dumps toy_get_sgs [chain_record; ring_record] create_compound_database).
  - apply (bool_decide_unpack _). vm_compute. exact I.
  - exact toy_MolToSmiles_verbatim.
  - vm_compute; reflexivity.
Defined.

End PopulationFacts.

(** ** More on bond subsets and fragments *)

Module FragmentMore.
Import Mass Store Fragment Subgraphs Examples.

Lemma foldl_append_filter {A} (P : A → Prop) `{∀ x, Decision (P x)} (l acc : list A) :
  foldl (λ acc x, if decide (P x) then acc ++ [x] else acc) acc l = acc ++ filter P l.
Proof.
  revert acc. induction l as [|x l IH]; intros acc; simpl.
  - by rewrite app_nil_r.
  - rewrite IH. destruct (decide (P x)).
    + rewrite filter_cons_True by done. by rewrite <- app_assoc.
    + by rewrite filter_cons_False.
Qed.

Lemma edge_idxs_new_of_filter n_min n_max edge_idxs :
  edge_idxs_new_of n_min n_max edge_idxs = filter (size_ok n_min n_max) edge_idxs.
Proof. unfold edge_idxs_new_of. by rewrite foldl_append_filter. Qed.

Lemma subset_sgs_sizes_filter sgs n_min n_max :
  subset_sgs_sizes sgs n_min n_max
  = filter (λ g, g ≠ []) (filter (size_ok n_min n_max) <$> sgs).
Proof.
  unfold subset_sgs_sizes.
  enough (∀ acc,
    foldl (λ sgs_new edge_idxs,
             if decide (0 < length (edge_idxs_new_of n_min n_max edge_idxs))%nat
             then sgs_new ++ [edge_idxs_new_of n_min n_max edge_idxs] else sgs_new)
          acc sgs
    = acc ++ filter (λ g, g ≠ []) (filter (size_ok n_min n_max) <$> sgs)) as H
    by apply (H []).
  induction sgs as [|g sgs IH]; intros acc; simpl.
  - by rewrite app_nil_r.
  - rewrite IH, edge_idxs_new_of_filter. csimpl.
    destruct (decide (0 < length (filter (size_ok n_min n_max) g))%nat) as [Hlen|Hlen].
    + rewrite filter_cons_True; [by rewrite <- app_assoc|].
      intros Hnil. rewrite Hnil in Hlen. simpl in Hlen. lia.
    + rewrite filter_cons_False; [done|]. intros Hne. apply Hlen.
      destruct (filter _ g); [done|simpl; lia].
Qed.

(** [subset_sgs_sizes]: every group returned is non-empty and holds only
    bond subsets of a size within the bounds; it is one of the input
    groups with the subsets of other sizes taken out; and no subset of a
    size within the bounds is lost. *)
Theorem subset_sgs_sizes_spec (sgs : list (list (list nat))) (n_min n_max : Z) :
  (∀ g', g' ∈ subset_sgs_sizes sgs n_min n_max →
     g' ≠ [] ∧ Forall (size_ok n_min n_max) g'
     ∧ ∃ g, g ∈ sgs ∧ g' = filter (size_ok n_min n_max) g)
  ∧ (∀ g bonds, g ∈ sgs → bonds ∈ g → size_ok n_min n_max bonds →
       ∃ g', g' ∈ subset_sgs_sizes sgs n_min n_max ∧ bonds ∈ g').
Proof.
  rewrite subset_sgs_sizes_filter. split.
  - intros g' [Hne (g & -> & Hg)%list_elem_of_fmap]%list_elem_of_filter.
    split; [done|]. split; [|by exists g].
    apply Forall_forall. by intros bonds [? _]%list_elem_of_filter.
  - intros g bonds Hg Hb Hok. exists (filter (size_ok n_min n_max) g).
    assert (Hin : bonds ∈ filter (size_ok n_min n_max) g)
      by by apply list_elem_of_filter.
    split; [|done]. apply list_elem_of_filter. split.
    + intros Hnil. rewrite Hnil in Hin. by apply elem_of_nil in Hin.
    + by apply list_elem_of_fmap_2.
Qed.

(** *** The atoms of a bond subset *)

Lemma NoDup_append_new x l : NoDup l → NoDup (append_new x l).
Proof.
  intros Hnd. unfold append_new. case_decide; [done|].
  apply NoDup_app. split; [done|]. split; [|apply NoDup_singleton].
  by intros y Hy ->%list_elem_of_singleton.
Qed.

Lemma elem_of_append_new x l y : y ∈ append_new x l ↔ y = x ∨ y ∈ l.
Proof.
  unfold append_new. case_decide.
  - split; [by right|]. by intros [->|?].
  - rewrite elem_of_app, list_elem_of_singleton. tauto.
Qed.

Lemma atom_idxs_of_spec m idxs acc sel :
  atom_idxs_of m idxs acc = Ok sel →
  (NoDup acc → NoDup sel)
  ∧ ∀ a, a ∈ sel ↔
      a ∈ acc ∨ ∃ j b, j ∈ idxs ∧ bonds m !! j = Some b
                       ∧ (a = begin_atom b ∨ a = end_atom b).
Proof.
  revert acc. induction idxs as [|j idxs IH]; intros acc; simpl.
  - intros [= <-]. split; [done|]. intros a. split; [by left|].
    intros [?|(j & b & Hj & _)]; [done|]. by apply elem_of_nil in Hj.
  - unfold GetBondWithIdx. destruct (bonds m !! j) as [b|] eqn:Hb; [|done]. simpl.
    intros [Hnd Hin]%IH. split.
    + intros Hacc. by apply Hnd, NoDup_append_new, NoDup_append_new.
    + intros a. rewrite Hin, !elem_of_append_new. split.
      * intros [[->|[->|?]]|(j' & b' & Hj' & Hb' & Ha)].
        -- right. exists j, b. split; [left|]. split; [done|]. by right.
        -- right. exists j, b. split; [left|]. split; [done|]. by left.
        -- by left.
        -- right. exists j', b'. split; [by right|]. done.
      * intros [?|(j' & b' & [->|Hj']%elem_of_cons & Hb' & Ha)].
        -- left. by right; right.
        -- rewrite Hb in Hb'. injection Hb' as <-. left. destruct Ha as [-> | ->]; tauto.
        -- right. by exists j', b'.
Qed.

(** The first loop of [get_substructure] fails exactly when a bond index
    is out of range. *)
Lemma atom_idxs_of_Ok m idxs acc :
  (∃ sel, atom_idxs_of m idxs acc = Ok sel)
  ↔ Forall (λ j, (j < length (bonds m))%nat) idxs.
Proof.
  revert acc. induction idxs as [|j idxs IH]; intros acc; simpl.
  - split; [constructor|]. by exists acc.
  - unfold GetBondWithIdx. rewrite Forall_cons.
    destruct (bonds m !! j) as [b|] eqn:Hb; simpl.
    + rewrite IH. apply lookup_lt_Some in Hb. tauto.
    + apply lookup_ge_None in Hb. split; [by intros [? ?]|]. lia.
Qed.

(** *** The bonds of a match *)

Lemma elem_of_GetBonds m i j b :
  (j, b) ∈ GetBonds m i ↔ bonds m !! j = Some b ∧ (begin_atom b = i ∨ end_atom b = i).
Proof.
  unfold GetBonds. rewrite list_elem_of_filter, list_elem_of_lookup. simpl.
  setoid_rewrite list_lookup_imap. split.
  - intros [Hinc (k & Hk)]. destruct (bonds m !! k) eqn:Hb; [|done].
    by injection Hk as <- <-.
  - intros [Hb Hinc]. split; [done|]. exists j. by rewrite Hb.
Qed.

Lemma add_bond_spec atom_idx bond_idx jb :
  (NoDup bond_idx → NoDup (add_bond atom_idx bond_idx jb))
  ∧ ∀ j, j ∈ add_bond atom_idx bond_idx jb ↔
      j ∈ bond_idx
      ∨ (j = jb.1 ∧ begin_atom jb.2 ∈ atom_idx ∧ end_atom jb.2 ∈ atom_idx).
Proof.
  unfold add_bond. repeat case_decide.
  - split.
    + intros Hnd. apply NoDup_app. split; [done|]. split; [|apply NoDup_singleton].
      by intros y Hy ->%list_elem_of_singleton.
    + intros j. rewrite elem_of_app, list_elem_of_singleton. tauto.
  - split; [done|]. intros j. split; [by left|].
    intros [?|(-> & _)]; [done|]. by destruct (decide (jb.1 ∈ bond_idx)).
  - split; [done|]. intros j. tauto.
Qed.

Lemma foldl_add_bond_spec atom_idx jbs bond_idx :
  (NoDup bond_idx → NoDup (foldl (add_bond atom_idx) bond_idx jbs))
  ∧ ∀ j, j ∈ foldl (add_bond atom_idx) bond_idx jbs ↔
      j ∈ bond_idx
      ∨ ∃ b, (j, b) ∈ jbs ∧ begin_atom b ∈ atom_idx ∧ end_atom b ∈ atom_idx.
Proof.
  revert bond_idx. induction jbs as [|[j0 b0] jbs IH]; intros bond_idx; simpl.
  - split; [done|]. intros j. split; [by left|].
    intros [?|(b & Hin & _)]; [done|]. by apply elem_of_nil in Hin.
  - destruct (IH (add_bond atom_idx bond_idx (j0, b0))) as [Hnd Hin].
    destruct (add_bond_spec atom_idx bond_idx (j0, b0)) as [Hnd0 Hin0].
    split; [auto|]. intros j. rewrite Hin, Hin0. simpl. split.
    + intros [[?|(-> & ? & ?)]|(b & ? & ? & ?)].
      * by left.
      * right. exists b0. split; [left|done].
      * right. exists b. split; [by right|done].
    + intros [?|(b & [[= -> ->]|?]%elem_of_cons & ? & ?)].
      * by left; left.
      * left. by right.
      * right. by exists b.
Qed.

Lemma matched_bonds_spec ref_mol atom_idx :
  NoDup (matched_bonds ref_mol atom_idx)
  ∧ ∀ j, j ∈ matched_bonds ref_mol atom_idx ↔
      ∃ b, bonds ref_mol !! j = Some b
           ∧ begin_atom b ∈ atom_idx ∧ end_atom b ∈ atom_idx
           ∧ (begin_atom b < GetNumAtoms ref_mol ∨ end_atom b < GetNumAtoms ref_mol)%nat.
Proof.
  unfold matched_bonds.
  enough (∀ is_ bond_idx,
    (NoDup bond_idx →
     NoDup (foldl (λ bond_idx i,
                     if decide (i ∈ atom_idx)
                     then foldl (add_bond atom_idx) bond_idx (GetBonds ref_mol i)
                     else bond_idx) bond_idx is_))
    ∧ ∀ j, j ∈ foldl (λ bond_idx i,
                        if decide (i ∈ atom_idx)
                        then foldl (add_bond atom_idx) bond_idx (GetBonds ref_mol i)
                        else bond_idx) bond_idx is_ ↔
        j ∈ bond_idx
        ∨ ∃ b i, i ∈ is_ ∧ bonds ref_mol !! j = Some b
                 ∧ begin_atom b ∈ atom_idx ∧ end_atom b ∈ atom_idx
                 ∧ (begin_atom b = i ∨ end_atom b = i)) as H.
  { destruct (H (seq 0 (GetNumAtoms ref_mol)) []) as [Hnd Hin].
    split; [apply Hnd; constructor|]. intros j. rewrite Hin. split.
    - intros [Hj|(b & i & Hi & Hb & Hx & Hy & Hinc)]; [by apply elem_of_nil in Hj|].
      exists b. repeat split; try done. apply elem_of_seq in Hi.
      destruct Hinc as [-> | ->]; [left|right]; lia.
    - intros (b & Hb & Hx & Hy & Hlt). right.
      destruct Hlt as [Hlt|Hlt].
      + exists b, (begin_atom b). repeat split; try done; [|by left].
        apply elem_of_seq. lia.
      + exists b, (end_atom b). repeat split; try done; [|by right].
        apply elem_of_seq. lia. }
  induction is_ as [|i is_ IH]; intros bond_idx; simpl.
  - split; [done|]. intros j. split; [by left|].
    intros [?|(b & i & Hi & _)]; [done|]. by apply elem_of_nil in Hi.
  - case_decide as Hi.
    + destruct (foldl_add_bond_spec atom_idx (GetBonds ref_mol i) bond_idx) as [Hnd0 Hin0].
      destruct (IH (foldl (add_bond atom_idx) bond_idx (GetBonds ref_mol i))) as [Hnd Hin].
      split; [auto|]. intros j. rewrite Hin, Hin0. split.
      * intros [[?|(b & [Hb Hinc]%elem_of_GetBonds & Hx & Hy)]|(b & i' & Hi' & Hrest)].
        -- by left.
        -- right. exists b, i. split; [left|done].
        -- right. exists b, i'. split; [by right|done].
      * intros [?|(b & i' & [->|Hi']%elem_of_cons & Hb & Hx & Hy & Hinc)].
        -- by left; left.
        -- left. right. exists b. split; [by apply elem_of_GetBonds|done].
        -- right. by exists b, i'.
    + destruct (IH bond_idx) as [Hnd Hin]. split; [done|].
      intros j. rewrite Hin. split.
      * intros [?|(b & i' & Hi' & Hrest)]; [by left|].
        right. exists b, i'. split; [by right|done].
      * intros [?|(b & i' & [->|Hi']%elem_of_cons & Hb & Hx & Hy & Hinc)].
        -- by left.
        -- exfalso. apply Hi. by destruct Hinc as [<- | <-].
        -- right. by exists b, i'.
Qed.

Section matching_facts.
Variable GetSubstructMatch : mol → mol → option (list nat).

(** [get_substructure_bond_idx] returns, each once, the bonds of the
    reference molecule that run between two matched atoms; cutting the
    fragment out at these bonds raises nothing on a bond index and selects
    matched atoms only. *)
Theorem get_substructure_bond_idx_spec prb_mol ref_mol atom_idx bond_idx :
  GetSubstructMatch ref_mol prb_mol = Some atom_idx →
  get_substructure_bond_idx GetSubstructMatch prb_mol ref_mol = Some bond_idx →
  NoDup bond_idx
  ∧ (∀ j, j ∈ bond_idx ↔
       ∃ b, bonds ref_mol !! j = Some b
            ∧ begin_atom b ∈ atom_idx ∧ end_atom b ∈ atom_idx
            ∧ (begin_atom b < GetNumAtoms ref_mol
               ∨ end_atom b < GetNumAtoms ref_mol)%nat)
  ∧ ∃ sel, atom_idxs_of ref_mol bond_idx [] = Ok sel
           ∧ NoDup sel ∧ ∀ a, a ∈ sel → a ∈ atom_idx.
Proof.
  intros Hmatch. unfold get_substructure_bond_idx. rewrite Hmatch. intros [= <-].
  destruct (matched_bonds_spec ref_mol atom_idx) as [Hnd Hin].
  split; [done|]. split; [done|].
  destruct (proj2 (atom_idxs_of_Ok ref_mol (matched_bonds ref_mol atom_idx) []))
    as [sel Hsel].
  { apply Forall_forall. intros j (b & Hb & _)%Hin. by apply lookup_lt_Some in Hb. }
  exists sel. split; [done|].
  destruct (atom_idxs_of_spec _ _ _ _ Hsel) as [Hnd' Hin']. split.
  - apply Hnd'. constructor.
  - intros a [Ha|(j & b & Hj & Hb & Ha)]%Hin'; [by apply elem_of_nil in Ha|].
    apply Hin in Hj as (b' & Hb' & Hx & Hy & _).
    rewrite Hb in Hb'. injection Hb' as <-. by destruct Ha as [-> | ->].
Qed.

End matching_facts.

(** *** The atoms of the fragment *)




Lemma filter_ext_elem_of {A} (P Q : A → Prop) `{∀ x, Decision (P x)}
    `{∀ x, Decision (Q x)} (l : list A) :
  (∀ x, x ∈ l → P x ↔ Q x) → filter P l = filter Q l.
Proof.
  induction l as [|x l IH]; intros Hext; [done|].
  rewrite !filter_cons.
  rewrite IH by (intros y Hy; apply Hext; by right).
  destruct (decide (P x)) as [HP|HP], (decide (Q x)) as [HQ|HQ]; try done.
  - destruct HQ. apply Hext; [left|done].
  - destruct HP. apply Hext; [left|done].
Qed.




Section element_facts.
Variable Kekulize : mol → option mol.
Variable MolToSmiles : mol → res string.
Variable AddHs : mol → mol.
Variable dumps : lib_dict → string.
Variable get_sgs : record_dict → list (list (list nat)).

(** The symbols of the element table. *)
Lemma elements_init_keys :
  Dict.keys elements_init = ["C"; "H"; "N"; "O"; "P"; "S"; "*"]%string.
Proof. reflexivity. Qed.

Lemma count_elements_spec syms els :
  (Forall (λ sym, sym ∈ Dict.keys els) syms →
     ∃ els', count_elements syms els = Ok els'
             ∧ Dict.keys els' = Dict.keys els
             ∧ ∀ k v, Dict.get k els = Some v →
                 Dict.get k els'
                 = Some (v + Z.of_nat (length (filter (λ sym, sym = k) syms))))
  ∧ (¬ Forall (λ sym, sym ∈ Dict.keys els) syms →
     count_elements syms els = Raise KeyError).
Proof.
  revert els. induction syms as [|sym syms IH]; intros els.
  - split.
    + intros _. exists els. split; [done|]. split; [done|].
      intros k v Hk. rewrite Hk. simpl. f_equal. lia.
    + intros Hno. destruct Hno. constructor.
  - simpl. unfold count_element.
    destruct (Dict.get sym els) as [v0|] eqn:Hsym; simpl.
    + assert (Hkeys : Dict.keys (Dict.set sym (v0 + 1) els) = Dict.keys els)
        by by rewrite DictFacts.keys_set, Hsym.
      destruct (IH (Dict.set sym (v0 + 1) els)) as [IHok IHno].
      rewrite Hkeys in IHok, IHno. split.
      * intros [_ Hall]%Forall_cons. destruct (IHok Hall) as (els' & -> & Hk' & Hget).
        exists els'. split; [done|]. split; [done|]. intros k v Hk.
        destruct (decide (sym = k)) as [->|Hne].
        -- rewrite filter_cons_True by done.
           rewrite (Hget k (v0 + 1)) by apply DictFacts.get_set_eq.
           rewrite Hsym in Hk. injection Hk as ->. simpl length. f_equal. lia.
        -- rewrite filter_cons_False by done. apply Hget.
           by rewrite DictFacts.get_set_ne.
      * intros Hno. apply IHno. intros Hall. apply Hno. constructor; [|done].
        apply dec_stable. intros Hnin. apply DictFacts.get_None in Hnin. congruence.
    + split.
      * intros [Hin _]%Forall_cons. by apply DictFacts.get_None in Hsym.
      * done.
Qed.

(** [get_elements] counts the atoms of each of the seven symbols of its
    table in the molecule with hydrogens added, and raises [KeyError]
    exactly when an atom has another symbol. *)
Theorem get_elements_spec m :
  (Forall (λ sym, sym ∈ Dict.keys elements_init) (atoms (AddHs m)) →
     ∃ els, get_elements AddHs m = Ok els
            ∧ Dict.keys els = Dict.keys elements_init
            ∧ ∀ k, k ∈ Dict.keys elements_init →
                Dict.get k els
                = Some (Z.of_nat (length (filter (λ sym, sym = k) (atoms (AddHs m))))))
  ∧ (¬ Forall (λ sym, sym ∈ Dict.keys elements_init) (atoms (AddHs m)) →
     get_elements AddHs m = Raise KeyError).
Proof.
  unfold get_elements.
  destruct (count_elements_spec (atoms (AddHs m)) elements_init) as [Hok Hno].
  split; [|done]. intros Hall. destruct (Hok Hall) as (els & Hels & Hkeys & Hget).
  exists els. split; [done|]. split; [done|]. intros k Hk.
  assert (Dict.get k elements_init = Some 0) as H0.
  { rewrite elements_init_keys in Hk.
    repeat (apply elem_of_cons in Hk as [->|Hk]; [reflexivity|]).
    by apply elem_of_nil in Hk. }
  by rewrite (Hget k 0 H0), Z.add_0_l.
Qed.

Lemma add_masses_spec syms mass :
  (Forall (λ sym, sym ∈ Dict.keys elements_init) syms →
     ∃ mass', add_masses syms mass = Ok mass')
  ∧ (¬ Forall (λ sym, sym ∈ Dict.keys elements_init) syms →
     add_masses syms mass = Raise KeyError).
Proof.
  revert mass. induction syms as [|sym syms IH]; intros mass.
  - simpl. split; [by exists mass|]. intros Hno. destruct Hno. constructor.
  - cbn [add_masses]. destruct (decide (sym ≠ wildcard)) as [Hw|Hw].
    + destruct (Dict.get sym exact_mass_elements) as [x|] eqn:Hsym.
      * destruct (IH (fadd mass x)) as [IHok IHno]. split.
        -- intros [_ Hall]%Forall_cons. by apply IHok.
        -- intros Hno. apply IHno. intros Hall. apply Hno. constructor; [|done].
           apply dec_stable. intros Hnin.
           assert (Dict.get sym exact_mass_elements = None) as Hnone; [|congruence].
           apply DictFacts.get_None. exact Hnin.
      * split; [|done]. intros [Hin _]%Forall_cons.
        apply DictFacts.get_None in Hsym. destruct (Hsym Hin).
    + apply dec_stable in Hw. subst sym.
      destruct (IH mass) as [IHok IHno]. split.
      * intros [_ Hall]%Forall_cons. by apply IHok.
      * intros Hno. apply IHno. intros Hall. apply Hno. constructor; [|done].
        rewrite elements_init_keys. unfold wildcard.
        do 6 right. left.
Qed.

(** [calculate_exact_mass] and [get_elements] succeed on the same
    molecules and raise [KeyError] on the same molecules: those with an
    atom, after hydrogens are added, outside C, H, N, O, P, S and the
    wildcard. *)
Theorem element_errors_agree m :
  ((∃ mass, calculate_exact_mass AddHs m = Ok mass)
   ↔ (∃ els, get_elements AddHs m = Ok els))
  ∧ (calculate_exact_mass AddHs m = Raise KeyError
     ↔ get_elements AddHs m = Raise KeyError).
Proof.
  destruct (count_elements_spec (atoms (AddHs m)) elements_init) as [Hok Hno].
  fold (get_elements AddHs m) in Hok, Hno.
  unfold calculate_exact_mass.
  destruct (add_masses_spec (atoms (AddHs m)) (Q2Qc 0)) as [Hok' Hno'].
  destruct (decide (Forall (λ sym, sym ∈ Dict.keys elements_init) (atoms (AddHs m))))
    as [Hall|Hnall].
  - destruct (Hok Hall) as (els & Hels & _). destruct (Hok' Hall) as (mass & Hmass).
    rewrite Hels, Hmass. split; split; try done; eauto.
  - rewrite (Hno Hnall), (Hno' Hnall). split; split; try done; by intros [? ?].
Qed.

Lemma length_le_sum_values (d : list (nat * Z)) :
  Forall (λ e, 1 ≤ e.2) d → Z.of_nat (length d) ≤ sum_values d.
Proof.
  unfold sum_values, Dict.values.
  induction 1 as [|[a v] d Hv _ IH]; csimpl in *; lia.
Qed.

(** Every row of a store populated from the empty store lists its open
    attachment points once each and with a degree of at least 1; its
    [atoms_available] is their number, its [valence] the sum of their
    degrees, and so [0 <= atoms_available <= valence]. *)
Theorem stored_valence_bounds records d' :
  update_substructure_database Kekulize MolToSmiles AddHs dumps get_sgs
    records create_compound_database = Ok d' →
  ∀ r, r ∈ substructures d' →
    NoDup (Dict.keys (valence_atoms r))
    ∧ Forall (λ e, 1 ≤ e.2) (valence_atoms r)
    ∧ atoms_available r = Z.of_nat (length (valence_atoms r))
    ∧ valence r = sum_values (valence_atoms r)
    ∧ 0 ≤ atoms_available r ≤ valence r.
Proof.
  intros Hrun.
  apply (proj1 (Forall_forall
    (λ r, NoDup (Dict.keys (valence_atoms r))
          ∧ Forall (λ e, 1 ≤ e.2) (valence_atoms r)
          ∧ atoms_available r = Z.of_nat (length (valence_atoms r))
          ∧ valence r = sum_values (valence_atoms r)
          ∧ 0 ≤ atoms_available r ≤ valence r) _)).
  eapply FragmentFacts.update_substructure_database_inv; [| |exact Hrun]; [|constructor].
  intros m es l smi mass els Hget _ _ _. unfold get_substructure in Hget.
  apply res_mbind_Ok in Hget as (mol_out & _ & Hget).
  destruct (Kekulize mol_out); [|done].
  apply res_mbind_Ok in Hget as (smiles & _ & [= <-]). simpl.
  set (d := degree_atoms_of mol_out (dummies_of mol_out)).
  assert (Hnd : NoDup (Dict.keys d)).
  { unfold d. rewrite FragmentFacts.degree_atoms_of_counts.
    by apply FragmentFacts.NoDup_keys_foldl_count_up, NoDup_nil. }
  assert (Hpos : Forall (λ e, 1 ≤ e.2) d).
  { apply Forall_forall. intros [a v] Hin. simpl.
    apply DictFacts.elem_of_get in Hin; [|done]. unfold d in Hin.
    rewrite FragmentFacts.degree_atoms_of_counts, FragmentFacts.get_foldl_count_up in Hin.
    destruct (length _); [done|]. injection Hin as <-. simpl. lia. }
  split; [done|]. split; [done|]. unfold Dict.keys. rewrite length_fmap.
  split; [done|]. split; [done|]. split; [lia|].
  by apply length_le_sum_values.
Qed.

End element_facts.

Import MoreExamples.

(** Witness: of two groups, the second holds no subset of one or two
    bonds and is dropped. *)
Lemma subset_sgs_sizes_spec_witness :
  ∃ g', g' ∈ subset_sgs_sizes [[[0]; [0; 1; 2]]; [[2; 3; 4]]]%nat 1 2 ∧ [0%nat] ∈ g'.
Proof.
  apply (proj2 (subset_sgs_sizes_spec [[[0]; [0; 1; 2]]; [[2; 3; 4]]]%nat 1 2)
           [[0]; [0; 1; 2]]%nat [0%nat]).
  - left.
  - left.
  - unfold size_ok. simpl. lia.
Defined.

(** Witness: the two atoms of an ethyl probe matched on the chain. *)
Lemma get_substructure_bond_idx_spec_witness :
  NoDup [0%nat]
  ∧ (∀ j, j ∈ [0%nat] ↔
       ∃ b, bonds chain !! j = Some b
            ∧ begin_atom b ∈ [0; 1]%nat ∧ end_atom b ∈ [0; 1]%nat
            ∧ (begin_atom b < GetNumAtoms chain ∨ end_atom b < GetNumAtoms chain)%nat)
  ∧ ∃ sel, atom_idxs_of chain [0%nat] [] = Ok sel
           ∧ NoDup sel ∧ ∀ a, a ∈ sel → a ∈ [0; 1]%nat.
Proof.
  apply (get_substructure_bond_idx_spec toy_GetSubstructMatch ethyl chain
           [0; 1]%nat [0%nat]).
  - reflexivity.
  - vm_compute; reflexivity.
Defined.


(** Witness: the element counts of the chain. *)
Lemma get_elements_spec_witness :
  ∃ els, get_elements toy_AddHs chain = Ok els
         ∧ Dict.keys els = Dict.keys elements_init
         ∧ ∀ k, k ∈ Dict.keys elements_init →
             Dict.get k els
             = Some (Z.of_nat (length (filter (λ sym, sym = k) (atoms (toy_AddHs chain))))).
Proof.
  apply (proj1 (get_elements_spec toy_AddHs chain)).
  apply (bool_decide_unpack _). vm_compute. exact I.
Defined.

(** Witness: the rows of a run over a chain and a ring. *)
Lemma stored_valence_bounds_witness :
  ∃ d', update_substructure_database toy_Kekulize toy_MolToSmiles toy_AddHs toy_dumps
          toy_get_sgs [chain_record; ring_record] create_compound_database = Ok d'
        ∧ length (substructures d') = 3%nat
        ∧ ∀ r, r ∈ substructures d' →
            NoDup (Dict.keys (valence_atoms r))
            ∧ Forall (λ e, 1 ≤ e.2) (valence_atoms r)
            ∧ atoms_available r = Z.of_nat (length (valence_atoms r))
            ∧ valence r = sum_values (valence_atoms r)
            ∧ 0 ≤ atoms_available r ≤ valence r.
Proof.
  eexists. split; [vm_compute; reflexivity|]. split; [reflexivity|].
  apply (stored_valence_bounds toy_Kekulize toy_MolToSmiles toy_AddHs
           toy_dumps toy_get_sgs [chain_record; ring_record]).
  vm_compute; reflexivity.
Defined.

End FragmentMore.

(** ** More on dictionaries *)

Module DictMore.
Section dict_more.
Context {K V : Type} `{EqDecision K}.
Implicit Types (k : K) (v : V) (d : list (K * V)).

Lemma set_id k v d : Dict.get k d = Some v → Dict.set k v d = d.
Proof.
  induction d as [|[k0 v0] d IH]; simpl; [done|].
  destruct (decide (k = k0)) as [->|Hne].
  - by intros [= ->].
  - intros Hget. by rewrite IH.
Qed.

Lemma set_new k v d : Dict.get k d = None → Dict.set k v d = d ++ [(k, v)].
Proof.
  induction d as [|[k0 v0] d IH]; simpl; [done|].
  destruct (decide (k = k0)) as [->|Hne]; [done|]. intros Hget. by rewrite IH.
Qed.

Lemma get_del_ne k k' d : k ≠ k' → Dict.get k (Dict.del k' d) = Dict.get k d.
Proof.
  intros Hne. induction d as [|[k0 v0] d IH]; simpl; [done|].
  destruct (decide (k' = k0)) as [->|Hk'].
  - by rewrite decide_False.
  - simpl. by rewrite IH.
Qed.

Lemma get_del_eq k d : NoDup (Dict.keys d) → Dict.get k (Dict.del k d) = None.
Proof.
  unfold Dict.keys. induction d as [|[k0 v0] d IH]; csimpl; [done|].
  intros [Hk0 Hnd]%NoDup_cons. destruct (decide (k = k0)) as [->|Hne].
  - by apply DictFacts.get_None.
  - simpl. rewrite decide_False by done. by apply IH.
Qed.

Lemma elem_of_keys_del k k' d : k ∈ Dict.keys (Dict.del k' d) → k ∈ Dict.keys d.
Proof.
  unfold Dict.keys. induction d as [|[k0 v0] d IH]; csimpl; [done|].
  destruct (decide (k' = k0)) as [->|Hne]; csimpl.
  - by right.
  - intros [->|Hin]%elem_of_cons; [left|right; by apply IH].
Qed.

Lemma NoDup_keys_del k d : NoDup (Dict.keys d) → NoDup (Dict.keys (Dict.del k d)).
Proof.
  unfold Dict.keys. induction d as [|[k0 v0] d IH]; csimpl; [done|].
  intros [Hk0 Hnd]%NoDup_cons. destruct (decide (k = k0)) as [->|Hne]; csimpl; [done|].
  apply NoDup_cons. split; [|by apply IH].
  intros Hin. apply Hk0. by apply (elem_of_keys_del _ k).
Qed.

Lemma get_is_Some k d : is_Some (Dict.get k d) ↔ k ∈ Dict.keys d.
Proof.
  destruct (Dict.get k d) as [v|] eqn:Hget.
  - split; [|by eexists]. intros _. apply dec_stable. intros Hnin.
    apply DictFacts.get_None in Hnin. congruence.
  - split; [by intros [? ?]|]. intros Hin. by apply DictFacts.get_None in Hget.
Qed.

End dict_more.
End DictMore.

(** ** More on the isomorphism catalog *)

Module CatalogMore.
Import Catalog Configs Examples.

Section tree_more.
Context {E : Type} `{EqDecision E}.
Implicit Types (t s : tree E) (cs : list (E * tree E)) (fr p q : list E)
  (frs : list (list E)).

Lemma walks_insert_id fr t : walks fr t → insert fr t = t.
Proof.
  revert t. induction fr as [|e fr IH]; intros [cs]; simpl; [done|].
  destruct (Dict.get e cs) as [s|] eqn:Hget; [|done]. intros Hw. simpl.
  rewrite (IH s Hw). by rewrite DictMore.set_id.
Qed.

Lemma walks_insert fr t : walks fr (insert fr t).
Proof.
  revert t. induction fr as [|e fr IH]; intros [cs]; simpl; [done|].
  rewrite DictFacts.get_set_eq. apply IH.
Qed.

Lemma walks_insert_other fr fr' t : walks fr t → walks fr (insert fr' t).
Proof.
  revert fr' t. induction fr as [|e fr IH]; intros fr' [cs]; simpl; [done|].
  destruct (Dict.get e cs) as [s|] eqn:Hget; [|done]. intros Hw.
  destruct fr' as [|e' fr']; simpl.
  - by rewrite Hget.
  - destruct (decide (e' = e)) as [->|Hne].
    + rewrite DictFacts.get_set_eq, Hget. simpl. by apply IH.
    + rewrite DictFacts.get_set_ne by done. by rewrite Hget.
Qed.

Lemma walks_foldl_insert fr frs t :
  walks fr t ∨ fr ∈ frs → walks fr (foldl (λ root fr, insert fr root) t frs).
Proof.
  revert t. induction frs as [|fr' frs IH]; intros t; simpl.
  - intros [?|Hin]; [done|]. by apply elem_of_nil in Hin.
  - intros [Hw|[->|Hin]%elem_of_cons]; apply IH.
    + left. by apply walks_insert_other.
    + left. apply walks_insert.
    + by right.
Qed.

(** A sequence that was inserted before leaves the tree as it is when it
    is inserted again, whatever was inserted in between. *)
Theorem insert_again fr frs :
  fr ∈ frs → insert fr (build frs) = build frs.
Proof.
  intros Hin. apply walks_insert_id. unfold build.
  apply walks_foldl_insert. by right.
Qed.

(** Every tree yields at least one path. *)
Lemma paths_not_nil t : ∃ p, p ∈ paths t [].
Proof.
  induction t as [cs IH] using CatalogFacts.tree_induction.
  destruct cs as [|[e s] cs].
  - exists []. simpl. left.
  - apply Forall_cons in IH as [[p Hp] _]. exists (e :: p).
    apply CatalogFacts.elem_of_paths. right. exists e, s, p. split; [left|done].
Qed.

(** What a tree yields after an insertion is the inserted sequence or
    was yielded before. *)
Lemma paths_insert_sub fr t p :
  keys_unique t → p ∈ paths (insert fr t) [] → p = fr ∨ p ∈ paths t [].
Proof.
  revert t p. induction fr as [|e fr IH]; intros [cs] p Hwf; [by right|].
  pose proof (CatalogFacts.keys_unique_inv _ Hwf) as [Hnd Hcs].
  cbn [insert children]. rewrite CatalogFacts.elem_of_paths.
  intros [[Hnil _]|(e' & s' & p' & Hin & -> & Hp')].
  { by apply CatalogFacts.set_not_nil in Hnil. }
  apply DictFacts.elem_of_set in Hin as [[-> ->]|[Hne Hin]]; [| |done].
  - destruct (Dict.get e cs) as [s|] eqn:Hget; simpl in Hp'.
    + apply IH in Hp' as [->|Hp']; [by left| |].
      * right. apply CatalogFacts.elem_of_paths. right. exists e, s, p'.
        split; [by apply DictFacts.get_Some_elem_of|done].
      * apply (Hcs e s). by apply DictFacts.get_Some_elem_of.
    + left. f_equal. by apply (proj2 (CatalogFacts.insert_empty fr)).
  - right. apply CatalogFacts.elem_of_paths. right. by exists e', s', p'.
Qed.

(** What a tree yielded before an insertion it yields after it, unless it
    is a beginning of the inserted sequence, which is then yielded. *)
Lemma paths_insert_super fr t p :
  keys_unique t → p ∈ paths t [] →
  p ∈ paths (insert fr t) [] ∨ (p `prefix_of` fr ∧ fr ∈ paths (insert fr t) []).
Proof.
  revert t p. induction fr as [|e fr IH]; intros [cs] p Hwf; [by left|].
  pose proof (CatalogFacts.keys_unique_inv _ Hwf) as [Hnd Hcs].
  rewrite CatalogFacts.elem_of_paths.
  intros [[-> ->]|(e' & s' & p' & Hin & -> & Hp')].
  - right. split; [apply prefix_nil|].
    by apply (proj2 (CatalogFacts.insert_empty (e :: fr))).
  - cbn [insert children]. destruct (decide (e' = e)) as [->|Hne].
    + assert (Hget : Dict.get e cs = Some s') by by apply DictFacts.elem_of_get.
      rewrite Hget. simpl.
      destruct (IH s' p' (Hcs e s' Hin) Hp') as [Hp|[Hpre Hfr]].
      * left. apply CatalogFacts.elem_of_paths. right.
        exists e, (insert fr s'), p'.
        split; [apply DictFacts.get_Some_elem_of, DictFacts.get_set_eq|done].
      * right. split; [by apply prefix_cons|].
        apply CatalogFacts.elem_of_paths. right.
        exists e, (insert fr s'), fr.
        split; [apply DictFacts.get_Some_elem_of, DictFacts.get_set_eq|done].
    + left. apply CatalogFacts.elem_of_paths. right. exists e', s', p'.
      split; [|done]. apply DictFacts.elem_of_set; [done|]. by right.
Qed.

(** After an insertion some path yielded begins with the inserted
    sequence. *)
Lemma insert_covers fr t :
  keys_unique t → ∃ p, p ∈ paths (insert fr t) [] ∧ fr `prefix_of` p.
Proof.
  revert t. induction fr as [|e fr IH]; intros [cs] Hwf.
  - destruct (paths_not_nil (Node cs)) as [p Hp]. exists p.
    split; [done|apply prefix_nil].
  - cbn [insert children].
    destruct (IH (default (Node []) (Dict.get e cs))) as (p & Hp & Hpre).
    { by apply CatalogFacts.keys_unique_child. }
    exists (e :: p). split; [|by apply prefix_cons].
    apply CatalogFacts.elem_of_paths. right.
    exists e, (insert fr (default (Node []) (Dict.get e cs))), p.
    split; [apply DictFacts.get_Some_elem_of, DictFacts.get_set_eq|done].
Qed.

Lemma foldl_insert_paths frs t (seen : list (list E)) :
  keys_unique t →
  (∀ p, p ∈ paths t [] → p ∈ seen) →
  (∀ fr, fr ∈ seen → ∃ p, p ∈ paths t [] ∧ fr `prefix_of` p) →
  (∀ p, p ∈ paths (foldl (λ root fr, insert fr root) t frs) [] → p ∈ seen ++ frs)
  ∧ (∀ fr, fr ∈ seen ++ frs →
       ∃ p, p ∈ paths (foldl (λ root fr, insert fr root) t frs) [] ∧ fr `prefix_of` p).
Proof.
  revert t seen. induction frs as [|fr frs IH]; intros t seen Hwf Hsub Hcov; simpl.
  - rewrite app_nil_r. by split.
  - replace (seen ++ fr :: frs) with ((seen ++ [fr]) ++ frs)
      by by rewrite <- app_assoc.
    apply IH.
    + by apply CatalogFacts.keys_unique_insert.
    + intros p Hp. apply elem_of_app.
      destruct (paths_insert_sub fr t p Hwf Hp) as [-> | Hp'].
      * right. left.
      * left. by apply Hsub.
    + intros q [Hq|Hq]%elem_of_app; [|apply list_elem_of_singleton in Hq as ->].
      * destruct (Hcov q Hq) as (p & Hp & Hpre).
        destruct (paths_insert_super fr t p Hwf Hp) as [Hp'|[Hpre' Hfr]].
        -- by exists p.
        -- exists fr. split; [done|]. by etrans.
      * by apply insert_covers.
Qed.

Lemma build_cover frs :
  frs ≠ [] →
  NoDup (paths (build frs) [])
  ∧ (∀ p, p ∈ paths (build frs) [] → p ∈ frs)
  ∧ (∀ fr, fr ∈ frs → ∃ p, p ∈ paths (build frs) [] ∧ fr `prefix_of` p).
Proof.
  intros Hne. split; [apply CatalogFacts.NoDup_paths, CatalogFacts.keys_unique_build|].
  destruct frs as [|fr frs]; [done|]. unfold build. simpl.
  destruct (CatalogFacts.insert_empty fr) as [_ Hp].
  apply (foldl_insert_paths frs (insert fr (Node [])) [fr]).
  - apply CatalogFacts.keys_unique_insert. constructor; [apply NoDup_nil_2|constructor].
  - intros p Hin. apply CatalogFacts.insert_empty in Hin as ->. left.
  - intros q Hq. apply list_elem_of_singleton in Hq as ->.
    exists fr. split; [by apply Hp|done].
Qed.

(** A path yielded ends at a leaf: no sequence that can be followed in the
    tree goes on beyond it. *)
Lemma paths_maximal t p q :
  keys_unique t → p ∈ paths t [] → walks q t → p `prefix_of` q → q = p.
Proof.
  revert t q. induction p as [|e p IH]; intros [cs] q Hwf Hp Hw Hpre.
  - apply CatalogFacts.elem_of_paths in Hp as [[-> _]|(e' & s' & p' & _ & ? & _)];
      [|done].
    destruct q as [|e q]; [done|]. simpl in Hw. done.
  - pose proof (CatalogFacts.keys_unique_inv _ Hwf) as [Hnd Hcs].
    apply CatalogFacts.elem_of_paths in Hp as [[_ ?]|(e' & s' & p' & Hin & [= <- <-] & Hp')];
      [done|].
    destruct Hpre as [rest ->]. simpl in Hw |- *.
    rewrite (DictFacts.elem_of_get e s' cs Hnd Hin) in Hw. f_equal.
    apply (IH s' (p ++ rest) (Hcs e s' Hin) Hp' Hw). by exists rest.
Qed.

Lemma build_maximal frs p fr :
  p ∈ paths (build frs) [] → fr ∈ frs → p `prefix_of` fr → fr = p.
Proof.
  intros Hp Hfr Hpre.
  apply (paths_maximal (build frs) p fr); [apply CatalogFacts.keys_unique_build|done| |done].
  unfold build. apply walks_foldl_insert. by right.
Qed.

(** For sequences of any lengths: the tree built from a non-empty
    collection yields only sequences of the collection, each once, and
    every sequence of the collection is the beginning of a path yielded.
    A sequence that is a proper beginning of another one is not yielded on
    its own: a path yielded is the beginning of no other sequence of the
    collection, and the paths yielded are exactly the sequences of the
    collection that no other sequence of the collection continues. *)
Theorem paths_build_cover frs :
  frs ≠ [] →
  NoDup (paths (build frs) [])
  ∧ (∀ p, p ∈ paths (build frs) [] → p ∈ frs)
  ∧ (∀ fr, fr ∈ frs → ∃ p, p ∈ paths (build frs) [] ∧ fr `prefix_of` p)
  ∧ (∀ p fr, p ∈ paths (build frs) [] → fr ∈ frs → p `prefix_of` fr → fr = p)
  ∧ (∀ p, p ∈ paths (build frs) []
          ↔ p ∈ frs ∧ ∀ fr, fr ∈ frs → p `prefix_of` fr → fr = p).
Proof.
  intros Hne. destruct (build_cover frs Hne) as (Hnd & Hsub & Hcov).
  split; [done|]. split; [done|]. split; [done|].
  split; [intros p fr; apply build_maximal|].
  intros p. split.
  - intros Hp. split; [by apply Hsub|]. intros fr. by apply build_maximal.
  - intros [Hp Hmax]. destruct (Hcov p Hp) as (p' & Hp' & Hpre).
    by rewrite <- (Hmax p' (Hsub p' Hp') Hpre).
Qed.

End tree_more.

Section merge_more.
Context {M E : Type} `{EqDecision E}.
Variable eval : string → res M.
Variable graph_info : list M → list (string * list (list E)).
Implicit Types (cur new : list (list E)) (sg gi : list (string * list (list E)))
  (ms : list M) (lines : list string).

Lemma append_missing_id cur new :
  (∀ es, es ∈ new → es ∈ cur) → append_missing cur new = cur.
Proof.
  unfold append_missing. revert cur. induction new as [|es new IH]; intros cur Hsub; simpl.
  - done.
  - rewrite decide_True by (apply Hsub; left). apply IH.
    intros es' Hin. apply Hsub. by right.
Qed.

Lemma append_missing_twice cur new :
  append_missing (append_missing cur new) new = append_missing cur new.
Proof.
  apply append_missing_id. intros es Hin.
  apply CatalogFacts.elem_of_append_missing. by right.
Qed.

Lemma get_fold_signature gi sg vn k :
  Dict.get k (fold_signature gi sg vn)
  = if decide (k = vn) then Some (merged gi sg vn) else Dict.get k sg.
Proof.
  unfold fold_signature, merged. destruct (decide (k = vn)) as [->|Hne].
  - destruct (Dict.get vn sg); by rewrite DictFacts.get_set_eq.
  - destruct (Dict.get vn sg); by rewrite DictFacts.get_set_ne.
Qed.

Lemma merged_fold_signature gi sg vn :
  merged gi (fold_signature gi sg vn) vn = merged gi sg vn.
Proof.
  unfold merged at 1. rewrite get_fold_signature.
  rewrite (decide_True (P := vn = vn)) by done.
  unfold merged. destruct (Dict.get vn sg).
  - apply append_missing_twice.
  - by apply append_missing_id.
Qed.

Lemma get_foldl_fold_signature gi ks sg k :
  Dict.get k (foldl (fold_signature gi) sg ks)
  = if decide (k ∈ ks) then Some (merged gi sg k) else Dict.get k sg.
Proof.
  revert sg. induction ks as [|vn ks IH]; intros sg; cbn [foldl].
  - destruct (decide (k ∈ [])) as [Hin|_]; [by apply elem_of_nil in Hin|done].
  - rewrite IH. destruct (decide (k = vn)) as [->|Hne].
    + rewrite (decide_True (P := vn ∈ vn :: ks)) by left.
      rewrite merged_fold_signature, get_fold_signature.
      rewrite (decide_True (P := vn = vn)) by done.
      by destruct (decide (vn ∈ ks)).
    + assert (Hm : merged gi (fold_signature gi sg vn) k = merged gi sg k).
      { unfold merged. rewrite get_fold_signature.
        by rewrite (decide_False (P := k = vn)). }
      rewrite Hm, get_fold_signature. rewrite (decide_False (P := k = vn)) by done.
      destruct (decide (k ∈ ks)) as [Hin|Hnin].
      * rewrite decide_True; [done|]. by right.
      * rewrite decide_False; [done|]. by intros [?|?]%elem_of_cons.
Qed.

Lemma get_fold_batch ms sg k :
  Dict.get k (fold_batch graph_info ms sg)
  = match Dict.get k (graph_info ms) with
    | Some new => Some (match Dict.get k sg with
                        | Some cur => append_missing cur new
                        | None => new
                        end)
    | None => Dict.get k sg
    end.
Proof.
  unfold fold_batch. rewrite get_foldl_fold_signature. unfold merged.
  destruct (Dict.get k (graph_info ms)) as [new|] eqn:Hgi.
  - rewrite decide_True; [done|]. apply dec_stable. intros Hnin.
    apply DictFacts.get_None in Hnin. congruence.
  - rewrite decide_False; [done|]. by apply DictFacts.get_None.
Qed.

(** Folding a batch into the accumulator loses nothing and invents
    nothing: a signature is in the accumulator afterwards exactly when it
    was there before or the batch has it, and a sequence is listed under a
    signature afterwards exactly when it was listed before or the batch
    lists it there. The sequences listed before keep their places. *)
Theorem fold_batch_entries ms sg vn :
  (is_Some (Dict.get vn (fold_batch graph_info ms sg))
   ↔ is_Some (Dict.get vn sg) ∨ is_Some (Dict.get vn (graph_info ms)))
  ∧ (∀ es, es ∈ default [] (Dict.get vn (fold_batch graph_info ms sg))
           ↔ es ∈ default [] (Dict.get vn sg)
             ∨ es ∈ default [] (Dict.get vn (graph_info ms)))
  ∧ (is_Some (Dict.get vn sg) →
     default [] (Dict.get vn sg)
       `prefix_of` default [] (Dict.get vn (fold_batch graph_info ms sg))).
Proof.
  rewrite get_fold_batch.
  destruct (Dict.get vn (graph_info ms)) as [new|], (Dict.get vn sg) as [cur|]; simpl.
  - split; [|split].
    + split; eauto.
    + intros es. apply CatalogFacts.elem_of_append_missing.
    + intros _. destruct (CatalogFacts.append_missing_extends cur new) as (extra & -> & _).
      by exists extra.
  - split; [|split].
    + split; eauto.
    + intros es. split; [by right|]. intros [Hin|Hin]; [|done]. by apply elem_of_nil in Hin.
    + by intros [? ?].
  - split; [|split].
    + split; eauto.
    + intros es. split; [by left|]. intros [Hin|Hin]; [done|]. by apply elem_of_nil in Hin.
    + done.
  - split; [|split].
    + split; [by left|]. by intros [[? ?]|[? ?]].
    + intros es. split; [by left|]. by intros [?|?].
    + by intros [? ?].
Qed.

Lemma NoDup_keys_fold_batch ms sg :
  NoDup (Dict.keys sg) → NoDup (Dict.keys (fold_batch graph_info ms sg)).
Proof.
  unfold fold_batch. generalize (Dict.keys (graph_info ms)) as vns.
  intros vns. revert sg. induction vns as [|vn vns IH]; intros sg Hnd; [done|].
  cbn [foldl]. apply IH. unfold fold_signature.
  destruct (Dict.get vn sg); by apply DictFacts.NoDup_keys_set.
Qed.

(** A batch leaves every list of the accumulator a list received first,
    followed by entries added once. *)
Lemma fold_batch_first_then_new ms sg :
  (∀ vn l, Dict.get vn sg = Some l → first_then_new graph_info vn l) →
  ∀ vn l, Dict.get vn (fold_batch graph_info ms sg) = Some l →
          first_then_new graph_info vn l.
Proof.
  intros Hsg vn l. rewrite get_fold_batch.
  destruct (Dict.get vn (graph_info ms)) as [new|] eqn:Hnew;
    destruct (Dict.get vn sg) as [cur|] eqn:Hcur; try done.
  - intros [= <-].
    destruct (Hsg vn cur Hcur) as (ms0 & first & extra & Hfirst & -> & Hnd & Hex).
    destruct (CatalogFacts.append_missing_extends (first ++ extra) new)
      as (extra' & -> & Hnd' & Hex').
    exists ms0, first, (extra ++ extra'). split; [done|].
    split; [by rewrite app_assoc|]. split.
    + apply NoDup_app. split; [done|]. split; [|done].
      intros es Hes Hes'. destruct (Hex' es Hes') as [Hnot _].
      apply Hnot, elem_of_app. by right.
    + intros es [Hes|Hes]%elem_of_app; [by apply Hex|].
      destruct (Hex' es Hes) as [Hnot Hin]. split.
      * intros Hf. apply Hnot, elem_of_app. by left.
      * exists ms. by rewrite Hnew.
  - intros [= <-]. exists ms, new, []. split; [done|].
    split; [by rewrite app_nil_r|]. split; [constructor|].
    intros es Hes. by apply elem_of_nil in Hes.
  - intros [= <-]. by apply Hsg.
Qed.

(** What every batch keeps and the empty accumulator has holds of the
    accumulator the loop returns. *)
Lemma read_lines_invariant (P : list (string * list (list E)) → Prop) size lines ms sg out :
  (∀ ms sg, P sg → P (fold_batch graph_info ms sg)) →
  P sg →
  read_lines eval graph_info size lines ms sg = Ok out → P out.2.
Proof.
  intros Hstep. revert ms sg.
  induction lines as [|line lines IH]; intros ms sg Hsg; cbn [read_lines].
  - by intros [= <-].
  - destruct line as [|c line']; [done|].
    intros (ms' & _ & Hrest)%res_mbind_Ok. revert Hrest. case_decide.
    + apply IH. by apply Hstep.
    + by apply IH.
Qed.

Lemma accumulate_invariant (P : list (string * list (list E)) → Prop) size lines sg :
  (∀ ms sg, P sg → P (fold_batch graph_info ms sg)) →
  P [] →
  accumulate eval graph_info size lines = Ok sg → P sg.
Proof.
  intros Hstep Hnil. unfold accumulate. intros ([ms acc] & Hread & Hout)%res_mbind_Ok.
  apply (read_lines_invariant P) in Hread; [|done|done]. simpl in *.
  injection Hout as <-. case_decide; [|done]. by apply Hstep.
Qed.

Lemma accumulate_first_then_new size lines sg :
  accumulate eval graph_info size lines = Ok sg →
  NoDup (Dict.keys sg)
  ∧ ∀ vn l, Dict.get vn sg = Some l → first_then_new graph_info vn l.
Proof.
  apply (accumulate_invariant
           (λ sg, NoDup (Dict.keys sg)
                  ∧ ∀ vn l, Dict.get vn sg = Some l → first_then_new graph_info vn l)).
  - intros ms sg0 [Hnd Hall]. split; [by apply NoDup_keys_fold_batch|].
    by apply fold_batch_first_then_new.
  - split; [apply NoDup_nil_2|done].
Qed.


(** When every list [graph_info] returns holds each entry once, so does
    every list of the accumulator. *)
Lemma accumulate_NoDup size lines sg :
  (∀ ms vn l, Dict.get vn (graph_info ms) = Some l → NoDup l) →
  accumulate eval graph_info size lines = Ok sg →
  Forall (λ e, NoDup e.2) sg.
Proof.
  intros Hgi Hacc. destruct (accumulate_first_then_new size lines sg Hacc) as [Hnd Hall].
  apply Forall_forall. intros [vn l] Hin. simpl.
  destruct (Hall vn l (DictFacts.elem_of_get vn l sg Hnd Hin))
    as (ms & first & extra & Hfirst & -> & Hex & Hnew).
  apply NoDup_app. split; [by eapply Hgi|]. split; [|done].
  intros es Hes Hes'. by destruct (Hnew es Hes').
Qed.

Lemma lines_split lines :
  Forall (passes eval) lines
  ∨ ∃ before line after e,
      lines = before ++ line :: after ∧ Forall (passes eval) before ∧ stops eval line e.
Proof.
  induction lines as [|line lines IH]; [by left|].
  assert (Hline : passes eval line ∨ ∃ e, stops eval line e).
  { destruct line as [|c line'].
    - right. exists IndexError. by left.
    - destruct (decide (c = brace)) as [Hc|Hc].
      + destruct (eval (String c line')) as [m|e] eqn:Hev.
        * left. split; [done|]. intros _. by exists m.
        * right. exists e. right. by split.
      + left. split; [done|]. intros Hr. by destruct Hc. }
  destruct Hline as [Hline|[e Hline]].
  - destruct IH as [IH|(before & line' & after & e & -> & Hb & Hs)].
    + left. by constructor.
    + right. exists (line :: before), line', after, e. split; [done|]. split; [|done].
      by constructor.
  - right. by exists [], line, lines, e.
Qed.

Lemma read_lines_passes size lines ms sg :
  Forall (passes eval) lines → ∃ r, read_lines eval graph_info size lines ms sg = Ok r.
Proof.
  intros Hall. revert ms sg. induction Hall as [|line lines [Hne Hev] _ IH]; intros ms sg.
  - by eexists.
  - destruct line as [|c line']; [done|]. cbn [read_lines].
    destruct (decide (c = brace)) as [Hc|Hc].
    + destruct (Hev Hc) as [m ->]. cbn [mbind res_mbind res_bind].
      case_decide; apply IH.
    + cbn [mbind res_mbind res_bind]. case_decide; apply IH.
Qed.

Lemma read_lines_stops size before line after e ms sg :
  Forall (passes eval) before → stops eval line e →
  read_lines eval graph_info size (before ++ line :: after) ms sg = Raise e.
Proof.
  intros Hall Hs. revert ms sg.
  induction Hall as [|line0 before [Hne Hev] _ IH]; intros ms sg.
  - simpl. destruct Hs as [[-> ->]|[Hr Hev]]; [done|].
    destruct line as [|c line']; [done|]. simpl in Hr. cbn [read_lines].
    rewrite (decide_True (P := c = brace)) by done. by rewrite Hev.
  - destruct line0 as [|c line']; [done|]. cbn [app read_lines].
    destruct (decide (c = brace)) as [Hc|Hc].
    + destruct (Hev Hc) as [m ->]. cbn [mbind res_mbind res_bind].
      case_decide; apply IH.
    + cbn [mbind res_mbind res_bind]. case_decide; apply IH.
Qed.

Lemma accumulate_passes size lines :
  Forall (passes eval) lines → ∃ sg, accumulate eval graph_info size lines = Ok sg.
Proof.
  intros Hall. unfold accumulate.
  destruct (read_lines_passes size lines [] [] Hall) as [r ->]. by eexists.
Qed.

Lemma accumulate_stops size before line after e :
  Forall (passes eval) before → stops eval line e →
  accumulate eval graph_info size (before ++ line :: after) = Raise e.
Proof.
  intros Hall Hs. unfold accumulate.
  by rewrite (read_lines_stops size before line after e [] [] Hall Hs).
Qed.

(** The loop over the matcher output is stopped by the first line that
    is empty or is a record that [eval] refuses, wherever the line stands
    and whatever the lines after it are: by [IndexError] at an empty line
    and by the exception of [eval] at a record. When every line is
    passed, and only then, it returns an accumulator. *)
Theorem accumulate_empty_line size lines :
  (∀ e, accumulate eval graph_info size lines = Raise e
        ↔ ∃ before line after,
            lines = before ++ line :: after
            ∧ Forall (passes eval) before ∧ stops eval line e)
  ∧ ((∃ sg, accumulate eval graph_info size lines = Ok sg)
     ↔ Forall (passes eval) lines).
Proof.
  destruct (lines_split lines) as [Hall|(before & line & after & e & -> & Hb & Hs)].
  - destruct (accumulate_passes size lines Hall) as [sg Hsg]. split.
    + intros e. split; [by rewrite Hsg|].
      intros (before & line & after & -> & Hb & Hs).
      rewrite (accumulate_stops size before line after e Hb Hs) in Hsg. done.
    + split; [done|]. intros _. by exists sg.
  - pose proof (accumulate_stops size before line after e Hb Hs) as Hr. split.
    + intros e'. split.
      * rewrite Hr. intros [= <-]. by exists before, line, after.
      * intros (before' & line' & after' & Heq & Hb' & Hs').
        rewrite Heq. by apply accumulate_stops.
    + split.
      * intros [sg Hsg]. by rewrite Hr in Hsg.
      * intros Hall. destruct (accumulate_passes size _ Hall) as [sg Hsg].
        by rewrite Hr in Hsg.
Qed.

Lemma read_lines_filter size lines ms sg :
  (length ms < size)%nat →
  EmptyString ∉ lines →
  read_lines eval graph_info size lines ms sg
  = read_lines eval graph_info size (filter is_record lines) ms sg.
Proof.
  revert ms sg. induction lines as [|line lines IH]; intros ms sg Hlen Hne; [done|].
  assert (Hne' : EmptyString ∉ lines) by (intros Hin; apply Hne; by right).
  destruct line as [|c line]; [destruct Hne; left|].
  destruct (decide (c = brace)) as [Hc|Hc].
  - rewrite (filter_cons_True is_record) by exact Hc.
    cbn [read_lines]. rewrite (decide_True (P := c = brace)) by exact Hc.
    destruct (eval (String c line)) as [m|e]; [|done]. cbn [mbind res_mbind res_bind].
    destruct (decide (length (ms ++ [m]) = size)) as [Hfull|Hpart].
    + apply IH; [simpl; lia|done].
    + apply IH; [|done]. rewrite length_app in *. simpl in *. lia.
  - rewrite (filter_cons_False is_record) by exact Hc.
    cbn [read_lines]. rewrite (decide_False (P := c = brace)) by exact Hc.
    cbn [mbind res_mbind res_bind].
    rewrite (decide_False (P := length ms = size)) by lia. by apply IH.
Qed.

(** With a positive batch size and no empty line, the lines that do not
    begin with a brace have no effect on the accumulator: they are
    neither read as records nor counted towards a batch. *)
Theorem accumulate_records_only size lines :
  (0 < size)%nat →
  EmptyString ∉ lines →
  accumulate eval graph_info size lines
  = accumulate eval graph_info size (filter is_record lines).
Proof.
  intros Hsize Hne. unfold accumulate. by rewrite read_lines_filter.
Qed.

End merge_more.

Lemma get_foldl_set {R K V} `{EqDecision K} (f : R → K) (g : R → V) rows (d : list (K * V)) k :
  Dict.get k (foldl (λ d r, Dict.set (f r) (g r) d) d rows)
  = match last (filter (λ r, f r = k) rows) with
    | Some r => Some (g r)
    | None => Dict.get k d
    end.
Proof.
  induction rows as [|r rows IH] using rev_ind; [done|].
  rewrite foldl_app, filter_app. simpl. destruct (decide (f r = k)) as [<-|Hne].
  - rewrite filter_cons_True by done. rewrite filter_nil, last_snoc.
    apply DictFacts.get_set_eq.
  - rewrite filter_cons_False by done. rewrite filter_nil, app_nil_r.
    rewrite DictFacts.get_set_ne by done. apply IH.
Qed.

(** [k_configs] has one entry for each [nodes_valences] of the table, and
    its value is the [id_pkl] of the last row with that [nodes_valences]:
    the identifiers of earlier rows with the same text are lost. *)
Theorem k_configs_last records :
  NoDup (Dict.keys (k_configs records))
  ∧ (∀ k, k ∈ Dict.keys (k_configs records) ↔ k ∈ nodes_valences <$> records)
  ∧ (∀ k, Dict.get k (k_configs records)
          = id_pkl <$> last (filter (λ r, nodes_valences r = k) records)).
Proof.
  assert (Hget : ∀ k, Dict.get k (k_configs records)
          = id_pkl <$> last (filter (λ r, nodes_valences r = k) records)).
  { intros k. unfold k_configs. rewrite get_foldl_set. by destruct (last _). }
  split; [|split; [|done]].
  - clear Hget. unfold k_configs. induction records as [|r records IH] using rev_ind.
    + apply NoDup_nil_2.
    + rewrite foldl_app. simpl. by apply DictFacts.NoDup_keys_set.
  - intros k. split.
    + intros Hin. destruct (Dict.get k (k_configs records)) as [v|] eqn:Hk.
      * rewrite Hget in Hk. destruct (last _) as [r|] eqn:Hlast; [|done].
        apply last_Some_elem_of in Hlast. apply list_elem_of_filter in Hlast as [<- Hr].
        apply list_elem_of_fmap. by exists r.
      * by apply DictFacts.get_None in Hk.
    + intros (r & -> & Hr)%list_elem_of_fmap. apply dec_stable. intros Hnin.
      apply DictFacts.get_None in Hnin. rewrite Hget in Hnin.
      destruct (last _) as [r'|] eqn:Hlast; [done|]. apply last_None in Hlast.
      assert (r ∈ filter (λ r0, nodes_valences r0 = nodes_valences r) records) as Hin
        by by apply list_elem_of_filter.
      rewrite Hlast in Hin. by apply elem_of_nil in Hin.
Qed.

(** Witness: a sequence inserted first and inserted again at the end. *)
Lemma insert_again_witness :
  insert [1; 2]%nat (build [[1; 2]; [1; 3]; [4]]%nat) = build [[1; 2]; [1; 3]; [4]]%nat.
Proof.
  apply (insert_again [1; 2]%nat [[1; 2]; [1; 3]; [4]]%nat). left.
Defined.

(** Witness: sequences of three lengths, one the beginning of another. *)
Lemma paths_build_cover_witness :
  paths (build [[1]; [1; 2]; [3; 4; 5]]%nat) [] = [[1; 2]; [3; 4; 5]]%nat
  ∧ NoDup (paths (build [[1]; [1; 2]; [3; 4; 5]]%nat) [])
  ∧ (∀ p, p ∈ paths (build [[1]; [1; 2]; [3; 4; 5]]%nat) []
          → p ∈ [[1]; [1; 2]; [3; 4; 5]]%nat)
  ∧ (∀ fr, fr ∈ [[1]; [1; 2]; [3; 4; 5]]%nat
           → ∃ p, p ∈ paths (build [[1]; [1; 2]; [3; 4; 5]]%nat) [] ∧ fr `prefix_of` p)
  ∧ (∀ p fr, p ∈ paths (build [[1]; [1; 2]; [3; 4; 5]]%nat) []
             → fr ∈ [[1]; [1; 2]; [3; 4; 5]]%nat → p `prefix_of` fr → fr = p)
  ∧ (∀ p, p ∈ paths (build [[1]; [1; 2]; [3; 4; 5]]%nat) []
          ↔ p ∈ [[1]; [1; 2]; [3; 4; 5]]%nat
            ∧ ∀ fr, fr ∈ [[1]; [1; 2]; [3; 4; 5]]%nat → p `prefix_of` fr → fr = p).
Proof.
  split; [vm_compute; reflexivity|].
  apply (paths_build_cover [[1]; [1; 2]; [3; 4; 5]]%nat). discriminate.
Defined.

(** Witness: a batch of two mappings folded into an accumulator that
    holds one of them under the same signature. *)
Lemma fold_batch_entries_witness :
  default [] (Dict.get "[(1, 1)]"%string [("[(1, 1)]"%string, [[2%nat]])])
    `prefix_of`
  default [] (Dict.get "[(1, 1)]"%string
                (fold_batch toy_graph_info [[1]; [2]]%nat
                   [("[(1, 1)]"%string, [[2%nat]])])).
Proof.
  apply (proj2 (proj2 (fold_batch_entries toy_graph_info [[1]; [2]]%nat
                         [("[(1, 1)]"%string, [[2%nat]])] "[(1, 1)]"%string))).
  vm_compute. by eexists.
Defined.

(** Witness: three records and a line that is no record, in batches of
    two. *)
Lemma accumulate_records_only_witness :
  accumulate toy_eval toy_graph_info 2 ["{1}"; "x"; "{22}"; "{333}"]%string
  = accumulate toy_eval toy_graph_info 2
      (filter is_record ["{1}"; "x"; "{22}"; "{333}"]%string).
Proof.
  apply (accumulate_records_only toy_eval toy_graph_info 2
           ["{1}"; "x"; "{22}"; "{333}"]%string).
  - lia.
  - apply (bool_decide_unpack _). vm_compute. exact I.
Defined.



(** With a [graph_info] that lists each entry of a batch once, the
    mapping of the first batch met again in the second and in the last,
    partial batch is kept once. *)
Lemma accumulate_across_batches :
  accumulate toy_eval toy_graph_info 2
    ["{1}"; "{22}"; "{1}"; "{333}"; "{22}"]%string
  = Ok [("[(1, 1)]"%string, [[3%nat]; [4%nat]; [5%nat]])].
Proof. vm_compute. reflexivity. Qed.

(** A record that [eval] refuses stops the loop before the empty line
    after it is reached, and stops it as the only line as well; an empty
    line before it stops the loop with [IndexError]. *)
Lemma accumulate_refused_record :
  accumulate toy_eval toy_graph_info 2 ["{oops"; EmptyString]%string
  = Raise SyntaxError
  ∧ accumulate toy_eval toy_graph_info 2 ["{oops"]%string = Raise SyntaxError
  ∧ accumulate toy_eval toy_graph_info 2 ["{1}"; EmptyString; "{oops"]%string
    = Raise IndexError.
Proof. by vm_compute. Qed.

End CatalogMore.

(** ** The co-occurrence network in default mode *)

Module NetworkMore.
Import Store Network Cooccurrence Examples.

Implicit Types (g : graph) (a b u v n : string)
  (A : list (string * list (string * option Z))).

Lemma get_set_adj u v dd A n :
  Dict.get n (set_adj u v dd A)
  = if decide (n = u) then Some (Dict.set v dd (default [] (Dict.get u A)))
    else Dict.get n A.
Proof.
  unfold set_adj. destruct (decide (n = u)) as [->|Hne].
  - apply DictFacts.get_set_eq.
  - by apply DictFacts.get_set_ne.
Qed.

Lemma lookup_set_adj u v dd A a b :
  (Dict.get a (set_adj u v dd A) ≫= Dict.get b)
  = if decide (a = u ∧ b = v) then Some dd else (Dict.get a A ≫= Dict.get b).
Proof.
  rewrite get_set_adj.
  destruct (decide (a = u ∧ b = v)) as [[-> ->]|Hne].
  - rewrite decide_True by done. apply DictFacts.get_set_eq.
  - destruct (decide (a = u)) as [->|Ha]; [|done].
    assert (v ≠ b) by (intros ->; by apply Hne).
    cbn [mbind option_bind]. rewrite DictFacts.get_set_ne by done.
    by destruct (Dict.get u A).
Qed.

Lemma keys_set_adj u v dd A :
  NoDup (Dict.keys A) → NoDup (Dict.keys (set_adj u v dd A)).
Proof. apply DictFacts.NoDup_keys_set. Qed.

Lemma has_edge_edge_weight u v g :
  has_edge u v g = true ↔ is_Some (edge_weight u v g).
Proof.
  unfold has_edge, edge_weight, Dict.mem. destruct (Dict.get u (adj g)) as [nbrs|]; simpl.
  - destruct (Dict.get v nbrs) as [w|].
    + split; [by eexists|done].
    + split; [done|]. by intros [? ?].
  - split; [done|]. by intros [? ?].
Qed.

Lemma wt_None g a b : edge_weight a b g = None → wt g a b = 0.
Proof. unfold wt. by intros ->. Qed.

(** ** [add_node] *)

Lemma add_node_weighted n attr g :
  weighted g →
  weighted (add_node n attr g)
  ∧ (∀ a b, edge_weight a b (add_node n attr g) = edge_weight a b g)
  ∧ is_Some (Dict.get n (node (add_node n attr g)))
  ∧ (∀ m, is_Some (Dict.get m (node g)) → is_Some (Dict.get m (node (add_node n attr g)))).
Proof.
  intros [Hk Hn Hs Hp]. unfold add_node.
  destruct (Dict.get n (node g)) as [old|] eqn:Hget.
  - split; [|split; [done|split]].
    + split; simpl; [done| |done|done].
      intros m. destruct (decide (m = n)) as [->|Hne].
      * by rewrite DictFacts.get_set_eq.
      * rewrite DictFacts.get_set_ne by done. apply Hn.
    + simpl. rewrite DictFacts.get_set_eq. by eexists.
    + intros m Hm. simpl. destruct (decide (m = n)) as [->|Hne].
      * rewrite DictFacts.get_set_eq. by eexists.
      * by rewrite DictFacts.get_set_ne.
  - assert (Hew : ∀ a b,
      (Dict.get a (Dict.set n [] (adj g)) ≫= Dict.get b) = edge_weight a b g).
    { intros a b. unfold edge_weight. destruct (decide (a = n)) as [->|Hne].
      - rewrite DictFacts.get_set_eq, (Hn n Hget). done.
      - by rewrite DictFacts.get_set_ne. }
    split; [|split; [done|split]].
    + split; simpl.
      * by apply DictFacts.NoDup_keys_set.
      * intros m. destruct (decide (m = n)) as [->|Hne].
        -- by rewrite DictFacts.get_set_eq.
        -- rewrite !DictFacts.get_set_ne by done. apply Hn.
      * intros a b. unfold edge_weight. simpl. rewrite !Hew. apply Hs.
      * intros a b w. unfold edge_weight. simpl. rewrite Hew. apply Hp.
    + simpl. rewrite DictFacts.get_set_eq. by eexists.
    + intros m Hm. simpl. destruct (decide (m = n)) as [->|Hne].
      * rewrite DictFacts.get_set_eq. by eexists.
      * by rewrite DictFacts.get_set_ne.
Qed.

(** ** [link_pair] *)

(** The graph with the attribute dictionary of the edge [u]-[v] set from
    both ends. *)
Lemma set_both_weighted u v z g nodes' :
  weighted g → 0 < z →
  is_Some (Dict.get u nodes') → is_Some (Dict.get v nodes') →
  (∀ m, is_Some (Dict.get m (node g)) → is_Some (Dict.get m nodes')) →
  let g' := {| node := nodes';
               adj := set_adj v u (Some z) (set_adj u v (Some z) (adj g)) |} in
  weighted g'
  ∧ ∀ a b, edge_weight a b g'
           = if decide ((a = u ∧ b = v) ∨ (a = v ∧ b = u)) then Some (Some z)
             else edge_weight a b g.
Proof.
  intros [Hk Hn Hs Hp] Hz Hu Hv Hnodes g'.
  assert (Hew : ∀ a b, edge_weight a b g'
           = if decide ((a = u ∧ b = v) ∨ (a = v ∧ b = u)) then Some (Some z)
             else edge_weight a b g).
  { intros a b. unfold edge_weight, g'. cbn [adj]. rewrite !lookup_set_adj.
    destruct (decide (a = v ∧ b = u)) as [Hvu|Hvu].
    - rewrite decide_True; [done|]. by right.
    - destruct (decide (a = u ∧ b = v)) as [Huv|Huv].
      + rewrite decide_True; [done|]. by left.
      + rewrite decide_False; [done|]. by intros [?|?]. }
  split; [|done]. split.
  - unfold g'. cbn [adj]. by do 2 apply keys_set_adj.
  - intros m Hm. unfold g' in *. cbn [adj node] in *. rewrite !get_set_adj.
    rewrite decide_False by (intros ->; rewrite Hm in Hv; by destruct Hv).
    rewrite decide_False by (intros ->; rewrite Hm in Hu; by destruct Hu).
    apply Hn. destruct (Dict.get m (node g)) eqn:Hg; [|done].
    destruct (Hnodes m) as [? Hx]; [by eexists|]. congruence.
  - intros a b. rewrite !Hew.
    destruct (decide ((a = u ∧ b = v) ∨ (a = v ∧ b = u))) as [H1|H1].
    + rewrite decide_True; [done|]. tauto.
    + rewrite decide_False; [apply Hs|]. tauto.
  - intros a b w. rewrite Hew. case_decide.
    + intros [= <-]. by exists z.
    + apply Hp.
Qed.

Lemma link_pair_weighted g u v :
  weighted g →
  ∃ g', link_pair g u v = Ok g' ∧ weighted g'
        ∧ ∀ a b, wt g' a b
                 = wt g a b + (if decide ((a = u ∧ b = v) ∨ (a = v ∧ b = u)) then 1 else 0).
Proof.
  intros Hw. unfold link_pair. destruct (has_edge u v g) eqn:Hedge.
  - apply has_edge_edge_weight in Hedge as [w Huv].
    destruct (weighted_pos g Hw u v w Huv) as (z & -> & Hz).
    pose proof Huv as Hvu. rewrite (weighted_sym g Hw) in Hvu.
    unfold increment_weight. unfold edge_weight in Huv.
    destruct (Dict.get u (adj g)) as [nbrs|] eqn:Hu; [|done]. simpl in Huv.
    rewrite Huv. eexists. split; [done|].
    assert (HuN : is_Some (Dict.get u (node g))).
    { destruct (Dict.get u (node g)) eqn:HuN; [by eexists|].
      apply (weighted_nodes g Hw) in HuN. congruence. }
    assert (HvN : is_Some (Dict.get v (node g))).
    { destruct (Dict.get v (node g)) eqn:HvN; [by eexists|].
      apply (weighted_nodes g Hw) in HvN. unfold edge_weight in Hvu.
      by rewrite HvN in Hvu. }
    destruct (set_both_weighted u v (z + 1) g (node g) Hw ltac:(lia) HuN HvN ltac:(done))
      as [Hw' Hew].
    split; [done|]. intros a b. unfold wt. rewrite Hew.
    destruct (decide ((a = u ∧ b = v) ∨ (a = v ∧ b = u))) as [[[-> ->]|[-> ->]]|Hne].
    + unfold edge_weight. rewrite Hu. simpl. by rewrite Huv.
    + by rewrite Hvu.
    + lia.
  - assert (Huv : edge_weight u v g = None).
    { destruct (edge_weight u v g) eqn:He; [|done].
      assert (has_edge u v g = true) by (apply has_edge_edge_weight; by eexists).
      congruence. }
    eexists. split; [done|]. unfold add_edge.
    destruct (add_node_weighted u None g Hw) as (Hw1 & Hew1 & Hu1 & Hm1).
    destruct (add_node_weighted v None (add_node u None g) Hw1) as (Hw2 & Hew2 & Hv2 & Hm2).
    set (g2 := add_node v None (add_node u None g)) in *.
    destruct (set_both_weighted u v 1 g2 (node g2) Hw2 ltac:(lia) (Hm2 u Hu1) Hv2
                ltac:(done)) as [Hw' Hew].
    cbn zeta. unfold update_attr at 1 2. split; [exact Hw'|].
    intros a b. unfold wt. rewrite Hew.
    destruct (decide ((a = u ∧ b = v) ∨ (a = v ∧ b = u))) as [[[-> ->]|[-> ->]]|Hne].
    + by rewrite Huv.
    + by rewrite (weighted_sym g Hw), Huv.
    + rewrite Hew2, Hew1. lia.
Qed.

(** ** The loops of [default_substructure_network] *)

Lemma indicator_split (P1 P2 P3 : Prop) `{!Decision P1, !Decision P2, !Decision P3} :
  (P3 ↔ P1 ∨ P2) → ¬ (P1 ∧ P2) →
  (if decide P1 then 1 else 0) + (if decide P2 then 1 else 0)
  = if decide P3 then 1 else 0.
Proof. intros H3 H12. repeat case_decide; try lia; exfalso; tauto. Qed.

Lemma indicator_ext (P Q : Prop) `{!Decision P, !Decision Q} :
  (P ↔ Q) → (if decide P then 1 else 0) = (if decide Q then 1 else 0).
Proof. intros HPQ. repeat case_decide; try done; exfalso; tauto. Qed.

Lemma link_to_earlier_weighted g smi nodes :
  weighted g →
  ∃ g', link_to_earlier g smi nodes = Ok g' ∧ weighted g'
        ∧ (smi ∉ nodes → NoDup nodes →
           ∀ a b, wt g' a b
                  = wt g a b
                    + (if decide ((a = smi ∧ b ∈ nodes) ∨ (b = smi ∧ a ∈ nodes))
                       then 1 else 0)).
Proof.
  unfold link_to_earlier. revert g. induction nodes as [|n nodes IH]; intros g Hw.
  - exists g. split; [done|]. split; [done|]. intros _ _ a b.
    rewrite decide_False; [lia|]. intros [[_ H]|[_ H]]; by apply elem_of_nil in H.
  - cbn [for_each]. destruct (link_pair_weighted g smi n Hw) as (g1 & -> & Hw1 & Hwt1).
    destruct (IH g1 Hw1) as (g' & Hrun & Hw' & Hwt'). exists g'.
    split; [exact Hrun|]. split; [done|].
    intros Hnin [Hn Hnd]%NoDup_cons a b.
    apply not_elem_of_cons in Hnin as [Hne Hnin].
    rewrite (Hwt' Hnin Hnd), Hwt1, <- Z.add_assoc. f_equal.
    apply indicator_split; rewrite ?elem_of_cons;
      destruct (decide (a = n)) as [->|?], (decide (b = n)) as [->|?];
      intuition (subst; done).
Qed.

Lemma default_rows_weighted (rows : list (string * string)) g nodes :
  weighted g →
  ∃ g', for_each (λ (gn : graph * list string) l,
                    g' ← link_to_earlier gn.1 l.2 gn.2; Ok (g', gn.2 ++ [l.2]))
                 rows (g, nodes) = Ok (g', nodes ++ rows.*2)
        ∧ weighted g'
        ∧ (NoDup (nodes ++ rows.*2) →
           ∀ a b, wt g' a b
                  = wt g a b
                    + (if decide (a ≠ b ∧ a ∈ nodes ++ rows.*2 ∧ b ∈ nodes ++ rows.*2
                                  ∧ ¬ (a ∈ nodes ∧ b ∈ nodes))
                       then 1 else 0)).
Proof.
  revert g nodes. induction rows as [|[x s] rows IH]; intros g nodes Hw.
  - exists g. csimpl. rewrite app_nil_r. split; [done|]. split; [done|].
    intros _ a b. rewrite decide_False; [lia|]. tauto.
  - cbn [for_each]. cbn [fst snd].
    destruct (link_to_earlier_weighted g s nodes Hw) as (g1 & -> & Hw1 & Hwt1).
    cbn [mbind res_mbind res_bind].
    destruct (IH g1 (nodes ++ [s]) Hw1) as (g' & Hrun & Hw' & Hwt').
    replace ((nodes ++ [s]) ++ rows.*2) with (nodes ++ s :: rows.*2) in Hrun, Hwt'
      by (by rewrite <- app_assoc).
    exists g'. csimpl.
    split; [exact Hrun|]. split; [done|].
    intros Hnd a b.
    assert (Hs : (s ∉ nodes) ∧ NoDup nodes).
    { apply NoDup_app in Hnd as (Hnd1 & Hdisj & _). split; [|done].
      intros Hin. apply (Hdisj s Hin). left. }
    destruct Hs as [Hs Hnd1].
    rewrite (Hwt' Hnd), (Hwt1 Hs Hnd1), <- Z.add_assoc. f_equal.
    apply indicator_split;
      rewrite !elem_of_app, ?list_elem_of_singleton, !elem_of_cons;
      destruct (decide (a ∈ nodes)), (decide (b ∈ nodes)),
               (decide (a = s)) as [->|?], (decide (b = s)) as [->|?];
      intuition congruence.
Qed.

Lemma NoDup_rows_of (links : list (string * string)) x :
  NoDup links → NoDup (filter (λ l, l.1 = x) links).*2.
Proof.
  intros Hnd. apply (NoDup_fmap_2_strong snd).
  - intros [x1 s1] [x2 s2] [Hx1 _]%list_elem_of_filter [Hx2 _]%list_elem_of_filter Heq.
    simpl in *. congruence.
  - by apply NoDup_filter.
Qed.

Lemma elem_of_rows_of (links : list (string * string)) x a :
  a ∈ (filter (λ l, l.1 = x) links).*2 ↔ (x, a) ∈ links.
Proof.
  rewrite list_elem_of_fmap. split.
  - intros ([x' a'] & -> & [Hx Hin]%list_elem_of_filter). simpl in *. by subst.
  - intros Hin. exists (x, a). split; [done|]. by apply list_elem_of_filter.
Qed.

(** For an identifier without apostrophe the rows fetched are the rows of
    the identifier. *)
Lemma default_compound_verbatim d min_node_weight g x :
  Splice.verbatim Splice.apostrophe x →
  default_compound d min_node_weight g x
  = link_substructures (filter (λ l, l.1 = x) (filtered_links d min_node_weight)) g.
Proof.
  intros [Hnul Hdq]. unfold default_compound, Splice.literal. by rewrite Hnul, Hdq.
Qed.

Lemma unique_hmdbid_verbatim d :
  Forall (λ c, Splice.verbatim Splice.apostrophe (hmdbid c)) (compounds d) →
  Forall (Splice.verbatim Splice.apostrophe) (unique_hmdbid d).
Proof.
  intros Hall. apply Forall_forall. intros x Hx. unfold unique_hmdbid in Hx.
  apply elem_of_remove_dups, list_elem_of_fmap in Hx as (c & -> & Hc).
  by apply (proj1 (Forall_forall _ _) Hall).
Qed.

Lemma default_compound_weighted d min_node_weight g x :
  Splice.verbatim Splice.apostrophe x →
  weighted g →
  ∃ g', default_compound d min_node_weight g x = Ok g' ∧ weighted g'
        ∧ (NoDup (hmdbid_substructures d) →
           ∀ a b, wt g' a b
                  = wt g a b
                    + (if decide (a ≠ b
                                  ∧ (x, a) ∈ filtered_links d min_node_weight
                                  ∧ (x, b) ∈ filtered_links d min_node_weight)
                       then 1 else 0)).
Proof.
  intros Hx Hw. rewrite default_compound_verbatim by done. unfold link_substructures.
  destruct (default_rows_weighted
              (filter (λ l, l.1 = x) (filtered_links d min_node_weight)) g [] Hw)
    as (g' & -> & Hw' & Hwt).
  exists g'. split; [done|]. split; [done|]. intros Hnd a b.
  rewrite Hwt by (apply NoDup_rows_of; by apply NoDup_filter).
  f_equal. cbn [app]. apply indicator_ext.
  rewrite !elem_of_rows_of, !elem_of_nil. tauto.
Qed.

Lemma default_network_weighted d min_node_weight ids g :
  Forall (Splice.verbatim Splice.apostrophe) ids →
  weighted g →
  ∃ g', default_substructure_network d min_node_weight g ids = Ok g' ∧ weighted g'
        ∧ (NoDup (hmdbid_substructures d) →
           ∀ a b, wt g' a b
                  = wt g a b
                    + (if decide (a ≠ b)
                       then Z.of_nat (length (filter
                              (λ x, (x, a) ∈ filtered_links d min_node_weight
                                    ∧ (x, b) ∈ filtered_links d min_node_weight) ids))
                       else 0)).
Proof.
  unfold default_substructure_network. intros Hids. revert g.
  induction Hids as [|x ids Hvx Hids IH]; intros g Hw.
  - exists g. split; [done|]. split; [done|]. intros _ a b. case_decide; simpl; lia.
  - cbn [for_each].
    destruct (default_compound_weighted d min_node_weight g x Hvx Hw)
      as (g1 & -> & Hw1 & Hwt1).
    destruct (IH g1 Hw1) as (g' & Hrun & Hw' & Hwt'). exists g'.
    split; [exact Hrun|]. split; [done|]. intros Hnd a b.
    rewrite (Hwt' Hnd), (Hwt1 Hnd).
    destruct (decide (a ≠ b)) as [Hab|Hab].
    + destruct (decide ((x, a) ∈ filtered_links d min_node_weight
                        ∧ (x, b) ∈ filtered_links d min_node_weight)) as [Hx|Hx].
      * rewrite filter_cons_True by done. rewrite decide_True by tauto.
        simpl length. lia.
      * rewrite filter_cons_False by done. rewrite decide_False by tauto. lia.
    + rewrite decide_False by tauto. lia.
Qed.

(** ** The nodes and the isolated nodes *)

Lemma empty_graph_weighted : weighted empty_graph.
Proof.
  split; simpl; [apply NoDup_nil_2|done|done|done].
Qed.

Lemma add_nodes_weighted (l : list (string * Z)) g :
  weighted g →
  weighted (foldl (λ g e, add_node e.1 (Some e.2) g) g l)
  ∧ ∀ a b, edge_weight a b (foldl (λ g e, add_node e.1 (Some e.2) g) g l)
           = edge_weight a b g.
Proof.
  revert g. induction l as [|e l IH]; intros g Hw; [done|]. simpl.
  destruct (add_node_weighted e.1 (Some e.2) g Hw) as (Hw1 & Hew1 & _).
  destruct (IH _ Hw1) as [Hw' Hew']. split; [done|].
  intros a b. by rewrite Hew', Hew1.
Qed.

Lemma get_filter_keys {V} (P : string → Prop) `{!∀ k, Decision (P k)}
    (l : list (string * V)) k :
  Dict.get k (filter (λ e, P e.1) l) = if decide (P k) then Dict.get k l else None.
Proof.
  induction l as [|[k' v'] l IH].
  - by destruct (decide (P k)).
  - destruct (decide (P k')) as [Hk'|Hk'].
    + rewrite (filter_cons_True (λ e, P e.1)) by exact Hk'. cbn [Dict.get].
      destruct (decide (k = k')) as [->|Hne]; [|exact IH].
      by destruct (decide (P k')).
    + rewrite (filter_cons_False (λ e, P e.1)) by exact Hk'. cbn [Dict.get].
      rewrite IH. destruct (decide (k = k')) as [->|Hne]; [|done].
      by destruct (decide (P k')).
Qed.

Lemma remove_isolates_edge_weight g a b :
  weighted g → edge_weight a b (remove_isolates g) = edge_weight a b g.
Proof.
  intros Hw. unfold edge_weight, remove_isolates. cbv zeta. cbn [adj].
  pose proof (get_filter_keys (λ k, k ∉ isolates g) (adj g) a) as Hget.
  cbv beta in Hget. rewrite Hget. clear Hget.
  destruct (decide (a ∉ isolates g)) as [Hiso|Hiso]; [done|].
  apply dec_stable in Hiso.
  unfold isolates in Hiso. apply list_elem_of_fmap in Hiso as ([a' nbrs] & -> & Hin).
  apply list_elem_of_filter in Hin as [Hnil Hin]. simpl in *. subst nbrs.
  by rewrite (DictFacts.elem_of_get _ _ _ (weighted_keys g Hw) Hin).
Qed.

Lemma edge_weight_of_wt g a b z :
  weighted g → wt g a b = z →
  edge_weight a b g = if decide (0 < z) then Some (Some z) else None.
Proof.
  intros Hw. unfold wt. destruct (edge_weight a b g) as [w|] eqn:He.
  - destruct (weighted_pos g Hw a b w He) as (z' & -> & Hz'). intros <-.
    by rewrite decide_True.
  - intros <-. by rewrite decide_False.
Qed.

Lemma default_network_Ok d min_node_weight remove_isolated :
  Forall (λ c, Splice.verbatim Splice.apostrophe (hmdbid c)) (compounds d) →
  ∃ g, generate_substructure_network d method_default min_node_weight remove_isolated
       = Ok g.
Proof.
  intros Hids. unfold generate_substructure_network.
  destruct (add_nodes_weighted (filtered_hmdbid_substructures d min_node_weight)
              empty_graph empty_graph_weighted) as [Hw0 _].
  destruct (default_network_weighted d min_node_weight (unique_hmdbid d) _
              (unique_hmdbid_verbatim d Hids) Hw0)
    as (g & -> & _). by eexists.
Qed.

(** In default mode, on a store whose compound identifiers hold no
    apostrophe and no NUL character, the network is always built, whatever
    else the store holds and whichever substructures pass the filter: no
    step of the loops raises. *)
Theorem default_network_never_raises d min_node_weight remove_isolated :
  Forall (λ c, Splice.verbatim Splice.apostrophe (hmdbid c)) (compounds d) →
  ∃ g, generate_substructure_network d method_default min_node_weight remove_isolated
       = Ok g.
Proof. apply default_network_Ok. Qed.

Lemma default_network_shared d min_node_weight remove_isolated :
  Forall (λ c, Splice.verbatim Splice.apostrophe (hmdbid c)) (compounds d) →
  NoDup (hmdbid_substructures d) →
  ∃ g, generate_substructure_network d method_default min_node_weight remove_isolated
       = Ok g
       ∧ ∀ a b, edge_weight a b g
                = if decide (a ≠ b ∧ 0 < shared d min_node_weight a b)
                  then Some (Some (shared d min_node_weight a b))
                  else None.
Proof.
  intros Hids Hnd. unfold generate_substructure_network.
  destruct (add_nodes_weighted (filtered_hmdbid_substructures d min_node_weight)
              empty_graph empty_graph_weighted) as [Hw0 Hew0].
  destruct (default_network_weighted d min_node_weight (unique_hmdbid d) _
              (unique_hmdbid_verbatim d Hids) Hw0)
    as (g & -> & Hw & Hwt).
  eexists. split; [done|]. intros a b.
  assert (Hg : edge_weight a b g
               = if decide (a ≠ b ∧ 0 < shared d min_node_weight a b)
                 then Some (Some (shared d min_node_weight a b))
                 else None).
  { rewrite (edge_weight_of_wt g a b _ Hw (Hwt Hnd a b)).
    rewrite wt_None by (by rewrite Hew0). fold (shared d min_node_weight a b).
    rewrite Z.add_0_l. destruct (decide (a ≠ b)) as [Hab|Hab].
    - destruct (decide (0 < shared d min_node_weight a b)).
      + by rewrite decide_True.
      + by rewrite decide_False by tauto.
    - rewrite decide_False by lia. by rewrite decide_False by tauto. }
  destruct remove_isolated; [|done]. by rewrite remove_isolates_edge_weight.
Qed.

(** In default mode, on a store whose compound identifiers hold no
    apostrophe and no NUL character and whose link table has no row twice,
    two different substructures are joined exactly when some compound of
    the store is linked to both by rows that passed the filter, and the
    weight of the edge is the number of such compounds. No node is joined
    to itself. Removing the isolated nodes changes no edge. *)
Theorem default_network_weights d min_node_weight remove_isolated :
  Forall (λ c, Splice.verbatim Splice.apostrophe (hmdbid c)) (compounds d) →
  NoDup (hmdbid_substructures d) →
  ∃ g, generate_substructure_network d method_default min_node_weight remove_isolated
       = Ok g
       ∧ ∀ a b, edge_weight a b g
                = if decide (a ≠ b ∧ 0 < shared d min_node_weight a b)
                  then Some (Some (shared d min_node_weight a b))
                  else None.
Proof. apply default_network_shared. Qed.

(** ** The nodes in default mode *)

Lemma add_node_None_node n g :
  is_Some (Dict.get n (node g)) → node (add_node n None g) = node g.
Proof.
  intros [old Hold]. unfold add_node. rewrite Hold. simpl. by apply DictMore.set_id.
Qed.

Lemma link_pair_node g u v g' :
  is_Some (Dict.get u (node g)) → is_Some (Dict.get v (node g)) →
  link_pair g u v = Ok g' → node g' = node g.
Proof.
  intros Hu Hv. unfold link_pair. destruct (has_edge u v g).
  - unfold increment_weight. destruct (Dict.get u (adj g)) as [nbrs|]; [|done].
    destruct (Dict.get v nbrs) as [[w|]|]; [|done|done]. by intros [= <-].
  - intros [= <-]. unfold add_edge. cbn [node].
    rewrite add_node_None_node; rewrite add_node_None_node; done.
Qed.

Lemma link_to_earlier_node g smi nodes g' :
  is_Some (Dict.get smi (node g)) →
  Forall (λ n, is_Some (Dict.get n (node g))) nodes →
  link_to_earlier g smi nodes = Ok g' → node g' = node g.
Proof.
  unfold link_to_earlier. revert g. induction nodes as [|n nodes IH]; intros g Hs Hall.
  - by intros [= <-].
  - apply Forall_cons in Hall as [Hn Hall]. cbn [for_each].
    intros (g1 & H1 & Hrest)%res_mbind_Ok.
    pose proof (link_pair_node g smi n g1 Hs Hn H1) as Heq.
    rewrite <- Heq in Hs, Hall. rewrite <- Heq. by apply IH.
Qed.

Lemma default_rows_node (rows : list (string * string)) g nodes gn :
  Forall (λ n, is_Some (Dict.get n (node g))) (nodes ++ rows.*2) →
  for_each (λ (gn : graph * list string) l,
              g' ← link_to_earlier gn.1 l.2 gn.2; Ok (g', gn.2 ++ [l.2]))
           rows (g, nodes) = Ok gn →
  node gn.1 = node g.
Proof.
  revert g nodes. induction rows as [|[x s] rows IH]; intros g nodes Hall.
  - by intros [= <-].
  - cbn [for_each]. intros (gn1 & H1 & Hrest)%res_mbind_Ok.
    apply res_mbind_Ok in H1 as (g1 & H1 & [= <-]). cbn [fst snd] in *.
    csimpl in Hall. apply Forall_app in Hall as [Hnodes Hrows].
    apply Forall_cons in Hrows as [Hs Hrows].
    pose proof (link_to_earlier_node g s nodes g1 Hs Hnodes H1) as Heq.
    rewrite <- Heq. apply (IH g1 (nodes ++ [s])); [|done].
    rewrite Heq, <- app_assoc. apply Forall_app. split; [done|]. by constructor.
Qed.

Lemma default_network_node d min_node_weight ids g g' :
  (∀ l, l ∈ filtered_links d min_node_weight → is_Some (Dict.get l.2 (node g))) →
  default_substructure_network d min_node_weight g ids = Ok g' → node g' = node g.
Proof.
  unfold default_substructure_network. revert g.
  induction ids as [|x ids IH]; intros g Hall.
  - by intros [= <-].
  - cbn [for_each]. intros (g1 & H1 & Hrest)%res_mbind_Ok.
    unfold default_compound in H1. destruct (Splice.has_nul x); [done|].
    apply res_mbind_Ok in H1 as (id & _ & H1). unfold link_substructures in H1.
    apply res_mbind_Ok in H1 as (gn & H1 & [= <-]).
    apply default_rows_node in H1.
    + rewrite <- H1. apply IH; [|done]. by rewrite H1.
    + cbn [app]. apply Forall_fmap, Forall_forall. intros l [_ Hl]%list_elem_of_filter.
      by apply Hall.
Qed.

Lemma add_nodes_node (l : list (string * Z)) g :
  NoDup (Dict.keys (node g) ++ l.*1) →
  node (foldl (λ g e, add_node e.1 (Some e.2) g) g l)
  = node g ++ ((λ e, (e.1, Some e.2)) <$> l).
Proof.
  revert g. induction l as [|[n w] l IH]; intros g Hnd.
  - csimpl. by rewrite app_nil_r.
  - csimpl in *. assert (Hn : Dict.get n (node g) = None).
    { apply DictFacts.get_None. intros Hin.
      apply NoDup_app in Hnd as (_ & Hdisj & _). apply (Hdisj n Hin). left. }
    rewrite IH.
    + unfold add_node. rewrite Hn. simpl. rewrite (DictMore.set_new n _ _ Hn).
      by rewrite <- app_assoc.
    + unfold add_node. rewrite Hn. simpl. rewrite DictFacts.keys_set, Hn.
      by rewrite <- app_assoc.
Qed.

Lemma filtered_keys_NoDup d min_node_weight :
  NoDup (filtered_hmdbid_substructures d min_node_weight).*1.
Proof.
  unfold filtered_hmdbid_substructures.
  apply (NoDup_fmap_2_strong fst).
  - intros [n1 w1] [n2 w2] [_ H1]%list_elem_of_filter [_ H2]%list_elem_of_filter Heq.
    apply list_elem_of_fmap in H1 as (s1 & [= -> ->] & _).
    apply list_elem_of_fmap in H2 as (s2 & [= -> ->] & _).
    simpl in Heq. by subst.
  - apply NoDup_filter, NoDup_fmap_2_strong; [|apply NoDup_remove_dups].
    intros s1 s2 _ _ [= ->]. done.
Qed.

Lemma get_filtered d min_node_weight n :
  Dict.get n (filtered_hmdbid_substructures d min_node_weight)
  = if decide (n ∈ (hmdbid_substructures d).*2
               ∧ min_node_weight ≤ link_count n (hmdbid_substructures d))
    then Some (link_count n (hmdbid_substructures d)) else None.
Proof.
  case_decide as Hn.
  - apply DictFacts.elem_of_get; [apply filtered_keys_NoDup|].
    unfold filtered_hmdbid_substructures. apply list_elem_of_filter. split; [tauto|].
    apply list_elem_of_fmap. exists n. split; [done|].
    apply elem_of_remove_dups. tauto.
  - apply DictFacts.get_None. intros Hin. apply Hn.
    apply list_elem_of_fmap in Hin as ([n' w] & -> & Hin).
    unfold filtered_hmdbid_substructures in Hin.
    apply list_elem_of_filter in Hin as [Hw Hin].
    apply list_elem_of_fmap in Hin as (s & [= -> ->] & Hs).
    apply (proj1 (elem_of_remove_dups _ _)) in Hs. simpl in *. split; [exact Hs|exact Hw].
Qed.

Lemma get_weighted_nodes (l : list (string * Z)) n :
  Dict.get n ((λ e, (e.1, Some e.2)) <$> l) = Some <$> Dict.get n l.
Proof.
  induction l as [|[k w] l IH]; [done|]. csimpl.
  destruct (decide (n = k)); [done|exact IH].
Qed.

(** In default mode without the removal of isolated nodes, on a store
    whose compound identifiers hold no apostrophe and no NUL character,
    the nodes of the network are the substructures that occur in the link
    table at least [min_node_weight] times, and the weight of a node is
    the number of its rows in the link table; the loops that add the edges
    add no node and change no node weight. *)
Theorem default_network_nodes d min_node_weight :
  Forall (λ c, Splice.verbatim Splice.apostrophe (hmdbid c)) (compounds d) →
  ∃ g, generate_substructure_network d method_default min_node_weight false = Ok g
       ∧ ∀ n, Dict.get n (node g)
              = if decide (n ∈ (hmdbid_substructures d).*2
                           ∧ min_node_weight ≤ link_count n (hmdbid_substructures d))
                then Some (Some (link_count n (hmdbid_substructures d)))
                else None.
Proof.
  intros Hids. destruct (default_network_Ok d min_node_weight false Hids) as [g Hrun].
  exists g. split; [done|]. unfold generate_substructure_network in Hrun.
  apply res_mbind_Ok in Hrun as (g' & Hrun & [= <-]).
  assert (Hg0 : node (foldl (λ g e, add_node e.1 (Some e.2) g) empty_graph
                        (filtered_hmdbid_substructures d min_node_weight))
                = (λ e, (e.1, Some e.2)) <$> filtered_hmdbid_substructures d min_node_weight).
  { rewrite add_nodes_node; [done|]. apply filtered_keys_NoDup. }
  apply default_network_node in Hrun.
  - intros n. rewrite Hrun, Hg0, get_weighted_nodes, get_filtered. by case_decide.
  - intros [x s] Hl. rewrite Hg0, get_weighted_nodes. unfold filtered_links in Hl.
    apply list_elem_of_filter in Hl as [Hs _]. simpl in *.
    destruct (Dict.get s _) eqn:Hs'; [by eexists|].
    by apply DictFacts.get_None in Hs'.
Qed.

Import MoreExamples.

(** Witness: the store with two compounds. *)
Lemma default_network_weights_witness :
  ∃ g, generate_substructure_network two_parents method_default 1 false = Ok g
       ∧ ∀ a b, edge_weight a b g
                = if decide (a ≠ b ∧ 0 < shared two_parents 1 a b)
                  then Some (Some (shared two_parents 1 a b))
                  else None.
Proof.
  apply (default_network_weights two_parents 1 false).
  - apply (bool_decide_unpack _). vm_compute. exact I.
  - apply (bool_decide_unpack _). vm_compute. exact I.
Defined.

(** On a store whose compound identifier holds an apostrophe the default
    mode raises; the extended mode, which splices no identifier, builds
    its network. *)
Lemma default_network_apostrophe :
  generate_substructure_network apostrophe_store method_default 1 false
  = Raise OperationalError
  ∧ ∃ g, generate_substructure_network apostrophe_store method_extended 1 false = Ok g.
Proof. split; [vm_compute; reflexivity|]. eexists. vm_compute. reflexivity. Qed.

(** Witness: the store with two compounds. *)
Lemma default_network_never_raises_witness :
  ∃ g, generate_substructure_network two_parents method_default 1 true = Ok g.
Proof.
  apply (default_network_never_raises two_parents 1 true).
  apply (bool_decide_unpack _). vm_compute. exact I.
Defined.

(** Witness: the store with two compounds. *)
Lemma default_network_nodes_witness :
  ∃ g, generate_substructure_network two_parents method_default 2 false = Ok g
       ∧ ∀ n, Dict.get n (node g)
              = if decide (n ∈ (hmdbid_substructures two_parents).*2
                           ∧ 2 ≤ link_count n (hmdbid_substructures two_parents))
                then Some (Some (link_count n (hmdbid_substructures two_parents)))
                else None.
Proof.
  apply (default_network_nodes two_parents 2).
  apply (bool_decide_unpack _). vm_compute. exact I.
Defined.

(** On the store with two compounds, CC and CO share both compounds, CC
    and CN share one, and CN is linked once. *)
Lemma default_network_two_parents :
  ∃ g, generate_substructure_network two_parents method_default 1 false = Ok g
       ∧ edge_weight "CC"%string "CO"%string g = Some (Some 2)
       ∧ edge_weight "CC"%string "CN"%string g = Some (Some 1)
       ∧ Dict.get "CN"%string (node g) = Some (Some 1).
Proof. eexists. split; [vm_compute; reflexivity|]. by vm_compute. Qed.


End NetworkMore.

(** ** The co-occurrence network with parent nodes *)

Module LinkageFacts.
Import Store Network Cooccurrence Linkage Examples MoreExamples.

Implicit Types (g : graph) (a b u v n x : string)
  (A : list (string * list (string * option Z))).

(** *** Adjacencies *)

Lemma adj_ok_set_adj u v dd A : adj_ok A → adj_ok (set_adj u v dd A).
Proof.
  intros [Hk Hr]. split; [by apply NetworkMore.keys_set_adj|].
  intros a nbrs. rewrite NetworkMore.get_set_adj. case_decide as Ha; [|apply Hr].
  intros [= <-]. apply DictFacts.NoDup_keys_set.
  destruct (Dict.get u A) as [nbrs|] eqn:Hu; simpl; [by apply (Hr u)|apply NoDup_nil_2].
Qed.

Lemma get_del_adj u n A a :
  Dict.get a (del_adj u n A)
  = if decide (a = u) then Dict.del n <$> Dict.get u A else Dict.get a A.
Proof.
  unfold del_adj. destruct (Dict.get u A) as [nbrs|] eqn:Hu.
  - destruct (decide (a = u)) as [->|Hne].
    + by rewrite DictFacts.get_set_eq.
    + by rewrite DictFacts.get_set_ne.
  - by destruct (decide (a = u)) as [->|Hne].
Qed.

Lemma adj_ok_del_adj u n A : adj_ok A → adj_ok (del_adj u n A).
Proof.
  intros [Hk Hr]. split.
  - unfold del_adj. destruct (Dict.get u A); [|done]. by apply DictFacts.NoDup_keys_set.
  - intros a nbrs. rewrite get_del_adj. case_decide as Ha; [|apply Hr].
    destruct (Dict.get u A) as [nbrs'|] eqn:Hu; [|done]. intros [= <-].
    apply DictMore.NoDup_keys_del. by apply (Hr u).
Qed.

Lemma lookup_del_adj u n A a b :
  adj_ok A →
  (Dict.get a (del_adj u n A) ≫= Dict.get b)
  = if decide (a = u ∧ b = n) then None else (Dict.get a A ≫= Dict.get b).
Proof.
  intros [Hk Hr]. rewrite get_del_adj.
  destruct (decide (a = u)) as [->|Ha].
  - destruct (Dict.get u A) as [nbrs|] eqn:Hu; simpl.
    + destruct (decide (b = n)) as [->|Hb].
      * rewrite decide_True by done. apply DictMore.get_del_eq. by apply (Hr u).
      * rewrite decide_False by tauto. by apply DictMore.get_del_ne.
    + by case_decide.
  - by rewrite decide_False by tauto.
Qed.

Lemma get_del_adj_None u n A a :
  Dict.get a (del_adj u n A) = None ↔ Dict.get a A = None.
Proof.
  rewrite get_del_adj. case_decide as Ha; [subst a|done].
  by destruct (Dict.get u A).
Qed.

Lemma foldl_del_adj (us : list string) n A :
  adj_ok A →
  adj_ok (foldl (λ A u, del_adj u n A) A us)
  ∧ (∀ a, Dict.get a (foldl (λ A u, del_adj u n A) A us) = None ↔ Dict.get a A = None)
  ∧ ∀ a b, (Dict.get a (foldl (λ A u, del_adj u n A) A us) ≫= Dict.get b)
           = if decide (a ∈ us ∧ b = n) then None else (Dict.get a A ≫= Dict.get b).
Proof.
  revert A. induction us as [|u us IH]; intros A HA.
  - split; [done|]. split; [done|]. intros a b. rewrite decide_False; [done|].
    intros [Hin _]. by apply elem_of_nil in Hin.
  - cbn [foldl]. destruct (IH (del_adj u n A) (adj_ok_del_adj u n A HA)) as (H1 & H2 & H3).
    split; [done|]. split.
    + intros a. rewrite H2. apply get_del_adj_None.
    + intros a b. rewrite H3, lookup_del_adj by done.
      destruct (decide (a ∈ us ∧ b = n)) as [[Hin ->]|Hnin].
      * rewrite decide_True; [done|]. split; [by right|done].
      * destruct (decide (a = u ∧ b = n)) as [[-> ->]|Hne].
        -- rewrite decide_True; [done|]. split; [left|done].
        -- rewrite decide_False; [done|].
           intros [[->|Hin]%elem_of_cons ->]; tauto.
Qed.

Lemma foldl_del_loops (sl : list string) A :
  adj_ok A →
  adj_ok (foldl (λ A n, del_adj n n A) A sl)
  ∧ ∀ a b, (Dict.get a (foldl (λ A n, del_adj n n A) A sl) ≫= Dict.get b)
           = if decide (a ∈ sl ∧ b = a) then None else (Dict.get a A ≫= Dict.get b).
Proof.
  revert A. induction sl as [|n sl IH]; intros A HA.
  - split; [done|]. intros a b. rewrite decide_False; [done|].
    intros [Hin _]. by apply elem_of_nil in Hin.
  - cbn [foldl]. destruct (IH (del_adj n n A) (adj_ok_del_adj n n A HA)) as (H1 & H3).
    split; [done|].
    intros a b. rewrite H3, lookup_del_adj by done.
    destruct (decide (a ∈ sl ∧ b = a)) as [[Hin ->]|Hnin].
    + rewrite decide_True; [done|]. split; [by right|done].
    + destruct (decide (a = n ∧ b = n)) as [[-> ->]|Hne].
      * rewrite decide_True; [done|]. split; [left|done].
      * rewrite decide_False; [done|].
        intros [[->|Hin]%elem_of_cons ->]; tauto.
Qed.

(** *** Nodes and edges *)

Lemma empty_graph_consistent : consistent empty_graph.
Proof.
  split; simpl; [apply NoDup_nil_2| |done|done].
  split; [apply NoDup_nil_2|done].
Qed.

Lemma add_node_consistent n attr g :
  consistent g →
  consistent (add_node n attr g)
  ∧ (∀ a b, edge_weight a b (add_node n attr g) = edge_weight a b g)
  ∧ is_Some (Dict.get n (node (add_node n attr g)))
  ∧ (∀ m, is_Some (Dict.get m (node g)) → is_Some (Dict.get m (node (add_node n attr g)))).
Proof.
  intros [Hnode [Hk Hr] Hn Hs]. unfold add_node.
  destruct (Dict.get n (node g)) as [old|] eqn:Hget.
  - split; [|split; [done|split]].
    + split; simpl; [by apply DictFacts.NoDup_keys_set|done| |done].
      intros m. rewrite <- Hn. destruct (decide (m = n)) as [->|Hne].
      * rewrite DictFacts.get_set_eq, Hget. done.
      * by rewrite DictFacts.get_set_ne.
    + simpl. rewrite DictFacts.get_set_eq. by eexists.
    + intros m Hm. simpl. destruct (decide (m = n)) as [->|Hne].
      * rewrite DictFacts.get_set_eq. by eexists.
      * by rewrite DictFacts.get_set_ne.
  - assert (HnA : Dict.get n (adj g) = None) by by apply Hn.
    assert (Hew : ∀ a b,
      (Dict.get a (Dict.set n [] (adj g)) ≫= Dict.get b) = edge_weight a b g).
    { intros a b. unfold edge_weight. destruct (decide (a = n)) as [->|Hne].
      - by rewrite DictFacts.get_set_eq, HnA.
      - by rewrite DictFacts.get_set_ne. }
    split; [|split; [done|split]].
    + split; simpl.
      * by apply DictFacts.NoDup_keys_set.
      * split; [by apply DictFacts.NoDup_keys_set|].
        intros a nbrs. destruct (decide (a = n)) as [->|Hne].
        -- rewrite DictFacts.get_set_eq. intros [= <-]. apply NoDup_nil_2.
        -- rewrite DictFacts.get_set_ne by done. apply Hr.
      * intros m. destruct (decide (m = n)) as [->|Hne].
        -- by rewrite !DictFacts.get_set_eq.
        -- rewrite !DictFacts.get_set_ne by done. apply Hn.
      * intros a b. unfold edge_weight. simpl. rewrite !Hew. apply Hs.
    + simpl. rewrite DictFacts.get_set_eq. by eexists.
    + intros m Hm. simpl. destruct (decide (m = n)) as [->|Hne].
      * rewrite DictFacts.get_set_eq. by eexists.
      * by rewrite DictFacts.get_set_ne.
Qed.

Lemma add_nodes_consistent {X} (f : X → string) (attr : X → option Z) (l : list X) g :
  consistent g →
  consistent (foldl (λ g e, add_node (f e) (attr e) g) g l)
  ∧ (∀ a b, edge_weight a b (foldl (λ g e, add_node (f e) (attr e) g) g l)
            = edge_weight a b g)
  ∧ (∀ e, e ∈ l →
       is_Some (Dict.get (f e) (node (foldl (λ g e, add_node (f e) (attr e) g) g l))))
  ∧ (∀ m, is_Some (Dict.get m (node g)) →
       is_Some (Dict.get m (node (foldl (λ g e, add_node (f e) (attr e) g) g l)))).
Proof.
  revert g. induction l as [|e l IH]; intros g Hc.
  - split; [done|]. split; [done|]. split; [|done]. by intros e ?%elem_of_nil.
  - cbn [foldl].
    destruct (add_node_consistent (f e) (attr e) g Hc) as (Hc1 & Hew1 & He1 & Hm1).
    destruct (IH _ Hc1) as (Hc' & Hew' & He' & Hm'). split; [done|]. split; [|split].
    + intros a b. by rewrite Hew', Hew1.
    + intros e' [->|Hin]%elem_of_cons; [by apply Hm'|by apply He'].
    + intros m Hm. by apply Hm', Hm1.
Qed.

(** The graph with the attribute dictionary of the edge [u]-[v] set from
    both ends. *)
Lemma set_both_consistent u v dd g :
  consistent g →
  is_Some (Dict.get u (node g)) → is_Some (Dict.get v (node g)) →
  let g' := {| node := node g;
               adj := set_adj v u dd (set_adj u v dd (adj g)) |} in
  consistent g'
  ∧ ∀ a b, edge_weight a b g'
           = if decide ((a = u ∧ b = v) ∨ (a = v ∧ b = u)) then Some dd
             else edge_weight a b g.
Proof.
  intros [Hnode HA Hn Hs] Hu Hv g'.
  assert (Hew : ∀ a b, edge_weight a b g'
           = if decide ((a = u ∧ b = v) ∨ (a = v ∧ b = u)) then Some dd
             else edge_weight a b g).
  { intros a b. unfold edge_weight, g'. cbn [adj]. rewrite !NetworkMore.lookup_set_adj.
    destruct (decide (a = v ∧ b = u)) as [Hvu|Hvu].
    - rewrite decide_True; [done|]. by right.
    - destruct (decide (a = u ∧ b = v)) as [Huv|Huv].
      + rewrite decide_True; [done|]. by left.
      + rewrite decide_False; [done|]. by intros [?|?]. }
  split; [|done]. split.
  - done.
  - unfold g'. cbn [adj]. by do 2 apply adj_ok_set_adj.
  - intros m. unfold g'. cbn [adj node]. rewrite !NetworkMore.get_set_adj.
    destruct (decide (m = v)) as [->|Hmv].
    { split; [|done]. intros Hm. rewrite Hm in Hv. by destruct Hv. }
    destruct (decide (m = u)) as [->|Hmu].
    { split; [|done]. intros Hm. rewrite Hm in Hu. by destruct Hu. }
    apply Hn.
  - intros a b. rewrite !Hew.
    destruct (decide ((a = u ∧ b = v) ∨ (a = v ∧ b = u))) as [H1|H1].
    + rewrite decide_True; [done|]. tauto.
    + rewrite decide_False; [apply Hs|]. tauto.
Qed.

Lemma is_node g a b : consistent g → is_Some (edge_weight a b g) → is_Some (Dict.get a (node g)).
Proof.
  intros Hc [w Hw]. destruct (Dict.get a (node g)) eqn:Ha; [by eexists|].
  apply (consistent_nodes g Hc) in Ha. unfold edge_weight in Hw. by rewrite Ha in Hw.
Qed.

Lemma add_edge_consistent u v attr g :
  consistent g →
  consistent (add_edge u v attr g)
  ∧ (∀ a b, edge_weight a b (add_edge u v attr g)
            = if decide ((a = u ∧ b = v) ∨ (a = v ∧ b = u))
              then Some (update_attr (default None (edge_weight u v g)) attr)
              else edge_weight a b g)
  ∧ (∀ m, is_Some (Dict.get m (node g)) → is_Some (Dict.get m (node (add_edge u v attr g)))).
Proof.
  intros Hc. unfold add_edge.
  destruct (add_node_consistent u None g Hc) as (Hc1 & Hew1 & Hu1 & Hm1).
  destruct (add_node_consistent v None (add_node u None g) Hc1) as (Hc2 & Hew2 & Hv2 & Hm2).
  set (g2 := add_node v None (add_node u None g)) in *. cbv zeta.
  set (dd := update_attr _ attr).
  assert (Hdd : dd = update_attr (default None (edge_weight u v g)) attr).
  { unfold dd. f_equal. rewrite <- Hew1, <- Hew2. fold g2. unfold edge_weight.
    by destruct (Dict.get u (adj g2)). }
  destruct (set_both_consistent u v dd g2 Hc2 (Hm2 u Hu1) Hv2) as [Hc' Hew].
  split; [exact Hc'|]. split.
  - intros a b. rewrite Hew, Hdd, Hew2, Hew1. done.
  - intros m Hm. cbn [node]. by apply Hm2, Hm1.
Qed.

Lemma link_pair_consistent g u v :
  consistent g →
  (∀ w, edge_weight u v g = Some w → is_Some w) →
  ∃ g', link_pair g u v = Ok g' ∧ consistent g'
        ∧ (∀ a b, edge_weight a b g'
                  = if decide ((a = u ∧ b = v) ∨ (a = v ∧ b = u))
                    then Some (Some (wt g u v + 1))
                    else edge_weight a b g)
        ∧ (∀ m, is_Some (Dict.get m (node g)) → is_Some (Dict.get m (node g'))).
Proof.
  intros Hc Hw. unfold link_pair. destruct (has_edge u v g) eqn:Hedge.
  - apply NetworkMore.has_edge_edge_weight in Hedge as [w Huv].
    destruct (Hw w Huv) as [z ->].
    pose proof Huv as Hvu. rewrite (consistent_sym g Hc) in Hvu.
    unfold increment_weight. pose proof Huv as Huv'. unfold edge_weight in Huv'.
    destruct (Dict.get u (adj g)) as [nbrs|] eqn:Hu; [|done]. simpl in Huv'.
    rewrite Huv'. eexists. split; [done|].
    destruct (set_both_consistent u v (Some (z + 1)) g Hc) as [Hc' Hew].
    { apply (is_node g u v Hc). by eexists. }
    { apply (is_node g v u Hc). by eexists. }
    split; [exact Hc'|]. split; [|done].
    intros a b. rewrite Hew. unfold wt. by rewrite Huv.
  - assert (Huv : edge_weight u v g = None).
    { destruct (edge_weight u v g) eqn:He; [|done].
      assert (has_edge u v g = true) by (apply NetworkMore.has_edge_edge_weight; by eexists).
      congruence. }
    eexists. split; [done|].
    destruct (add_edge_consistent u v (Some 1) g Hc) as (Hc' & Hew & Hm).
    split; [done|]. split; [|done]. intros a b. rewrite Hew. unfold wt. by rewrite Huv.
Qed.

Lemma remove_node_consistent x g :
  consistent g → is_Some (Dict.get x (adj g)) →
  ∃ g', remove_node x g = Ok g' ∧ consistent g'
        ∧ (∀ a b, edge_weight a b g'
                  = if decide (a = x ∨ b = x) then None else edge_weight a b g)
        ∧ (∀ m, m ≠ x → (Dict.get m (adj g') = None ↔ Dict.get m (adj g) = None)).
Proof.
  intros [Hnode HA Hn Hs] [nbrs Hx]. unfold remove_node. rewrite Hx.
  eexists. split; [done|].
  destruct (foldl_del_adj (Dict.keys nbrs) x (adj g) HA) as (HA1 & Hnone & Hlook).
  set (A1 := foldl (λ A u, del_adj u x A) (adj g) (Dict.keys nbrs)) in *.
  assert (Hew : ∀ a b, (Dict.get a (Dict.del x A1) ≫= Dict.get b)
                       = if decide (a = x ∨ b = x) then None else edge_weight a b g).
  { intros a b. destruct (decide (a = x)) as [->|Ha].
    - rewrite DictMore.get_del_eq by apply HA1. by rewrite decide_True by by left.
    - rewrite DictMore.get_del_ne, Hlook by done.
      destruct (decide (b = x)) as [->|Hb].
      + rewrite (decide_True (P := a = x ∨ x = x)) by by right.
        case_decide as Hin; [done|].
        assert (Hax : edge_weight x a g = None).
        { unfold edge_weight. rewrite Hx. simpl. apply DictFacts.get_None. tauto. }
        rewrite <- Hs in Hax. exact Hax.
      + rewrite decide_False by tauto. by rewrite decide_False by tauto. }
  split; [|split; [exact Hew|]].
  - split; cbn [node adj].
    + by apply DictMore.NoDup_keys_del.
    + split; [apply DictMore.NoDup_keys_del, HA1|].
      intros a nbrs'. destruct (decide (a = x)) as [->|Ha].
      * by rewrite DictMore.get_del_eq by apply HA1.
      * rewrite DictMore.get_del_ne by done. apply HA1.
    + intros m. destruct (decide (m = x)) as [->|Hm].
      * by rewrite !DictMore.get_del_eq by (done || apply HA1).
      * rewrite !DictMore.get_del_ne by done. rewrite Hnone. apply Hn.
    + intros a b. unfold edge_weight. cbn [adj]. rewrite !Hew.
      destruct (decide (a = x ∨ b = x)) as [H1|H1].
      * rewrite decide_True; [done|]. tauto.
      * rewrite decide_False; [apply Hs|]. tauto.
  - intros m Hm. cbn [adj]. rewrite DictMore.get_del_ne by done. apply Hnone.
Qed.

Lemma elem_of_selfloop_nodes g a :
  NoDup (Dict.keys (adj g)) → a ∈ selfloop_nodes g ↔ is_Some (edge_weight a a g).
Proof.
  intros Hk. unfold selfloop_nodes, edge_weight, Dict.mem. rewrite list_elem_of_fmap. split.
  - intros ([a' nbrs] & -> & [Hmem Hin]%list_elem_of_filter). simpl in *.
    rewrite (DictFacts.elem_of_get _ _ _ Hk Hin). simpl.
    by destruct (Dict.get a' nbrs); [eexists|].
  - intros [w Hw]. destruct (Dict.get a (adj g)) as [nbrs|] eqn:Ha; [|done].
    simpl in Hw. exists (a, nbrs). split; [done|]. apply list_elem_of_filter. split.
    + simpl. by rewrite Hw.
    + by apply DictFacts.get_Some_elem_of.
Qed.

Lemma remove_selfloops_edge_weight g a b :
  consistent g →
  edge_weight a b (remove_selfloops g)
  = if decide (a = b) then None else edge_weight a b g.
Proof.
  intros Hc. unfold remove_selfloops. unfold edge_weight at 1. cbn [adj].
  destruct (foldl_del_loops (selfloop_nodes g) (adj g) (consistent_adj g Hc)) as [_ ->].
  fold (edge_weight a b g). destruct (decide (a = b)) as [->|Hne].
  - case_decide as Hin; [done|].
    destruct (edge_weight b b g) eqn:Hb; [|done]. destruct Hin. split; [|done].
    apply elem_of_selfloop_nodes; [apply (consistent_adj g Hc)|]. by eexists.
  - rewrite decide_False; [done|]. by intros [_ ->].
Qed.

Lemma remove_isolates_lookup g a b :
  NoDup (Dict.keys (adj g)) → edge_weight a b (remove_isolates g) = edge_weight a b g.
Proof.
  intros Hk. unfold edge_weight, remove_isolates. cbv zeta. cbn [adj].
  pose proof (NetworkMore.get_filter_keys (λ k, k ∉ isolates g) (adj g) a) as Hget.
  cbv beta in Hget. rewrite Hget. clear Hget.
  destruct (decide (a ∉ isolates g)) as [Hiso|Hiso]; [done|].
  apply dec_stable in Hiso.
  unfold isolates in Hiso. apply list_elem_of_fmap in Hiso as ([a' nbrs] & -> & Hin).
  apply list_elem_of_filter in Hin as [Hnil Hin]. simpl in *. subst nbrs.
  by rewrite (DictFacts.elem_of_get _ _ _ Hk Hin).
Qed.

(** *** The links between parents and substructures *)

Lemma add_edges_plain (ls : list (string * string)) g :
  consistent g → plain g →
  consistent (foldl (λ g l, add_edge l.1 l.2 None g) g ls)
  ∧ plain (foldl (λ g l, add_edge l.1 l.2 None g) g ls)
  ∧ (∀ a b, edge_weight a b (foldl (λ g l, add_edge l.1 l.2 None g) g ls)
            = if decide ((a, b) ∈ ls ∨ (b, a) ∈ ls) then Some None
              else edge_weight a b g)
  ∧ (∀ m, is_Some (Dict.get m (node g)) →
       is_Some (Dict.get m (node (foldl (λ g l, add_edge l.1 l.2 None g) g ls)))).
Proof.
  revert g. induction ls as [|[x s] ls IH]; intros g Hc Hp.
  - split; [done|]. split; [done|]. split; [|done]. intros a b.
    rewrite decide_False; [done|]. intros [H|H]; by apply elem_of_nil in H.
  - cbn [foldl fst snd].
    destruct (add_edge_consistent x s None g Hc) as (Hc1 & Hew1 & Hm1).
    assert (Hold : update_attr (default None (edge_weight x s g)) None = None).
    { destruct (edge_weight x s g) as [w|] eqn:Hw; [|done]. by rewrite (Hp x s w Hw). }
    rewrite Hold in Hew1.
    assert (Hp1 : plain (add_edge x s None g)).
    { intros a b w. rewrite Hew1. case_decide; [by intros [= <-]|apply Hp]. }
    destruct (IH _ Hc1 Hp1) as (Hc' & Hp' & Hew' & Hm').
    split; [done|]. split; [done|]. split; [|by intros m Hm; apply Hm', Hm1].
    intros a b. rewrite Hew', Hew1.
    destruct (decide ((a, b) ∈ ls ∨ (b, a) ∈ ls)) as [Hin|Hnin].
    + rewrite decide_True; [done|]. destruct Hin; [left|right]; by right.
    + destruct (decide ((a = x ∧ b = s) ∨ (a = s ∧ b = x))) as [Heq|Hne].
      * rewrite decide_True; [done|]. destruct Heq as [[-> ->]|[-> ->]]; [left|right]; left.
      * destruct (edge_weight a b g) as [w|] eqn:Hw.
        -- rewrite (Hp a b w Hw). by case_decide.
        -- rewrite decide_False; [done|].
           intros [[[= -> ->]|Hin]%elem_of_cons|[[= -> ->]|Hin]%elem_of_cons]; tauto.
Qed.

(** The graph before the edges are added: the substructures that passed
    the filter, then the parents. *)
Lemma nodes_consistent d min_node_weight (ids : list string) :
  let g := foldl (λ g x, add_node x None g)
             (foldl (λ g e, add_node e.1 (Some e.2) g) empty_graph
                (filtered_hmdbid_substructures d min_node_weight)) ids in
  consistent g ∧ (∀ a b, edge_weight a b g = None)
  ∧ ∀ x, x ∈ ids → is_Some (Dict.get x (node g)).
Proof.
  destruct (add_nodes_consistent (λ e : string * Z, e.1) (λ e, Some e.2)
              (filtered_hmdbid_substructures d min_node_weight) empty_graph
              empty_graph_consistent) as (Hc0 & Hew0 & _).
  destruct (add_nodes_consistent (λ x : string, x) (λ _, None) ids _ Hc0)
    as (Hc1 & Hew1 & Hin1 & _).
  cbv zeta. split; [exact Hc1|]. split; [|exact Hin1].
  intros a b. by rewrite Hew1, Hew0.
Qed.

Lemma linked_graph d min_node_weight (ids : list string) :
  let g := foldl (λ g l, add_edge l.1 l.2 None g)
             (foldl (λ g x, add_node x None g)
                (foldl (λ g e, add_node e.1 (Some e.2) g) empty_graph
                   (filtered_hmdbid_substructures d min_node_weight)) ids)
             (filtered_links d min_node_weight) in
  consistent g
  ∧ (∀ a b, edge_weight a b g
            = if decide ((a, b) ∈ filtered_links d min_node_weight
                         ∨ (b, a) ∈ filtered_links d min_node_weight)
              then Some None else None)
  ∧ ∀ x, x ∈ ids → is_Some (Dict.get x (node g)).
Proof.
  destruct (nodes_consistent d min_node_weight ids) as (Hc1 & Hew1 & Hin1).
  cbv zeta in *.
  destruct (add_edges_plain (filtered_links d min_node_weight) _ Hc1) as (Hc & _ & Hew & Hm).
  { intros a b w. by rewrite Hew1. }
  split; [exact Hc|]. split.
  - intros a b. by rewrite Hew, Hew1.
  - intros x Hx. by apply Hm, Hin1.
Qed.

(** With the parents kept, the network is always built, and its edges are
    the rows of the link table whose substructure passed the filter, each
    joining a compound and a substructure; no edge carries a weight.
    Removing the isolated nodes changes no edge. *)
Theorem linkage_network_edges d min_node_weight remove_isolated :
  ∃ g, generate_substructure_network d method_parent_structure_linkage
         min_node_weight remove_isolated = Ok g
       ∧ ∀ a b, edge_weight a b g
                = if decide ((a, b) ∈ filtered_links d min_node_weight
                             ∨ (b, a) ∈ filtered_links d min_node_weight)
                  then Some None else None.
Proof.
  unfold generate_substructure_network, extended_substructure_network. cbv zeta.
  cbn [negb]. cbn [mbind res_mbind res_bind]. eexists. split; [done|].
  destruct (linked_graph d min_node_weight (unique_hmdbid d)) as (Hc & Hew & _).
  cbv zeta in *. intros a b.
  destruct remove_isolated; [|apply Hew].
  rewrite remove_isolates_lookup; [apply Hew|]. apply (consistent_adj _ Hc).
Qed.

(** *** Replacing a parent by links between its neighbours *)

Lemma wt_nonneg l2 g a b : positive l2 g → a ∈ l2 → b ∈ l2 → 0 ≤ wt g a b.
Proof.
  intros Hp Ha Hb. unfold wt. destruct (edge_weight a b g) as [w|] eqn:Hw; [|done].
  destruct (Hp a b w Ha Hb Hw) as (z & -> & Hz). lia.
Qed.

Lemma wt_sym g a b : consistent g → wt g a b = wt g b a.
Proof. intros Hc. unfold wt. by rewrite (consistent_sym g Hc). Qed.

Lemma edge_weight_wt l2 g a b :
  positive l2 g → a ∈ l2 → b ∈ l2 →
  edge_weight a b g = if decide (0 < wt g a b) then Some (Some (wt g a b)) else None.
Proof.
  intros Hp Ha Hb. unfold wt. destruct (edge_weight a b g) as [w|] eqn:Hw.
  - destruct (Hp a b w Ha Hb Hw) as (z & -> & Hz). by rewrite decide_True.
  - by rewrite decide_False.
Qed.

Lemma link_pair_positive l2 g u v :
  consistent g → positive l2 g → u ∈ l2 → v ∈ l2 →
  ∃ g', link_pair g u v = Ok g' ∧ consistent g' ∧ positive l2 g'
        ∧ (∀ a b, ¬ (a ∈ l2 ∧ b ∈ l2) → edge_weight a b g' = edge_weight a b g)
        ∧ (∀ a b, wt g' a b
                  = wt g a b + (if decide ((a = u ∧ b = v) ∨ (a = v ∧ b = u)) then 1 else 0))
        ∧ (∀ m, is_Some (Dict.get m (node g)) → is_Some (Dict.get m (node g'))).
Proof.
  intros Hc Hp Hu Hv.
  destruct (link_pair_consistent g u v Hc) as (g' & Hrun & Hc' & Hew & Hm).
  { intros w Hw. destruct (Hp u v w Hu Hv Hw) as (z & -> & _). by eexists. }
  exists g'. split; [done|]. split; [done|].
  pose proof (wt_nonneg l2 g u v Hp Hu Hv) as Hnn.
  split; [|split; [|split; [|done]]].
  - intros a b w Ha Hb. rewrite Hew. case_decide.
    + intros [= <-]. eexists. split; [done|]. lia.
    + by apply Hp.
  - intros a b Hab. rewrite Hew. rewrite decide_False; [done|].
    intros [[-> ->]|[-> ->]]; tauto.
  - intros a b. unfold wt at 1. rewrite Hew.
    destruct (decide ((a = u ∧ b = v) ∨ (a = v ∧ b = u))) as [[[-> ->]|[-> ->]]|Hne].
    + done.
    + by rewrite (wt_sym g v u).
    + fold (wt g a b). lia.
Qed.

Lemma link_row l2 g s1 (ks : list string) :
  consistent g → positive l2 g → s1 ∈ l2 → (∀ s, s ∈ ks → s ∈ l2) → NoDup ks →
  ∃ g', for_each (λ g adj2, link_pair g s1 adj2) ks g = Ok g'
        ∧ consistent g' ∧ positive l2 g'
        ∧ (∀ a b, ¬ (a ∈ l2 ∧ b ∈ l2) → edge_weight a b g' = edge_weight a b g)
        ∧ (∀ a b, wt g' a b
                  = wt g a b + (if decide ((a = s1 ∧ b ∈ ks) ∨ (b = s1 ∧ a ∈ ks))
                                then 1 else 0))
        ∧ (∀ m, is_Some (Dict.get m (node g)) → is_Some (Dict.get m (node g'))).
Proof.
  intros Hc Hp Hs1. revert g Hc Hp. induction ks as [|n ks IH]; intros g Hc Hp Hks Hnd.
  - exists g. split; [done|]. split; [done|]. split; [done|]. split; [done|].
    split; [|done]. intros a b. rewrite decide_False; [lia|].
    intros [[_ H]|[_ H]]; by apply elem_of_nil in H.
  - apply NoDup_cons in Hnd as [Hn Hnd]. cbn [for_each].
    destruct (link_pair_positive l2 g s1 n Hc Hp Hs1) as (g1 & -> & Hc1 & Hp1 & Hout1 & Hwt1 & Hm1).
    { apply Hks. left. }
    destruct (IH g1 Hc1 Hp1) as (g' & Hrun & Hc' & Hp' & Hout' & Hwt' & Hm').
    { intros s Hs. apply Hks. by right. }
    { done. }
    exists g'. split; [exact Hrun|]. split; [done|]. split; [done|].
    split; [|split].
    + intros a b Hab. by rewrite Hout', Hout1.
    + intros a b. rewrite Hwt', Hwt1, <- Z.add_assoc. f_equal.
      apply NetworkMore.indicator_split; rewrite ?elem_of_cons;
        destruct (decide (a = n)) as [->|?], (decide (b = n)) as [->|?];
        intuition (subst; done).
    + intros m Hm. by apply Hm', Hm1.
Qed.

Lemma link_rows l2 g (ks1 ks : list string) :
  consistent g → positive l2 g →
  (∀ s, s ∈ ks1 → s ∈ l2) → (∀ s, s ∈ ks → s ∈ l2) → NoDup ks1 → NoDup ks →
  ∃ g', for_each (λ g adj1, for_each (λ g adj2, link_pair g adj1 adj2) ks g) ks1 g = Ok g'
        ∧ consistent g' ∧ positive l2 g'
        ∧ (∀ a b, ¬ (a ∈ l2 ∧ b ∈ l2) → edge_weight a b g' = edge_weight a b g)
        ∧ (∀ a b, wt g' a b
                  = wt g a b
                    + ((if decide (a ∈ ks1 ∧ b ∈ ks) then 1 else 0)
                       + (if decide (a ≠ b ∧ b ∈ ks1 ∧ a ∈ ks) then 1 else 0)))
        ∧ (∀ m, is_Some (Dict.get m (node g)) → is_Some (Dict.get m (node g'))).
Proof.
  intros Hc Hp Hks1 Hks Hnd1 Hnd. revert g Hc Hp.
  induction ks1 as [|s1 ks1 IH]; intros g Hc Hp.
  - exists g. split; [done|]. split; [done|]. split; [done|]. split; [done|].
    split; [|done]. intros a b.
    rewrite !decide_False; [lia| |]; intros H; destruct_and!;
      match goal with H : _ ∈ [] |- _ => by apply elem_of_nil in H end.
  - apply NoDup_cons in Hnd1 as [Hs1 Hnd1]. cbn [for_each].
    destruct (link_row l2 g s1 ks Hc Hp) as (g1 & -> & Hc1 & Hp1 & Hout1 & Hwt1 & Hm1);
      [apply Hks1; left|done|done|].
    destruct (IH) with (g := g1) as (g' & Hrun & Hc' & Hp' & Hout' & Hwt' & Hm');
      [intros s Hs; apply Hks1; by right|done|done|done|].
    exists g'. split; [exact Hrun|]. split; [done|]. split; [done|].
    split; [|split].
    + intros a b Hab. by rewrite Hout', Hout1.
    + intros a b. rewrite Hwt', Hwt1.
      assert (H1 : (if decide (a ∈ s1 :: ks1 ∧ b ∈ ks) then 1 else 0)
                   = (if decide (a = s1 ∧ b ∈ ks) then 1 else 0)
                     + (if decide (a ∈ ks1 ∧ b ∈ ks) then 1 else 0)).
      { symmetry. apply NetworkMore.indicator_split; rewrite ?elem_of_cons.
        - tauto.
        - intros [[-> _] [Hin _]]. done. }
      assert (H2 : (if decide (a ≠ b ∧ b ∈ s1 :: ks1 ∧ a ∈ ks) then 1 else 0)
                   = (if decide (a ≠ b ∧ b = s1 ∧ a ∈ ks) then 1 else 0)
                     + (if decide (a ≠ b ∧ b ∈ ks1 ∧ a ∈ ks) then 1 else 0)).
      { symmetry. apply NetworkMore.indicator_split; rewrite ?elem_of_cons.
        - tauto.
        - intros [(_ & -> & _) (_ & Hin & _)]. done. }
      assert (H3 : (if decide ((a = s1 ∧ b ∈ ks) ∨ (b = s1 ∧ a ∈ ks)) then 1 else 0)
                   = (if decide (a = s1 ∧ b ∈ ks) then 1 else 0)
                     + (if decide (a ≠ b ∧ b = s1 ∧ a ∈ ks) then 1 else 0)).
      { symmetry. apply NetworkMore.indicator_split.
        - destruct (decide (a = b)) as [->|Hab]; [|tauto].
          split; [tauto|]. intros [?|[Hne _]]; [by left|done].
        - intros [[-> _] (Hne & -> & _)]. done. }
      rewrite H1, H2, H3. lia.
    + intros m Hm. by apply Hm', Hm1.
Qed.

Lemma common_snoc fl (done : list string) x a b :
  common fl (done ++ [x]) a b
  = common fl done a b + (if decide ((x, a) ∈ fl ∧ (x, b) ∈ fl) then 1 else 0).
Proof.
  unfold common. rewrite filter_app, length_app.
  destruct (decide ((x, a) ∈ fl ∧ (x, b) ∈ fl)) as [Hx|Hx].
  - rewrite filter_cons_True by done. simpl. lia.
  - rewrite filter_cons_False by done. simpl. lia.
Qed.

Lemma common_nonneg fl (ids : list string) a b : 0 ≤ common fl ids a b.
Proof. unfold common. lia. Qed.

Lemma common_pos fl (ids : list string) a b :
  0 < common fl ids a b → a ∈ fl.*2 ∧ b ∈ fl.*2.
Proof.
  unfold common. destruct (filter _ ids) as [|x l] eqn:Hf; [simpl; lia|]. intros _.
  assert (Hx : x ∈ filter (λ x, (x, a) ∈ fl ∧ (x, b) ∈ fl) ids) by (rewrite Hf; left).
  apply list_elem_of_filter in Hx as [[Ha Hb] _].
  split; apply list_elem_of_fmap; [by exists (x, a)|by exists (x, b)].
Qed.

Lemma staged_positive fl (done : list string) g :
  (∀ a b, edge_weight a b g = staged fl done a b) → positive fl.*2 g.
Proof.
  intros Hst a b w Ha Hb. rewrite Hst. unfold staged.
  rewrite decide_True by done. case_decide as Hc; [|done]. intros [= <-].
  eexists. split; [done|]. case_decide; lia.
Qed.

Lemma staged_wt fl (done : list string) g a b :
  (∀ a b, edge_weight a b g = staged fl done a b) → a ∈ fl.*2 → b ∈ fl.*2 →
  wt g a b = (if decide (a = b) then 1 else 2) * common fl done a b.
Proof.
  intros Hst Ha Hb. unfold wt. rewrite Hst. unfold staged.
  rewrite decide_True by done. case_decide as Hc; [done|].
  pose proof (common_nonneg fl done a b). case_decide; lia.
Qed.

Lemma replace_parent_staged fl (ids done : list string) x g :
  (∀ l, l ∈ fl → l.1 ∈ ids) → (∀ l, l ∈ fl → l.2 ∉ ids) →
  x ∈ ids → x ∉ done →
  consistent g →
  (∀ a b, edge_weight a b g = staged fl done a b) →
  is_Some (Dict.get x (adj g)) →
  ∃ g', replace_parent g x = Ok g' ∧ consistent g'
        ∧ (∀ a b, edge_weight a b g' = staged fl (done ++ [x]) a b)
        ∧ (∀ m, m ≠ x → is_Some (Dict.get m (adj g)) → is_Some (Dict.get m (adj g'))).
Proof.
  intros H3 H2 Hx Hxd Hc Hst [nbrs Hnbrs].
  assert (HxL : x ∉ fl.*2).
  { intros ([x' s] & -> & Hl)%list_elem_of_fmap. by apply (H2 _ Hl). }
  assert (Hks : ∀ b, b ∈ Dict.keys nbrs ↔ (x, b) ∈ fl).
  { intros b. rewrite <- DictMore.get_is_Some.
    assert (Heq : Dict.get b nbrs = edge_weight x b g)
      by (unfold edge_weight; by rewrite Hnbrs).
    rewrite Heq, Hst. unfold staged. rewrite decide_False by tauto.
    case_decide as Hd.
    - split; [|by eexists]. intros _. destruct Hd as [[? _]|[Hbx _]]; [done|].
      destruct HxL. apply list_elem_of_fmap. by exists (b, x).
    - split; [by intros [? ?]|]. intros Hin. destruct Hd. left. split; [done|].
      intros Hdone. by apply Hxd. }
  assert (HksL : ∀ s, s ∈ Dict.keys nbrs → s ∈ fl.*2).
  { intros s Hs%Hks. apply list_elem_of_fmap. by exists (x, s). }
  assert (Hnd : NoDup (Dict.keys nbrs))
    by exact (proj2 (consistent_adj g Hc) x nbrs Hnbrs).
  unfold replace_parent. rewrite Hnbrs.
  destruct (link_rows fl.*2 g (Dict.keys nbrs) (Dict.keys nbrs) Hc
              (staged_positive fl done g Hst) HksL HksL Hnd Hnd)
    as (g1 & -> & Hc1 & Hp1 & Hout1 & Hwt1 & Hm1).
  cbn [mbind res_mbind res_bind].
  assert (Hadj1 : ∀ m, is_Some (Dict.get m (adj g)) → is_Some (Dict.get m (adj g1))).
  { intros m Hm. apply not_eq_None_Some. rewrite <- (consistent_nodes g1 Hc1).
    apply not_eq_None_Some, Hm1. apply not_eq_None_Some.
    rewrite (consistent_nodes g Hc). by apply not_eq_None_Some. }
  destruct (remove_node_consistent x g1 Hc1) as (g2 & -> & Hc2 & Hew2 & Hadj2).
  { apply Hadj1. by eexists. }
  exists g2. split; [done|]. split; [done|]. split.
  - intros a b. rewrite Hew2. unfold staged.
    destruct (decide (a ∈ fl.*2 ∧ b ∈ fl.*2)) as [[Ha Hb]|Hab].
    + rewrite decide_False by (intros [->| ->]; done).
      rewrite (edge_weight_wt fl.*2 g1 a b Hp1 Ha Hb), Hwt1.
      rewrite (staged_wt fl done g a b Hst Ha Hb), common_snoc.
      pose proof (common_nonneg fl done a b) as Hnn.
      assert (Hcnt : (if decide (a ∈ Dict.keys nbrs ∧ b ∈ Dict.keys nbrs) then 1 else 0)
                     + (if decide (a ≠ b ∧ b ∈ Dict.keys nbrs ∧ a ∈ Dict.keys nbrs)
                        then 1 else 0)
                     = (if decide (a = b) then 1 else 2)
                       * (if decide ((x, a) ∈ fl ∧ (x, b) ∈ fl) then 1 else 0)).
      { pose proof (Hks a). pose proof (Hks b).
        repeat case_decide; try lia; exfalso; tauto. }
      rewrite Hcnt.
      set (c := common fl done a b) in *.
      set (i := if decide ((x, a) ∈ fl ∧ (x, b) ∈ fl) then 1 else 0).
      assert (0 ≤ i ≤ 1)
        by (unfold i; destruct (decide ((x, a) ∈ fl ∧ (x, b) ∈ fl)); lia).
      set (m := if decide (a = b) then 1 else 2).
      assert (1 ≤ m) by (unfold m; destruct (decide (a = b)); lia).
      replace (m * c + m * i) with (m * (c + i)) by lia.
      destruct (decide (0 < c + i)) as [Hpos|Hpos].
      * rewrite decide_True by nia. done.
      * rewrite decide_False by nia. done.
    + rewrite (Hout1 a b Hab), Hst. unfold staged.
      rewrite !(decide_False (P := a ∈ fl.*2 ∧ b ∈ fl.*2)) by done.
      destruct (decide (a = x ∨ b = x)) as [Hax|Hax].
      * rewrite decide_False; [done|].
        intros [[Hl Hn]|[Hl Hn]].
        -- destruct Hax as [->| ->].
           ++ apply Hn, elem_of_app. right. left.
           ++ destruct HxL. apply list_elem_of_fmap. by exists (a, x).
        -- destruct Hax as [->| ->].
           ++ destruct HxL. apply list_elem_of_fmap. by exists (b, x).
           ++ apply Hn, elem_of_app. right. left.
      * assert (Ha : a ∉ done ++ [x] ↔ a ∉ done).
        { rewrite elem_of_app, list_elem_of_singleton. tauto. }
        assert (Hb : b ∉ done ++ [x] ↔ b ∉ done).
        { rewrite elem_of_app, list_elem_of_singleton. tauto. }
        repeat case_decide; try done; exfalso; tauto.
  - intros m Hm Hin. apply not_eq_None_Some. rewrite (Hadj2 m Hm).
    apply not_eq_None_Some. by apply Hadj1.
Qed.

Lemma replace_parents_staged fl (ids todo done : list string) g :
  (∀ l, l ∈ fl → l.1 ∈ ids) → (∀ l, l ∈ fl → l.2 ∉ ids) →
  (∀ x, x ∈ todo → x ∈ ids) → NoDup (done ++ todo) →
  consistent g →
  (∀ a b, edge_weight a b g = staged fl done a b) →
  (∀ x, x ∈ todo → is_Some (Dict.get x (adj g))) →
  ∃ g', for_each replace_parent todo g = Ok g' ∧ consistent g'
        ∧ ∀ a b, edge_weight a b g' = staged fl (done ++ todo) a b.
Proof.
  intros H3 H2. revert done g.
  induction todo as [|x todo IH]; intros done g Hids Hnd Hc Hst Hadj.
  - exists g. rewrite app_nil_r. by split.
  - cbn [for_each].
    assert (Hx : (x ∉ done) ∧ (x ∉ todo) ∧ NoDup ((done ++ [x]) ++ todo)).
    { rewrite <- app_assoc. split; [|split; [|done]].
      - apply NoDup_app in Hnd as (_ & Hdisj & _). intros Hin.
        apply (Hdisj x Hin). left.
      - apply NoDup_app in Hnd as (_ & _ & Hnd). by apply NoDup_cons in Hnd as [? _]. }
    destruct Hx as (Hxd & Hxt & Hnd').
    destruct (replace_parent_staged fl ids done x g H3 H2) as (g1 & -> & Hc1 & Hst1 & Hadj1);
      [apply Hids; left|done|done|done|apply Hadj; left|].
    cbn [mbind res_mbind res_bind].
    destruct (IH (done ++ [x]) g1) as (g' & Hrun & Hc' & Hst'); [|done|done|done| |].
    + intros y Hy. apply Hids. by right.
    + intros y Hy. apply Hadj1; [by intros ->|]. apply Hadj. by right.
    + exists g'. rewrite <- app_assoc in Hst'. by split.
Qed.

Lemma extended_network_staged d min_node_weight :
  (∀ l, l ∈ hmdbid_substructures d →
     l.1 ∈ hmdbid <$> compounds d ∧ l.2 ∉ hmdbid <$> compounds d) →
  ∃ g, extended_substructure_network d min_node_weight
         (foldl (λ g e, add_node e.1 (Some e.2) g) empty_graph
            (filtered_hmdbid_substructures d min_node_weight))
         (unique_hmdbid d) false = Ok g
       ∧ NoDup (Dict.keys (adj g))
       ∧ ∀ a b, edge_weight a b g
                = if decide (a ≠ b ∧ 0 < shared d min_node_weight a b)
                  then Some (Some (2 * shared d min_node_weight a b))
                  else None.
Proof.
  intros Hd. set (fl := filtered_links d min_node_weight).
  assert (H3 : ∀ l, l ∈ fl → l.1 ∈ unique_hmdbid d).
  { intros l [_ Hl]%list_elem_of_filter. apply elem_of_remove_dups.
    by destruct (Hd l Hl). }
  assert (H2 : ∀ l, l ∈ fl → l.2 ∉ unique_hmdbid d).
  { intros l [_ Hl]%list_elem_of_filter Hin.
    apply (proj1 (elem_of_remove_dups _ _)) in Hin.
    destruct (Hd l Hl) as [_ Hno]. by apply Hno. }
  unfold extended_substructure_network. cbv zeta. cbn [negb].
  destruct (linked_graph d min_node_weight (unique_hmdbid d)) as (Hc & Hew & Hnodes).
  cbv zeta in *. fold fl in Hew |- *.
  set (g1 := foldl (λ g l, add_edge l.1 l.2 None g) _ fl) in *.
  destruct (replace_parents_staged fl (unique_hmdbid d) (unique_hmdbid d) [] g1 H3 H2)
    as (g' & -> & Hc' & Hst); [done|apply NoDup_remove_dups|done| | |].
  - intros a b. rewrite Hew. unfold staged.
    destruct (decide (a ∈ fl.*2 ∧ b ∈ fl.*2)) as [[Ha Hb]|Hab].
    + change (common fl [] a b) with 0. rewrite (decide_False (P := 0 < 0)) by lia.
      rewrite decide_False; [done|].
      intros [Hl|Hl].
      * apply list_elem_of_fmap in Ha as (l' & -> & Hl'). apply (H2 l' Hl'), (H3 _ Hl).
      * apply list_elem_of_fmap in Hb as (l' & -> & Hl'). apply (H2 l' Hl'), (H3 _ Hl).
    + assert (Hnil : ∀ y : string, y ∉ ([] : list string)) by (intros y; apply not_elem_of_nil).
      pose proof (Hnil a). pose proof (Hnil b).
      repeat case_decide; try done; exfalso; tauto.
  - intros x Hx. apply not_eq_None_Some. rewrite <- (consistent_nodes g1 Hc).
    apply not_eq_None_Some. by apply Hnodes.
  - cbn [mbind res_mbind res_bind]. eexists. split; [done|]. split.
    { unfold remove_selfloops. cbn [adj].
      by destruct (foldl_del_loops (selfloop_nodes g') (adj g') (consistent_adj g' Hc'))
        as [[? _] _]. }
    intros a b. rewrite (remove_selfloops_edge_weight g' a b Hc'), Hst. cbn [app].
    change (shared d min_node_weight a b) with (common fl (unique_hmdbid d) a b).
    destruct (decide (a = b)) as [->|Hne].
    + rewrite decide_False; [done|]. tauto.
    + unfold staged. rewrite (decide_False (P := a = b)) by done.
      destruct (decide (a ∈ fl.*2 ∧ b ∈ fl.*2)) as [Hab|Hab].
      * destruct (decide (0 < common fl (unique_hmdbid d) a b)).
        -- by rewrite decide_True.
        -- by rewrite decide_False by tauto.
      * rewrite (decide_False (P := a ≠ b ∧ _)).
        -- rewrite decide_False; [done|].
           intros [[Hl Hn]|[Hl Hn]]; apply Hn, (H3 _ Hl).
        -- intros [_ Hpos]. by apply Hab, (common_pos fl (unique_hmdbid d)).
Qed.

(** In extended mode, on a store in which every link names a compound of
    the store and no substructure is written like the identifier of a
    compound, the network is built, and two different substructures are
    joined exactly when some compound is linked to both by rows that
    passed the filter; the weight of the edge is twice the number of such
    compounds. No parent and no self-loop is left. Removing the isolated
    nodes changes no edge. *)
Theorem extended_network_weights d min_node_weight remove_isolated :
  (∀ l, l ∈ hmdbid_substructures d →
     l.1 ∈ hmdbid <$> compounds d ∧ l.2 ∉ hmdbid <$> compounds d) →
  ∃ g, generate_substructure_network d method_extended min_node_weight remove_isolated
       = Ok g
       ∧ ∀ a b, edge_weight a b g
                = if decide (a ≠ b ∧ 0 < shared d min_node_weight a b)
                  then Some (Some (2 * shared d min_node_weight a b))
                  else None.
Proof.
  intros Hd. unfold generate_substructure_network. cbv zeta.
  destruct (extended_network_staged d min_node_weight Hd) as (g & -> & Hk & Hew).
  cbn [mbind res_mbind res_bind]. eexists. split; [done|]. intros a b.
  destruct remove_isolated; [|apply Hew].
  by rewrite remove_isolates_lookup.
Qed.

(** On a store whose compound identifiers hold no apostrophe and no NUL
    character and whose link table has no row twice, in which every link
    names a compound of the store and no substructure is written like the
    identifier of a compound, the default and the extended mode build
    the same edges, and every weight of the extended mode is twice the
    weight of the default mode. *)
Theorem extended_twice_default d min_node_weight remove_isolated :
  Forall (λ c, Splice.verbatim Splice.apostrophe (hmdbid c)) (compounds d) →
  NoDup (hmdbid_substructures d) →
  (∀ l, l ∈ hmdbid_substructures d →
     l.1 ∈ hmdbid <$> compounds d ∧ l.2 ∉ hmdbid <$> compounds d) →
  ∃ g1 g2,
    generate_substructure_network d method_default min_node_weight remove_isolated = Ok g1
    ∧ generate_substructure_network d method_extended min_node_weight remove_isolated
      = Ok g2
    ∧ ∀ a b, edge_weight a b g2
             = (λ w : option Z, Z.mul 2 <$> w) <$> edge_weight a b g1.
Proof.
  intros Hids Hnd Hd.
  destruct (NetworkMore.default_network_shared d min_node_weight remove_isolated Hids Hnd)
    as (g1 & Hg1 & Hew1).
  assert (∃ g2, generate_substructure_network d method_extended min_node_weight
                  remove_isolated = Ok g2
                ∧ ∀ a b, edge_weight a b g2
                         = if decide (a ≠ b ∧ 0 < shared d min_node_weight a b)
                           then Some (Some (2 * shared d min_node_weight a b))
                           else None) as (g2 & Hg2 & Hew2).
  { unfold generate_substructure_network. cbv zeta.
    destruct (extended_network_staged d min_node_weight Hd) as (g & -> & Hk & Hew).
    cbn [mbind res_mbind res_bind]. eexists. split; [done|]. intros a b.
    destruct remove_isolated; [|apply Hew]. by rewrite remove_isolates_lookup. }
  exists g1, g2. split; [done|]. split; [done|]. intros a b.
  rewrite Hew1, Hew2. by case_decide.
Qed.

(** Witness: the store with two compounds. *)
Lemma extended_network_weights_witness :
  ∃ g, generate_substructure_network two_parents method_extended 1 false = Ok g
       ∧ ∀ a b, edge_weight a b g
                = if decide (a ≠ b ∧ 0 < shared two_parents 1 a b)
                  then Some (Some (2 * shared two_parents 1 a b))
                  else None.
Proof.
  apply (extended_network_weights two_parents 1 false).
  apply (proj1 (Forall_forall _ _)). apply (bool_decide_unpack _). vm_compute. exact I.
Defined.

(** Witness: the two modes on the store with two compounds. *)
Lemma extended_twice_default_witness :
  ∃ g1 g2,
    generate_substructure_network two_parents method_default 1 false = Ok g1
    ∧ generate_substructure_network two_parents method_extended 1 false = Ok g2
    ∧ ∀ a b, edge_weight a b g2
             = (λ w : option Z, Z.mul 2 <$> w) <$> edge_weight a b g1.
Proof.
  apply (extended_twice_default two_parents 1 false).
  - apply (bool_decide_unpack _). vm_compute. exact I.
  - apply (bool_decide_unpack _). vm_compute. exact I.
  - apply (proj1 (Forall_forall _ _)). apply (bool_decide_unpack _). vm_compute. exact I.
Defined.

(** On the store with two compounds, in extended mode, CC and CO are
    joined with weight 4 and CC and CN with weight 2. *)
Lemma extended_network_two_parents :
  ∃ g, generate_substructure_network two_parents method_extended 1 false = Ok g
       ∧ edge_weight "CC"%string "CO"%string g = Some (Some 4)
       ∧ edge_weight "CC"%string "CN"%string g = Some (Some 2)
       ∧ edge_weight "CC"%string "CC"%string g = None.
Proof. eexists. split; [vm_compute; reflexivity|]. by vm_compute. Qed.

End LinkageFacts.

(** ** The rows and files of the catalog *)

Module EmissionFacts.
Import Catalog Emission.

Section emission_facts.
Context {E : Type} `{EqDecision E}.
Variable graph6 : string.
Variable k : Z.
Variable k_partite : string.
Variable n_nodes n_edges : Z.
Variable k_valences : string → string.
Implicit Types (c : catalog (E := E)) (e : string * list (list E)).

Lemma paths_build_length (frs : list (list E)) n :
  frs ≠ [] → NoDup frs → Forall (λ fr, length fr = n) frs →
  NoDup (paths (build frs) []) ∧ length (paths (build frs) []) = length frs.
Proof.
  intros Hne Hnd Hlen. destruct (CatalogMore.build_cover frs Hne) as (Hndp & Hsub & Hcov).
  split; [done|]. apply Permutation_length, NoDup_Permutation; [done|done|].
  intros p. split; [apply Hsub|]. intros Hp.
  destruct (Hcov p Hp) as (q & Hq & Hpre).
  assert (q = p) as ->; [|done].
  pose proof (Hsub q Hq) as Hq'.
  rewrite Forall_forall in Hlen.
  destruct Hpre as [rest ->]. pose proof (Hlen _ Hq') as H1.
  pose proof (Hlen p Hp) as H2. rewrite length_app in H1.
  destruct rest; [by rewrite app_nil_r|simpl in H1; lia].
Qed.

Lemma emit_signature_ok c e :
  catalog_ok c → entries_ok e →
  (graph6, k_partite, e.1) ∉ row_key <$> cat_table c →
  ∃ c', emit_signature graph6 k k_partite n_nodes n_edges k_valences c e = inr c'
        ∧ catalog_ok c'
        ∧ cat_id_pkl c' = cat_id_pkl c + 1
        ∧ length (cat_table c') = S (length (cat_table c))
        ∧ (∀ key, key ∈ row_key <$> cat_table c'
                  ↔ key ∈ row_key <$> cat_table c ∨ key = (graph6, k_partite, e.1)).
Proof.
  intros [Hids Hrows] (Hne & Hnd & n & Hlen) Hfresh.
  unfold emit_signature, insert_row. cbv zeta.
  rewrite decide_False by exact Hfresh. eexists. split; [done|].
  destruct (paths_build_length e.2 n Hne Hnd Hlen) as [Hndp Hlenp].
  split; [|split; [done|split]].
  - split; cbn [cat_table cat_id_pkl].
    + rewrite fmap_app. apply NoDup_app. split; [done|]. split; [|apply NoDup_singleton].
      intros id (r & -> & Hr)%list_elem_of_fmap Hin. csimpl in Hin.
      apply list_elem_of_singleton in Hin. destruct (Hrows r Hr) as [Hle _]. lia.
    + intros r [Hr|Hr]%elem_of_app.
      * destruct (Hrows r Hr) as (Hle & graphs & Hg & Hgnd & Hglen).
        split; [lia|]. exists graphs. split; [|done].
        unfold isomorphism_graphs in *. cbn [cat_pkls].
        rewrite DictFacts.get_set_ne by lia. done.
      * apply list_elem_of_singleton in Hr as ->. cbn [row_id_pkl row_n_graphs].
        split; [lia|]. exists (paths (build e.2) []). split; [|split; [done|lia]].
        unfold isomorphism_graphs. cbn [cat_pkls]. by rewrite DictFacts.get_set_eq.
  - cbn [cat_table]. rewrite length_app. simpl. lia.
  - intros key. cbn [cat_table]. rewrite fmap_app, elem_of_app. csimpl.
    by rewrite list_elem_of_singleton.
Qed.

Lemma emit_ok (subgraphs : list (string * list (list E))) c :
  catalog_ok c → Forall entries_ok subgraphs →
  NoDup (Dict.keys subgraphs) →
  (∀ e, e ∈ subgraphs → (graph6, k_partite, e.1) ∉ row_key <$> cat_table c) →
  ∃ c', emit graph6 k k_partite n_nodes n_edges k_valences subgraphs c = inr c'
        ∧ catalog_ok c'
        ∧ cat_id_pkl c' = cat_id_pkl c + Z.of_nat (length subgraphs)
        ∧ length (cat_table c') = (length (cat_table c) + length subgraphs)%nat.
Proof.
  revert c. induction subgraphs as [|e rest IH]; intros c Hc Hok Hnd Hfresh.
  - exists c. split; [done|]. split; [done|]. split; [simpl; lia|simpl; lia].
  - apply Forall_cons in Hok as [He Hok]. unfold Dict.keys in Hnd. csimpl in Hnd.
    apply NoDup_cons in Hnd as [He1 Hnd]. cbn [emit].
    destruct (emit_signature_ok c e Hc He) as (c1 & -> & Hc1 & Hid1 & Hlen1 & Hkeys1).
    { apply Hfresh. left. }
    destruct (IH c1 Hc1 Hok Hnd) as (c' & Hrun & Hc' & Hid' & Hlen').
    { intros e' He' [Hin|[= Heq]]%Hkeys1.
      - apply (Hfresh e'); [by right|done].
      - apply He1. rewrite <- Heq. by apply list_elem_of_fmap_2. }
    exists c'. split; [done|]. split; [done|]. split; [|simpl; lia].
    rewrite Hid', Hid1. simpl length. lia.
Qed.

(** A round whose signatures are not yet in the table for its graph and
    partition, and whose entries are listed once, are not empty and have
    one length under each signature, raises no [IntegrityError]; it adds
    one row and one file for each signature, numbered upwards from the
    counter; and afterwards, as before, [isomorphism_graphs] yields for
    every row of the table exactly [n_graphs] graphs, none twice. *)
Theorem emit_rows_match_files (subgraphs : list (string * list (list E))) c :
  catalog_ok c → Forall entries_ok subgraphs →
  NoDup (Dict.keys subgraphs) →
  (∀ e, e ∈ subgraphs → (graph6, k_partite, e.1) ∉ row_key <$> cat_table c) →
  ∃ c', emit graph6 k k_partite n_nodes n_edges k_valences subgraphs c = inr c'
        ∧ cat_id_pkl c' = cat_id_pkl c + Z.of_nat (length subgraphs)
        ∧ length (cat_table c') = (length (cat_table c) + length subgraphs)%nat
        ∧ NoDup (row_id_pkl <$> cat_table c')
        ∧ ∀ r, r ∈ cat_table c' →
            ∃ graphs, isomorphism_graphs c' (row_id_pkl r) = Some graphs
                      ∧ NoDup graphs
                      ∧ Z.of_nat (length graphs) = row_n_graphs r.
Proof.
  intros Hc Hok Hnd Hfresh.
  destruct (emit_ok subgraphs c Hc Hok Hnd Hfresh) as (c' & Hrun & [Hids Hrows] & Hid & Hlen).
  exists c'. split; [done|]. split; [done|]. split; [done|]. split; [done|].
  intros r Hr. by destruct (Hrows r Hr) as [_ ?].
Qed.

(** A signature with no entry gets a row with [n_graphs = 0] and a file
    with the empty tree, for which [isomorphism_graphs] yields one graph,
    the empty one. *)
Lemma emit_empty_entry c vn c' :
  emit_signature graph6 k k_partite n_nodes n_edges k_valences c (vn, []) = inr c' →
  ∃ r, r ∈ cat_table c' ∧ row_id_pkl r = cat_id_pkl c' ∧ row_n_graphs r = 0
       ∧ isomorphism_graphs c' (cat_id_pkl c') = Some [[]].
Proof.
  unfold emit_signature, insert_row. cbv zeta. case_decide; [done|]. intros [= <-].
  eexists. split; [cbn [cat_table]; apply elem_of_app; right; left|].
  split; [done|]. split; [done|].
  unfold isomorphism_graphs. cbn [cat_pkls cat_id_pkl]. by rewrite DictFacts.get_set_eq.
Qed.

End emission_facts.

Import CatalogExamples.

(** Witness: a round with two signatures on the empty catalog. *)
Lemma emit_rows_match_files_witness :
  ∃ c', emit "E?"%string 2 "(1, 1)"%string 3 2 toy_k_valences two_signatures empty_catalog
        = inr c'
        ∧ cat_id_pkl c' = cat_id_pkl empty_catalog + Z.of_nat (length two_signatures)
        ∧ length (cat_table c')
          = (length (cat_table empty_catalog) + length two_signatures)%nat
        ∧ NoDup (row_id_pkl <$> cat_table c')
        ∧ ∀ r, r ∈ cat_table c' →
            ∃ graphs, isomorphism_graphs c' (row_id_pkl r) = Some graphs
                      ∧ NoDup graphs
                      ∧ Z.of_nat (length graphs) = row_n_graphs r.
Proof.
  apply (emit_rows_match_files "E?"%string 2 "(1, 1)"%string 3 2 toy_k_valences
           two_signatures empty_catalog).
  - split; [apply NoDup_nil_2|]. intros r Hr. by apply elem_of_nil in Hr.
  - repeat apply Forall_cons_2; [| |apply Forall_nil_2].
    + split; [discriminate|]. split.
      * apply (bool_decide_unpack _). vm_compute. exact I.
      * exists 2%nat. by repeat constructor.
    + split; [discriminate|]. split.
      * apply (bool_decide_unpack _). vm_compute. exact I.
      * exists 2%nat. by repeat constructor.
  - apply (bool_decide_unpack _). vm_compute. exact I.
  - intros e _ Hin. simpl in Hin. by apply elem_of_nil in Hin.
Defined.

(** The rows and the graphs of the round with two signatures. *)
Lemma emit_two_signatures :
  ∃ c', emit "E?"%string 2 "(1, 1)"%string 3 2 toy_k_valences two_signatures empty_catalog
        = inr c'
        ∧ (row_id_pkl <$> cat_table c') = [1; 2]
        ∧ (row_n_graphs <$> cat_table c') = [2; 1]
        ∧ isomorphism_graphs c' 1 = Some [[1; 2]; [1; 3]]%nat
        ∧ isomorphism_graphs c' 3 = None.
Proof. eexists. split; [vm_compute; reflexivity|]. by vm_compute. Qed.

(** Witness: a signature without entries on the empty catalog. *)
Lemma emit_empty_entry_witness :
  ∃ c', emit_signature "E?"%string 2 "(1, 1)"%string 3 2 toy_k_valences empty_catalog
          ("[(1, 1)]"%string, []) = inr c'
        ∧ ∃ r, r ∈ cat_table c' ∧ row_id_pkl r = cat_id_pkl c' ∧ row_n_graphs r = 0
               ∧ isomorphism_graphs c' (cat_id_pkl c') = Some [[]].
Proof.
  eexists. split; [vm_compute; reflexivity|].
  apply (emit_empty_entry "E?"%string 2 "(1, 1)"%string 3 2 toy_k_valences empty_catalog
           "[(1, 1)]"%string).
  vm_compute. reflexivity.
Defined.

End EmissionFacts.

(** ** Ranking the true structure among the candidates *)

Module RankingFacts.
Import Ranking.

Section bump_facts.
Context {K : Type} `{EqDecision K}.
Implicit Types (k : K) (d : list (K * Z)) (ks : list K).

Lemma get_bump k k' d :
  Dict.get k' (bump k d)
  = if decide (k' = k) then Some (default 0 (Dict.get k d) + 1) else Dict.get k' d.
Proof.
  unfold bump. destruct (decide (k' = k)) as [->|Hne].
  - destruct (Dict.get k d); by rewrite DictFacts.get_set_eq.
  - destruct (Dict.get k d); by rewrite DictFacts.get_set_ne.
Qed.

Lemma NoDup_keys_bump k d : NoDup (Dict.keys d) → NoDup (Dict.keys (bump k d)).
Proof. unfold bump. destruct (Dict.get k d); apply DictFacts.NoDup_keys_set. Qed.

Lemma counts_nil : counts ([] : list (K * Z)) [].
Proof. split; [apply NoDup_nil_2|done]. Qed.

Lemma counts_bump k d ks : counts d ks → counts (bump k d) (ks ++ [k]).
Proof.
  intros [Hnd Hget]. split; [by apply NoDup_keys_bump|].
  intros k'. rewrite get_bump, filter_app, length_app.
  destruct (decide (k' = k)) as [->|Hne].
  - rewrite filter_cons_True by done. rewrite Hget. simpl.
    destruct (length (filter (λ x, x = k) ks)) as [|n]; simpl.
    + done.
    + rewrite Nat.add_1_r. f_equal. lia.
  - rewrite filter_cons_False by done. rewrite Hget. simpl. by rewrite Nat.add_0_r.
Qed.

Lemma counts_foldl_bump ks' d ks :
  counts d ks → counts (foldl (λ d k, bump k d) d ks') (ks ++ ks').
Proof.
  revert d ks. induction ks' as [|k ks' IH]; intros d ks Hc.
  - by rewrite app_nil_r.
  - cbn [foldl]. replace (ks ++ k :: ks') with ((ks ++ [k]) ++ ks')
      by by rewrite <- app_assoc.
    by apply IH, counts_bump.
Qed.

Lemma counts_elem_of d ks k v :
  counts d ks → (k, v) ∈ d → k ∈ ks ∧ v = Z.of_nat (length (filter (λ x, x = k) ks)) ∧ 1 ≤ v.
Proof.
  intros [Hnd Hget] Hin. apply DictFacts.elem_of_get in Hin; [|done].
  rewrite Hget in Hin. destruct (filter _ ks) as [|x l] eqn:Hf; [done|].
  injection Hin as <-. split; [|split; [done|simpl; lia]].
  assert (Hx : x ∈ filter (λ x, x = k) ks) by (rewrite Hf; left).
  by apply list_elem_of_filter in Hx as [-> ?].
Qed.

Lemma counts_keys d ks k : counts d ks → k ∈ Dict.keys d ↔ k ∈ ks.
Proof.
  intros [Hnd Hget]. rewrite <- DictMore.get_is_Some, Hget. split.
  - destruct (filter _ ks) as [|x l] eqn:Hf; [by intros [? ?]|]. intros _.
    assert (Hx : x ∈ filter (λ x, x = k) ks) by (rewrite Hf; left).
    by apply list_elem_of_filter in Hx as [-> ?].
  - intros Hin. assert (Hk : k ∈ filter (λ x, x = k) ks) by by apply list_elem_of_filter.
    destruct (filter _ ks); [by apply elem_of_nil in Hk|by eexists].
Qed.

End bump_facts.

Lemma length_filter_fmap {A B} (f : A → B) (P : B → Prop) `{!∀ x, Decision (P x)}
    (l : list A) :
  length (filter P (f <$> l)) = length (filter (λ x, P (f x)) l).
Proof.
  induction l as [|x l IH]; [done|]. csimpl. destruct (decide (P (f x))) as [Hx|Hx].
  - rewrite !filter_cons_True by done. simpl. by rewrite IH.
  - by rewrite !filter_cons_False by done.
Qed.

Lemma length_filter_split {A} (P Q : A → Prop) `{!∀ x, Decision (P x), !∀ x, Decision (Q x)}
    (l : list A) :
  length (filter P l)
  = (length (filter P (filter Q l)) + length (filter P (filter (λ x, ¬ Q x) l)))%nat.
Proof.
  induction l as [|x l IH]; [done|].
  destruct (decide (Q x)) as [Hq|Hq].
  - rewrite (filter_cons_True Q) by done. rewrite (filter_cons_False (λ x, ¬ Q x)) by tauto.
    destruct (decide (P x)).
    + rewrite !(filter_cons_True P) by done. simpl. by rewrite IH.
    + by rewrite !(filter_cons_False P) by done.
  - rewrite (filter_cons_False Q) by done. rewrite (filter_cons_True (λ x, ¬ Q x)) by done.
    destruct (decide (P x)).
    + rewrite !(filter_cons_True P) by done. simpl. rewrite IH. lia.
    + by rewrite !(filter_cons_False P) by done.
Qed.

(** Adding up a histogram over the counts that satisfy [P] gives the
    number of counted values that satisfy [P]. *)
Lemma sum_histogram (P : Z → Prop) `{!∀ x, Decision (P x)} (h : list (Z * Z)) (vs : list Z)
    (acc : Z) :
  counts h vs →
  foldl (λ bc e, if decide (P e.1) then bc + e.2 else bc) acc h
  = acc + Z.of_nat (length (filter P vs)).
Proof.
  revert vs acc. induction h as [|[num n] h IH]; intros vs acc [Hnd Hget].
  - destruct vs as [|v vs]; [simpl; lia|]. specialize (Hget v).
    rewrite filter_cons_True in Hget by done. done.
  - unfold Dict.keys in Hnd. csimpl in Hnd. apply NoDup_cons in Hnd as [Hnum Hnd].
    assert (Hn : n = Z.of_nat (length (filter (λ x, x = num) vs))).
    { specialize (Hget num). simpl in Hget. rewrite decide_True in Hget by done.
      destruct (length _); [done|]. by injection Hget. }
    cbn [foldl fst snd].
    rewrite (IH (filter (λ x, ¬ x = num) vs)).
    + rewrite (length_filter_split P (λ x, x = num) vs).
      assert (Hpn : length (filter P (filter (λ x, x = num) vs))
                    = if decide (P num) then length (filter (λ x, x = num) vs) else 0%nat).
      { clear. induction vs as [|v vs IH]; [by case_decide|].
        destruct (decide (v = num)) as [->|Hv].
        - rewrite (filter_cons_True (λ x, x = num)) by done.
          destruct (decide (P num)).
          + rewrite filter_cons_True by done. simpl. by rewrite IH.
          + by rewrite filter_cons_False by done.
        - by rewrite (filter_cons_False (λ x, x = num)) by done. }
      rewrite Hpn. destruct (decide (P num)); lia.
    + split; [done|]. intros k'.
      assert (Hlen : length (filter (λ x, x = k') (filter (λ x, ¬ x = num) vs))
                     = if decide (k' = num) then 0%nat
                       else length (filter (λ x, x = k') vs)).
      { clear. induction vs as [|v vs IH]; [by case_decide|].
        destruct (decide (v = num)) as [->|Hv].
        - rewrite (filter_cons_False (λ x, ¬ x = num)) by tauto. rewrite IH.
          destruct (decide (k' = num)) as [->|Hk]; [done|].
          by rewrite (filter_cons_False (λ x, x = k')) by done.
        - rewrite (filter_cons_True (λ x, ¬ x = num)) by done.
          destruct (decide (v = k')) as [->|Hvk].
          + rewrite !(filter_cons_True (λ x, x = k')) by done. cbn [length]. rewrite IH.
            by destruct (decide (k' = num)).
          + rewrite !(filter_cons_False (λ x, x = k')) by done. exact IH. }
      rewrite Hlen. destruct (decide (k' = num)) as [->|Hk].
      * by apply DictFacts.get_None.
      * specialize (Hget k'). simpl in Hget. by rewrite decide_False in Hget.
Qed.

Lemma py_max_spec v vs :
  py_max v vs ∈ v :: vs ∧ ∀ x, x ∈ v :: vs → x ≤ py_max v vs.
Proof.
  unfold py_max. revert v. induction vs as [|w vs IH]; intros v.
  - simpl. split; [left|]. by intros x ->%list_elem_of_singleton.
  - cbn [foldl]. destruct (IH (Z.max v w)) as [Hin Hle]. split.
    + apply elem_of_cons in Hin as [Heq|Hin]; [|by do 2 right].
      rewrite Heq. destruct (Z.max_spec v w) as [[_ ->]|[_ ->]]; [right; left|left].
    + intros x [->|[->|Hx]%elem_of_cons]%elem_of_cons.
      * etrans; [|apply Hle; left]. lia.
      * etrans; [|apply Hle; left]. lia.
      * apply Hle. by right.
Qed.

Section ranking_facts.
Variable strip : string → string.
Implicit Types (files : list (list string)) (smi mol_smi : string).

Lemma read_smis_bump (pre : list (string * Z)) (smis : list string) :
  read_smis strip pre smis
  = foldl (λ d k, bump k d) pre
      (strip <$> filter (λ line, 0 < String.length line)%nat smis).
Proof.
  unfold read_smis. revert pre. induction smis as [|line smis IH]; intros pre; [done|].
  cbn [foldl]. rewrite IH. destruct (decide (0 < String.length line)%nat) as [Hl|Hl].
  - by rewrite filter_cons_True by done.
  - by rewrite filter_cons_False by done.
Qed.

Lemma pre_reccurence_bump files (pre : list (string * Z)) :
  foldl (read_smis strip) pre files
  = foldl (λ d k, bump k d) pre (structures strip files).
Proof.
  unfold structures. revert pre. induction files as [|smis files IH]; intros pre; [done|].
  cbn [foldl concat]. rewrite IH, read_smis_bump, filter_app, fmap_app, foldl_app. done.
Qed.

Lemma pre_reccurence_counts files :
  counts (pre_reccurence_of strip files) (structures strip files).
Proof.
  unfold pre_reccurence_of. rewrite pre_reccurence_bump.
  apply (counts_foldl_bump _ [] []), counts_nil.
Qed.

Lemma get_pre_reccurence files smi :
  default 0 (Dict.get smi (pre_reccurence_of strip files)) = occurrences strip files smi.
Proof.
  destruct (pre_reccurence_counts files) as [_ Hget]. rewrite Hget. unfold occurrences.
  by destruct (length _).
Qed.

Lemma num_recurrence_counts (pre : list (string * Z)) :
  counts (num_recurrence_of pre) (Dict.values pre).
Proof.
  unfold num_recurrence_of, Dict.values.
  assert (H : ∀ (nr : list (Z * Z)),
    foldl (λ nr (e : string * Z), bump e.2 nr) nr pre
    = foldl (λ d k, bump k d) nr pre.*2).
  { induction pre as [|e pre IH]; intros nr; [done|]. csimpl. by rewrite IH. }
  rewrite H. apply (counts_foldl_bump _ [] []), counts_nil.
Qed.

Lemma entry_occurrences files smi c :
  (smi, c) ∈ pre_reccurence_of strip files →
  c = occurrences strip files smi ∧ 1 ≤ c ∧ smi ∈ structures strip files.
Proof.
  intros Hin.
  destruct (counts_elem_of _ _ _ _ (pre_reccurence_counts files) Hin) as (Hs & -> & Hc).
  done.
Qed.

Lemma occurrences_nonneg files smi : 0 ≤ occurrences strip files smi.
Proof. unfold occurrences. lia. Qed.

Lemma occurrences_zero files smi :
  smi ∉ structures strip files → occurrences strip files smi = 0.
Proof.
  intros Hnin. unfold occurrences.
  destruct (filter (λ s, s = smi) (structures strip files)) as [|x l] eqn:Hf; [done|].
  assert (Hx : x ∈ filter (λ s, s = smi) (structures strip files)) by (rewrite Hf; left).
  by apply list_elem_of_filter in Hx as [-> ?].
Qed.

Lemma occurrences_pos files smi :
  smi ∈ structures strip files → 1 ≤ occurrences strip files smi.
Proof.
  intros Hin. unfold occurrences.
  assert (Hm : smi ∈ filter (λ s, s = smi) (structures strip files))
    by by apply list_elem_of_filter.
  destruct (filter (λ s, s = smi) (structures strip files));
    [by apply elem_of_nil in Hm|simpl; lia].
Qed.

Lemma keys_candidates files :
  Dict.keys (pre_reccurence_of strip files) ≡ₚ remove_dups (structures strip files).
Proof.
  apply NoDup_Permutation.
  - apply (pre_reccurence_counts files).
  - apply NoDup_remove_dups.
  - intros smi. rewrite (counts_keys _ _ _ (pre_reccurence_counts files)).
    by rewrite elem_of_remove_dups.
Qed.

Lemma ranks_spec files mol_smi :
  let r := test_build strip files mol_smi in
  let candidates := remove_dups (structures strip files) in
  n_fragments r = Z.of_nat (length files)
  ∧ recurrence r = occurrences strip files mol_smi
  ∧ num_struct r = Z.of_nat (length candidates)
  ∧ better_candidates r
    = Z.of_nat (length (filter (λ smi, occurrences strip files mol_smi
                                       ≤ occurrences strip files smi) candidates))
  ∧ (∀ smi, occurrences strip files smi ≤ max_recurrence r)
  ∧ (candidates = [] → max_recurrence r = 0)
  ∧ (candidates ≠ [] →
     ∃ smi, smi ∈ candidates ∧ occurrences strip files smi = max_recurrence r).
Proof.
  cbv zeta. unfold test_build. cbn [n_fragments recurrence num_struct better_candidates
                                   max_recurrence].
  set (pre := pre_reccurence_of strip files).
  pose proof (keys_candidates files) as Hperm. fold pre in Hperm.
  split; [done|]. split; [apply get_pre_reccurence|].
  split; [by rewrite Hperm|]. split; [|split; [|split]].
  - assert (Hsum : ∀ c, c = occurrences strip files mol_smi →
      0 + Z.of_nat (length (filter (λ x, c ≤ x) (Dict.values pre)))
      = Z.of_nat (length (filter (λ smi, occurrences strip files mol_smi
                                         ≤ occurrences strip files smi)
                            (remove_dups (structures strip files))))).
    { intros c ->. rewrite <- Hperm. unfold Dict.values, Dict.keys.
      rewrite !length_filter_fmap, Z.add_0_l. do 2 f_equal.
      apply FragmentMore.filter_ext_elem_of. intros [smi c] Hin. simpl.
      by destruct (entry_occurrences files smi c Hin) as (-> & _). }
    unfold better_candidates_of. fold pre.
    pose proof (get_pre_reccurence files mol_smi) as Hrec. fold pre in Hrec.
    destruct (Dict.get mol_smi pre) as [c|] eqn:Hget; simpl in Hrec.
    + rewrite (sum_histogram (λ x, c ≤ x) _ _ 0 (num_recurrence_counts pre)).
      by apply Hsum.
    + transitivity (0 + Z.of_nat (length (filter (λ _ : Z, True) (Dict.values pre)))).
      { exact (sum_histogram (λ _, True) _ _ 0 (num_recurrence_counts pre)). }
      rewrite <- (Hsum 0 Hrec). do 3 f_equal.
      apply FragmentMore.filter_ext_elem_of. intros c Hc. split; [|done]. intros _.
      apply list_elem_of_fmap in Hc as ([smi c'] & -> & Hin).
      destruct (entry_occurrences files smi c' Hin) as (_ & ? & _). simpl. lia.
  - intros smi. unfold max_recurrence_of.
    pose proof (get_pre_reccurence files smi) as Hocc. fold pre in Hocc.
    destruct (Dict.values pre) as [|v vs] eqn:Hv.
    + destruct pre as [|e pre']; [|done]. simpl in Hocc. lia.
    + destruct (py_max_spec v vs) as [Hin Hle]. rewrite <- Hv in Hin, Hle.
      destruct (Dict.get smi pre) as [c|] eqn:Hget; simpl in Hocc.
      * rewrite <- Hocc. apply Hle. apply list_elem_of_fmap. exists (smi, c).
        split; [done|]. by apply DictFacts.get_Some_elem_of.
      * rewrite <- Hocc. apply list_elem_of_fmap in Hin as ([smi' c'] & Heq & Hin).
        destruct (entry_occurrences files smi' c' Hin) as (_ & ? & _).
        simpl in Heq. lia.
  - intros Hnil. rewrite Hnil in Hperm. apply Permutation_nil_r in Hperm.
    unfold max_recurrence_of. destruct pre; [done|done].
  - intros Hne. unfold max_recurrence_of. destruct (Dict.values pre) as [|v vs] eqn:Hv.
    + destruct pre; [|done]. destruct Hne. by apply Permutation_nil_l in Hperm.
    + destruct (py_max_spec v vs) as [Hin _]. rewrite <- Hv in Hin.
      apply list_elem_of_fmap in Hin as ([smi c] & Heq & Hin). simpl in Heq.
      destruct (entry_occurrences files smi c Hin) as (Hc & _ & Hs).
      exists smi. split; [by apply elem_of_remove_dups|]. by rewrite Heq, Hc.
Qed.

(** What [test_build] reports, in terms of the structures read from the
    candidate files (one for each line that is not empty, stripped):
    [recurrence] is the number of times the true structure was read, 0
    when it was not; [num_struct] is the number of different structures;
    [better_candidates], the structure ranking, is the number of different
    structures read at least as often as the true structure, the true
    structure included when it was read, and every structure when it was
    not; [max_recurrence] is the largest number of times a structure was
    read, and 0 when nothing was read. *)
Theorem test_build_ranks files mol_smi :
  let r := test_build strip files mol_smi in
  let candidates := remove_dups (structures strip files) in
  n_fragments r = Z.of_nat (length files)
  ∧ recurrence r = occurrences strip files mol_smi
  ∧ num_struct r = Z.of_nat (length candidates)
  ∧ better_candidates r
    = Z.of_nat (length (filter (λ smi, occurrences strip files mol_smi
                                       ≤ occurrences strip files smi) candidates))
  ∧ (∀ smi, occurrences strip files smi ≤ max_recurrence r)
  ∧ (candidates = [] → max_recurrence r = 0)
  ∧ (candidates ≠ [] →
     ∃ smi, smi ∈ candidates ∧ occurrences strip files smi = max_recurrence r).
Proof. apply ranks_spec. Qed.

(** The numbers [test_build] reports are consistent: the recurrence of
    the true structure is between 0 and the maximal recurrence; the
    ranking is at most the number of structures; it is at least 1 when the
    true structure was read, and when it is 1 the true structure was read
    more often than every other structure; when the true structure was
    not read the ranking is the number of all structures. *)
Theorem test_build_bounds files mol_smi :
  let r := test_build strip files mol_smi in
  0 ≤ recurrence r ≤ max_recurrence r
  ∧ 0 ≤ better_candidates r ≤ num_struct r
  ∧ (mol_smi ∈ structures strip files →
     1 ≤ recurrence r ∧ 1 ≤ better_candidates r
     ∧ (better_candidates r = 1 →
        ∀ smi, smi ≠ mol_smi → occurrences strip files smi < recurrence r))
  ∧ (mol_smi ∉ structures strip files →
     recurrence r = 0 ∧ better_candidates r = num_struct r).
Proof.
  cbv zeta. destruct (ranks_spec files mol_smi) as (_ & Hrec & Hnum & Hbc & Hmax & _).
  cbv zeta in *. set (r := test_build strip files mol_smi) in *.
  set (cands := remove_dups (structures strip files)) in *.
  set (P := λ smi, occurrences strip files mol_smi ≤ occurrences strip files smi) in *.
  pose proof (length_filter P cands) as Hle.
  split; [|split; [lia|split]].
  - rewrite Hrec. split; [apply occurrences_nonneg|apply Hmax].
  - intros Hin.
    pose proof (occurrences_pos files mol_smi Hin) as Hocc.
    assert (Hmem : mol_smi ∈ filter P cands).
    { apply list_elem_of_filter. split; [unfold P; lia|by apply elem_of_remove_dups]. }
    split; [lia|]. split.
    + rewrite Hbc. destruct (filter P cands);
        [by apply elem_of_nil in Hmem|simpl; lia].
    + intros H1 smi Hne. rewrite Hrec. apply Z.lt_nge. intros Hge.
      destruct (decide (smi ∈ structures strip files)) as [Hs|Hs].
      * assert (Hsmi : smi ∈ filter P cands).
        { apply list_elem_of_filter. split; [done|by apply elem_of_remove_dups]. }
        rewrite Hbc in H1.
        destruct (filter P cands) as [|x [|y l]] eqn:Hf; [done| |simpl in H1; lia].
        apply list_elem_of_singleton in Hmem, Hsmi. congruence.
      * pose proof (occurrences_zero files smi Hs). lia.
  - intros Hnin.
    pose proof (occurrences_zero files mol_smi Hnin) as Hocc.
    split; [lia|]. rewrite Hbc, Hnum. do 2 f_equal.
    transitivity (filter (λ _, True) cands).
    + apply FragmentMore.filter_ext_elem_of. intros smi _. unfold P. rewrite Hocc.
      pose proof (occurrences_nonneg files smi). tauto.
    + clear. induction cands as [|x l IH]; [done|].
      rewrite filter_cons_True by done. by rewrite IH.
Qed.

End ranking_facts.

Import RankingExamples.

(** Witness: three files in which the true structure is read three times,
    another structure twice and a third one once. *)
Lemma test_build_ranks_witness :
  n_fragments (test_build toy_strip toy_files "CCO"%string) = Z.of_nat (length toy_files)
  ∧ recurrence (test_build toy_strip toy_files "CCO"%string)
    = occurrences toy_strip toy_files "CCO"%string
  ∧ num_struct (test_build toy_strip toy_files "CCO"%string)
    = Z.of_nat (length (remove_dups (structures toy_strip toy_files)))
  ∧ better_candidates (test_build toy_strip toy_files "CCO"%string)
    = Z.of_nat (length (filter (λ smi, occurrences toy_strip toy_files "CCO"%string
                                       ≤ occurrences toy_strip toy_files smi)
                          (remove_dups (structures toy_strip toy_files))))
  ∧ (∀ smi, occurrences toy_strip toy_files smi
            ≤ max_recurrence (test_build toy_strip toy_files "CCO"%string))
  ∧ (remove_dups (structures toy_strip toy_files) = [] →
     max_recurrence (test_build toy_strip toy_files "CCO"%string) = 0)
  ∧ (remove_dups (structures toy_strip toy_files) ≠ [] →
     ∃ smi, smi ∈ remove_dups (structures toy_strip toy_files)
            ∧ occurrences toy_strip toy_files smi
              = max_recurrence (test_build toy_strip toy_files "CCO"%string)).
Proof. apply (test_build_ranks toy_strip toy_files "CCO"%string). Defined.

(** Witness: the structure read twice is second in the ranking. *)
Lemma test_build_bounds_witness :
  1 ≤ recurrence (test_build toy_strip toy_files "CCN"%string)
  ∧ 1 ≤ better_candidates (test_build toy_strip toy_files "CCN"%string)
  ∧ (better_candidates (test_build toy_strip toy_files "CCN"%string) = 1 →
     ∀ smi, smi ≠ "CCN"%string →
       occurrences toy_strip toy_files smi
       < recurrence (test_build toy_strip toy_files "CCN"%string)).
Proof.
  apply (proj1 (proj2 (proj2 (test_build_bounds toy_strip toy_files "CCN"%string)))).
  apply (bool_decide_unpack _). vm_compute. exact I.
Defined.

(** The report for the three files: the true structure CCN is read twice
    and is second of three structures; a structure that is not read gets
    the ranking 3. *)
Lemma test_build_toy_files :
  test_build toy_strip toy_files "CCN"%string
  = {| n_fragments := 3; recurrence := 2; better_candidates := 2;
       max_recurrence := 3; num_struct := 3 |}
  ∧ test_build toy_strip toy_files "CO"%string
    = {| n_fragments := 3; recurrence := 0; better_candidates := 3;
         max_recurrence := 3; num_struct := 3 |}.
Proof. split; vm_compute; reflexivity. Qed.

End RankingFacts.

(** ** Counting the structures of an exhaustive build *)

Module ExhaustiveFacts.
Import Exhaustive.

Section exhaustive_facts.
Variable strip : string → string.

Lemma enumerate_snoc (smi : list string) l :
  enumerate (smi ++ [l]) = enumerate smi ++ [(Z.of_nat (length smi), l)].
Proof. unfold enumerate. rewrite imap_app. simpl. by rewrite Nat.add_0_r. Qed.

Lemma enumerate_last_spec i (smi : list string) :
  enumerate_last i smi = if decide (smi = []) then i else Z.of_nat (length smi) - 1.
Proof.
  unfold enumerate_last. induction smi as [|l smi _] using rev_ind; [done|].
  rewrite enumerate_snoc, foldl_app, length_app. simpl.
  rewrite decide_False by (by destruct smi). lia.
Qed.

Lemma scan_spec i mol_smi (smi : list string) :
  (scan strip i mol_smi smi).1 = enumerate_last i smi
  ∧ ((scan strip i mol_smi smi).2 = true ↔ mol_smi ∈ strip <$> smi).
Proof.
  unfold scan, enumerate_last. induction smi as [|l smi [IH1 IH2]] using rev_ind.
  - split; [done|]. simpl. split; [done|]. by intros ?%elem_of_nil.
  - rewrite enumerate_snoc, !foldl_app. cbn [foldl fst snd]. split; [done|].
    rewrite fmap_app, elem_of_app. csimpl. rewrite list_elem_of_singleton.
    destruct (decide (strip l = mol_smi)) as [Heq|Hne].
    + split; [by right|done].
    + rewrite IH2. split; [by left|]. intros [?|?]; [done|congruence].
Qed.

(** [run_ind_exh_exp] reports a candidate file without any line as one
    structure: [total_structures] is the number of lines of the file,
    but 1 when there is none; [uniq_structures] is the number of lines
    left after the duplicates are removed, but [total_structures] when
    none is left; and [reconstructed] tells whether a line left, stripped,
    is the true structure. *)
Theorem count_structures_spec (temp_structures uniq : list string) mol_smi :
  let r := count_structures strip temp_structures uniq mol_smi in
  total_structures r = Z.max 1 (Z.of_nat (length temp_structures))
  ∧ uniq_structures r
    = (if decide (uniq = []) then total_structures r else Z.of_nat (length uniq))
  ∧ (reconstructed r = true ↔ mol_smi ∈ strip <$> uniq).
Proof.
  cbv zeta. unfold count_structures. cbn [total_structures uniq_structures reconstructed].
  destruct (scan_spec (enumerate_last 0 temp_structures) mol_smi uniq) as [H1 H2].
  split; [|split; [|exact H2]]; rewrite ?H1, !enumerate_last_spec.
  - destruct temp_structures as [|l smi]; [done|].
    rewrite decide_False by done. cbn [length]. lia.
  - destruct (decide (uniq = [])) as [->|Hne]; [done|]. lia.
Qed.

End exhaustive_facts.

End ExhaustiveFacts.

(** ** The peaks kept for a spectrum *)

Module PeaksFacts.
Import Peaks.

Section sorted_facts.
Context {A : Type}.
Variable key : A → Qc.
Implicit Types (x : A) (l : list A).

Lemma insert_sorted_Permutation x l : insert_sorted key x l ≡ₚ x :: l.
Proof.
  induction l as [|y l IH]; [done|]. simpl. case_decide; [done|].
  rewrite IH. apply Permutation_swap.
Qed.

Lemma sorted_Permutation l : sorted key l ≡ₚ l.
Proof.
  unfold sorted. induction l as [|x l IH] using rev_ind; [done|].
  rewrite foldl_app. simpl. rewrite insert_sorted_Permutation, IH.
  by rewrite Permutation_app_comm.
Qed.

Lemma insert_sorted_StronglySorted x l :
  StronglySorted (λ a b, (key a ≤ key b)%Qc) l →
  StronglySorted (λ a b, (key a ≤ key b)%Qc) (insert_sorted key x l).
Proof.
  induction l as [|y l IH]; intros Hs.
  - simpl. by repeat constructor.
  - simpl. apply StronglySorted_cons in Hs as [Hy Hs].
    destruct (decide (key x < key y)%Qc) as [Hlt|Hge].
    + apply StronglySorted_cons. split; [|by apply StronglySorted_cons].
      constructor; [by apply Qclt_le_weak|].
      eapply Forall_impl; [exact Hy|]. intros z Hz. simpl in Hz.
      eapply Qcle_trans; [|exact Hz]. by apply Qclt_le_weak.
    + apply StronglySorted_cons. split; [|by apply IH].
      rewrite insert_sorted_Permutation. constructor; [|done].
      by apply Qcnot_lt_le.
Qed.

Lemma sorted_StronglySorted l :
  StronglySorted (λ a b, (key a ≤ key b)%Qc) (sorted key l).
Proof.
  unfold sorted. induction l as [|x l IH] using rev_ind; [constructor|].
  rewrite foldl_app. simpl. by apply insert_sorted_StronglySorted.
Qed.

End sorted_facts.

Lemma keep_lookup {A} (P : nat → Prop) `{!∀ i, Decision (P i)} (l : list A) :
  Forall2 (λ i x, l !! i = Some x)
    (filter P (seq 0 (length l)))
    (filter (λ ix : nat * A, P ix.1) (imap (λ i x, (i, x)) l)).*2.
Proof.
  induction l as [|x l IH] using rev_ind; [constructor|].
  rewrite length_app, Nat.add_1_r, seq_S, imap_app, !filter_app, fmap_app. simpl.
  rewrite Nat.add_0_r. apply Forall2_app.
  - eapply Forall2_impl; [exact IH|]. intros i y Hy. by apply lookup_app_l_Some.
  - destruct (decide (P (length l))) as [Hp|Hp].
    + rewrite !filter_cons_True by done. repeat constructor.
      by rewrite lookup_app_r, Nat.sub_diag.
    + rewrite !filter_cons_False by done. constructor.
Qed.

Lemma top_indices_spec (intensity : list Qc) :
  NoDup (top_indices intensity)
  ∧ (∀ i, i ∈ top_indices intensity → (i < length intensity)%nat)
  ∧ length (top_indices intensity) = (length intensity `min` 15)%nat
  ∧ ∀ i j, i ∈ top_indices intensity → j ∉ top_indices intensity →
      (j < length intensity)%nat →
      (at_index intensity j ≤ at_index intensity i)%Qc.
Proof.
  unfold top_indices, last_n.
  set (s := sorted (at_index intensity) (seq 0 (length intensity))).
  pose proof (sorted_Permutation (at_index intensity) (seq 0 (length intensity))) as Hperm.
  pose proof (sorted_StronglySorted (at_index intensity) (seq 0 (length intensity))) as Hs.
  fold s in Hperm, Hs.
  assert (Hlen : length s = length intensity) by by rewrite Hperm, length_seq.
  assert (Hnd : NoDup s) by (rewrite Hperm; apply NoDup_seq).
  assert (Hin : ∀ i, i ∈ s ↔ (i < length intensity)%nat).
  { intros i. rewrite Hperm, elem_of_seq. lia. }
  split; [|split; [|split]].
  - exact (sublist_NoDup _ s Hnd (sublist_drop s _)).
  - intros i Hi. apply Hin. exact (elem_of_sublist _ _ _ Hi (sublist_drop s _)).
  - rewrite length_drop, Hlen. lia.
  - intros i j Hi Hj Hjn.
    rewrite <- (take_drop (length s - 15) s) in Hs.
    apply (StronglySorted_app_1_elem_of _ _ _ j i Hs); [|done].
    apply Hin in Hjn. rewrite <- (take_drop (length s - 15) s) in Hjn.
    apply elem_of_app in Hjn as [?|?]; done.
Qed.

Lemma top_peaks_kept (mz intensity : list Qc) :
  length mz = length intensity →
  ∃ kept : list nat,
    kept `sublist_of` seq 0 (length intensity)
    ∧ length kept = (length intensity `min` 15)%nat
    ∧ (∀ i j, i ∈ kept → j ∉ kept → (j < length intensity)%nat →
         (at_index intensity j ≤ at_index intensity i)%Qc)
    ∧ Forall2 (λ i m, mz !! i = Some m) kept (keep (top_indices intensity) mz)
    ∧ Forall2 (λ i x, intensity !! i = Some x) kept
        (keep (top_indices intensity) intensity)
    ∧ top_peaks mz intensity
      = if decide (intensity = []) then None
        else Some (keep (top_indices intensity) mz,
                   keep (top_indices intensity) intensity).
Proof.
  intros Hmz. destruct (top_indices_spec intensity) as (Hnd & Hlt & Hlen & Hmax).
  set (I := top_indices intensity) in *.
  set (kept := filter (λ i, i ∈ I) (seq 0 (length intensity))).
  assert (Hkept : ∀ i, i ∈ kept ↔ i ∈ I).
  { intros i. unfold kept. rewrite list_elem_of_filter, elem_of_seq.
    split; [tauto|]. intros Hi. split; [done|]. specialize (Hlt i Hi). lia. }
  assert (Hperm : kept ≡ₚ I).
  { apply NoDup_Permutation; [apply NoDup_filter, NoDup_seq|done|done]. }
  assert (Hk2 : Forall2 (λ i x, intensity !! i = Some x) kept (keep I intensity))
    by exact (keep_lookup (λ i, i ∈ I) intensity).
  exists kept. split; [apply sublist_filter|]. split; [by rewrite Hperm|].
  split; [|split; [|split; [done|]]].
  - intros i j Hi Hj. apply Hmax; [by apply Hkept|]. by rewrite <- Hkept.
  - unfold kept. rewrite <- Hmz. exact (keep_lookup (λ i, i ∈ I) mz).
  - unfold top_peaks. cbv zeta. fold I.
    assert (Hl : length (keep I intensity) = (length intensity `min` 15)%nat).
    { rewrite <- (Forall2_length _ _ _ Hk2). by rewrite Hperm. }
    rewrite Hl. destruct intensity as [|x intensity']; [done|].
    rewrite decide_False by (simpl; lia). by rewrite decide_False.
Qed.

(** A spectrum is yielded with its 15 most intense peaks, or all peaks
    when it has fewer, in the order the rows were fetched: the two lists
    hold the [mz] and the intensity of the same [min(n, 15)] rows; no row
    left out is more intense than a row kept; and only a spectrum without
    any row is skipped. *)
Theorem get_fragments_peaks_spec (spectra : list (Qc * Qc)) :
  ∃ kept : list nat,
    kept `sublist_of` seq 0 (length spectra)
    ∧ length kept = (length spectra `min` 15)%nat
    ∧ (∀ i j p q, i ∈ kept → j ∉ kept →
         spectra !! i = Some p → spectra !! j = Some q → (q.2 ≤ p.2)%Qc)
    ∧ match get_fragments_peaks spectra with
      | None => spectra = []
      | Some (mz, intensity) =>
          spectra ≠ []
          ∧ Forall2 (λ i m, fst <$> spectra !! i = Some m) kept mz
          ∧ Forall2 (λ i x, snd <$> spectra !! i = Some x) kept intensity
      end.
Proof.
  destruct (top_peaks_kept (spectra.*1) (spectra.*2)) as (kept & Hsub & Hlen & Hmax & Hmz & Hint & Hres).
  { by rewrite !length_fmap. }
  rewrite length_fmap in Hsub, Hlen. exists kept.
  split; [done|]. split; [done|]. split.
  - intros i j p q Hi Hj Hp Hq.
    specialize (Hmax i j Hi Hj). rewrite length_fmap in Hmax.
    unfold at_index in Hmax. rewrite !list_lookup_fmap, Hp, Hq in Hmax.
    apply Hmax. by apply lookup_lt_Some in Hq.
  - unfold get_fragments_peaks. rewrite Hres.
    assert (Hmz' : Forall2 (λ i m, fst <$> spectra !! i = Some m) kept
                     (keep (top_indices (spectra.*2)) (spectra.*1))).
    { eapply Forall2_impl; [exact Hmz|]. intros i m Hm. cbv beta in Hm.
      by rewrite <- list_lookup_fmap. }
    assert (Hint' : Forall2 (λ i x, snd <$> spectra !! i = Some x) kept
                      (keep (top_indices (spectra.*2)) (spectra.*2))).
    { eapply Forall2_impl; [exact Hint|]. intros i m Hm. cbv beta in Hm.
      by rewrite <- list_lookup_fmap. }
    destruct spectra as [|r spectra']; [done|]. by rewrite decide_False.
Qed.

End PeaksFacts.
